(** * EncryptionStream: buffered cipher stream adapters

    A shallow embedding of [EncryptionStream.h] / [EncryptionStream.cpp]
    (namespace TWN) and the properties of its buffering, alignment and
    padding discipline.

    Conventions of the embedding.
    - [uint8_t] is [Byte.byte]; [static_cast<uint8_t>] is written out as
      reduction modulo 256.
    - [int] values are integers of [Z].  Signed overflow is undefined in
      C++; every statement below keeps the values inside the window
      arithmetic (at most twice 4096).  [%] is C++ remainder, [Z.rem],
      and a zero divisor is undefined behaviour.
    - A pointer into one of the fixed arrays is its offset from the
      array's first element, so [m_writePos - m_buffer] is the offset
      itself.  An access outside the array is undefined behaviour and
      is made observable as a halt.
    - Member functions are computations in a state monad over the
      object's fields that either return or halt. *)

From Stdlib Require Import ZArith Lia String.
From Stdlib.Strings Require Import Byte.
From stdpp Require Import base list.

Local Open Scope Z_scope.

(** ** Outcomes of a member function *)

Inductive undefined : Type :=
  | OutOfBounds
  | DivideByZero
  | OverlappingCopy.

(** [OutOfFuel] is not a behaviour of the program: it marks a loop of
    the model whose iteration bound ran out. *)
Inductive fault : Type :=
  | RequireFailed
  | Bug (msg : string)
  | Undefined (u : undefined)
  | OutOfFuel.

(** [Halt f s]: execution stopped with [f]; [s] is the object as it was
    at that point. *)
Inductive outcome (S A : Type) : Type :=
  | Ret (a : A) (s : S)
  | Halt (f : fault) (s : S).
Arguments Ret {S A} a s.
Arguments Halt {S A} f s.

Definition M (S A : Type) : Type := S -> outcome S A.

Definition ret {S A} (a : A) : M S A := fun s => Ret a s.

Definition bind {S A B} (m : M S A) (k : A -> M S B) : M S B :=
  fun s => match m s with
           | Ret a s' => k a s'
           | Halt f s' => Halt f s'
           end.

Definition halt {S A} (f : fault) : M S A := fun s => Halt f s.

Definition gets {S A} (f : S -> A) : M S A := fun s => Ret (f s) s.

Definition modify {S} (f : S -> S) : M S unit := fun s => Ret tt (f s).

(** An access that leaves the array is undefined behaviour. *)
Definition checked {S A} (o : option A) : M S A :=
  match o with
  | Some a => ret a
  | None => halt (Undefined OutOfBounds)
  end.

Notation "'let!' x ':=' m 'in' k" := (bind m (fun x => k))
  (at level 10, x name, m at level 100, k at level 200).

(** The halts the code asks for itself: a failed [TWN_REQUIRE] and
    [TWN_BUG]. *)
Definition is_fatal (f : fault) : Prop :=
  match f with RequireFailed | Bug _ => True | _ => False end.

(** ** Assertion macros

    Modelled from the spec: [Common/Assert.h] is not part of the sources.
    [TWN_BUG] reports an unrecoverable error and halts.  [TWN_REQUIRE]
    checks a precondition; a violated precondition is reported, and halts
    in a build whose assertions are fatal, while the code after it runs
    in a build whose assertions only report (which is why [AdvanceRead]
    repeats the test after the macro). *)

Class Build : Type := { asserts_fatal : bool }.

Definition TWN_REQUIRE `{Build} {S} (cond : bool) : M S unit :=
  if cond then ret tt
  else if asserts_fatal then halt RequireFailed
  else ret tt.

Definition TWN_BUG {S} (msg : string) : M S unit := halt (Bug msg).

(** C++ [a % b] on [int]. *)
Definition int_rem {S} (a b : Z) : M S Z :=
  if b =? 0 then halt (Undefined DivideByZero) else ret (Z.rem a b).

(** ** Bytes and fixed arrays *)

Definition uint8_t : Type := byte.

Definition uint8_val (b : uint8_t) : Z := Z.of_N (Byte.to_N b).

Definition static_cast_uint8 (z : Z) : uint8_t :=
  match Byte.of_N (Z.to_N (z mod 256)) with
  | Some b => b
  | None => x00
  end.

(** [static_cast<int>] of a [size_t]: the value modulo 2^32, read as a
    two's complement number. *)
Definition static_cast_int (z : Z) : Z :=
  (z + 2 ^ 31) mod 2 ^ 32 - 2 ^ 31.

(** [TWN_ARRAY_SIZE] of the [uint8_t[4096]] members. *)
Definition TWN_ARRAY_SIZE : Z := 4096.

Definition in_array (buf : list uint8_t) (off len : Z) : bool :=
  (0 <=? off) && (0 <=? len) && (off + len <=? Z.of_nat (length buf)).

(** Read [len] bytes at offset [off]. *)
Definition load (buf : list uint8_t) (off len : Z) : option (list uint8_t) :=
  if in_array buf off len
  then Some (take (Z.to_nat len) (drop (Z.to_nat off) buf))
  else None.

(** Write [data] at offset [off]. *)
Definition store (buf : list uint8_t) (off : Z) (data : list uint8_t)
  : option (list uint8_t) :=
  if in_array buf off (Z.of_nat (length data))
  then Some (take (Z.to_nat off) buf ++ data
             ++ drop (Z.to_nat off + length data) buf)
  else None.

(** [memmove (buf + dst, buf + src, n)] inside one array. *)
Definition memmove (buf : list uint8_t) (dst src n : Z)
  : option (list uint8_t) :=
  match load buf src n with
  | Some data => store buf dst data
  | None => None
  end.

Definition disjoint_ranges (dst src n : Z) : bool :=
  (n <=? 0) || (dst + n <=? src) || (src + n <=? dst).

(** ** External collaborators *)

(** The cipher primitive ([XBCrypto] or [SSLCrypto], selected at build
    time; neither is part of the sources).  [crypto_Cipher] consumes the
    bytes of the source span and yields the bytes it produced; the
    [size_t] the C++ call returns is their number.  The in-place and the
    out-of-place overloads differ only in where the result is stored. *)
Class Crypto : Type := {
  session : Type;
  crypto_new : session;
  crypto_Init :
    session -> Z -> list uint8_t -> Z -> list uint8_t -> Z -> bool -> bool
    -> bool * session;
  crypto_Cipher : session -> list uint8_t -> session * list uint8_t;
}.

(** The wrapped sink, reached through [Stream::Copy (src, dest, len)]
    ([Stream.h] is not part of the sources): it pushes the bytes through
    the sink's write protocol and returns whether all were delivered. *)
Class WriteStream (W : Type) : Type := {
  Stream_Copy : list uint8_t -> W -> bool * W;
}.

(** Modelled from the spec: the wrapped source, a [ReadStream] of
    [Stream.h], which is not part of the sources.  It is the sequence of
    spans still to be returned: [NextRead] returns a view over the next
    span without advancing, and fails when no more data exists;
    [AdvanceRead n] commits the consumption of [n] bytes of that span. *)
Module ReadStream.

Definition t : Type := list (list uint8_t).

Definition NextRead (src : t) : option (list uint8_t) := head src.

Definition AdvanceRead (n : Z) (src : t) : t :=
  match src with
  | [] => []
  | span :: rest =>
      match drop (Z.to_nat n) span with
      | [] => rest
      | span' => span' :: rest
      end
  end.

(** All bytes the source still holds. *)
Definition pending (src : t) : list uint8_t := concat src.

(** A bound on the number of span requests that can still succeed. *)
Definition size (src : t) : nat := (length src + length (concat src))%nat.

End ReadStream.

(** A [Buffer] handed out by [NextRead] / [NextWrite]: a view into the
    adapter's own array, given by its offset and its length. *)
Record Buffer : Type := { GetData : Z; GetDataLen : Z }.

(** ** DecryptionStream (stream cipher, reading side) *)

Module DecryptionStream.
Section DecryptionStream.
Context `{Build} `{Crypto}.

Record state : Type := {
  m_source : ReadStream.t;
  m_crypto : session;
  m_buffer : list uint8_t;
  m_readPos : Z;
  m_readEnd : Z;
}.

Definition set_m_source (v : ReadStream.t) (s : state) : state :=
  {| m_source := v; m_crypto := m_crypto s; m_buffer := m_buffer s;
     m_readPos := m_readPos s; m_readEnd := m_readEnd s |}.
Definition set_m_crypto (v : session) (s : state) : state :=
  {| m_source := m_source s; m_crypto := v; m_buffer := m_buffer s;
     m_readPos := m_readPos s; m_readEnd := m_readEnd s |}.
Definition set_m_buffer (v : list uint8_t) (s : state) : state :=
  {| m_source := m_source s; m_crypto := m_crypto s; m_buffer := v;
     m_readPos := m_readPos s; m_readEnd := m_readEnd s |}.
Definition set_m_readPos (v : Z) (s : state) : state :=
  {| m_source := m_source s; m_crypto := m_crypto s; m_buffer := m_buffer s;
     m_readPos := v; m_readEnd := m_readEnd s |}.
Definition set_m_readEnd (v : Z) (s : state) : state :=
  {| m_source := m_source s; m_crypto := m_crypto s; m_buffer := m_buffer s;
     m_readPos := m_readPos s; m_readEnd := v |}.

(** The constructor leaves [m_buffer] uninitialised: [buffer] is
    whatever the array holds. *)
Definition new (source : ReadStream.t) (buffer : list uint8_t) : state :=
  {| m_source := source; m_crypto := crypto_new; m_buffer := buffer;
     m_readPos := 0; m_readEnd := 0 |}.

Definition Init (algorithm : Z) (key : list uint8_t) (keySize : Z)
    (iv : list uint8_t) (ivSize : Z) : M state bool :=
  let! c := gets m_crypto in
  let r := crypto_Init c algorithm key keySize iv ivSize false true in
  let! _ := modify (set_m_crypto (snd r)) in
  ret (fst r).

Definition GetAvailableRead (s : state) : Z := m_readEnd s - m_readPos s.

(** [len] is an [int]: the length of the span is converted with
    [static_cast<int>] before the minimum is taken, so it wraps for a
    span of 2^31 bytes or more.  [memcpy] takes its count as a
    [size_t]; a negative [len] is a count beyond every array. *)
Definition Decrypt : M state bool :=
  let! _ := modify (set_m_readEnd 0) in
  let! _ := modify (set_m_readPos 0) in
  let! source := gets m_source in
  match ReadStream.NextRead source with
  | Some buffer =>
      let len := Z.min TWN_ARRAY_SIZE
                   (static_cast_int (Z.of_nat (length buffer))) in
      let! mem := gets m_buffer in
      let! data := checked (load buffer 0 len) in
      let! mem := checked (store mem 0 data) in
      let! _ := modify (set_m_buffer mem) in
      let! _ := modify (set_m_source (ReadStream.AdvanceRead len source)) in
      let! plain := checked (load mem 0 len) in
      let! c := gets m_crypto in
      let r := crypto_Cipher c plain in
      let! _ := modify (set_m_crypto (fst r)) in
      let! mem := checked (store mem 0 (snd r)) in
      let! _ := modify (set_m_buffer mem) in
      let written := Z.of_nat (length (snd r)) in
      let! _ := modify (set_m_readEnd written) in
      ret true
  | None => ret false
  end.

(** [Some buffer] is the result [true] together with the view stored in
    the reference argument; [None] is the result [false]. *)
Definition NextRead : M state (option Buffer) :=
  let! avail := gets GetAvailableRead in
  let! ok := (if avail =? 0 then Decrypt else ret true) in
  if ok : bool then
    let! pos := gets m_readPos in
    let! e := gets m_readEnd in
    ret (Some {| GetData := pos; GetDataLen := e - pos |})
  else
    ret None.

Definition AdvanceRead (bytes : Z) : M state bool :=
  let! avail := gets GetAvailableRead in
  let! _ := TWN_REQUIRE (bytes <=? avail) in
  let! avail := gets GetAvailableRead in
  if bytes <=? avail then
    let! pos := gets m_readPos in
    let! _ := modify (set_m_readPos (pos + bytes)) in
    ret true
  else
    ret false.

(** [SetSource] replaces the pointer to the source and nothing else. *)
Definition SetSource (source : ReadStream.t) : M state unit :=
  modify (set_m_source source).

End DecryptionStream.
End DecryptionStream.

(** ** BlockEncryptionStream *)

Module BlockEncryptionStream.
Section BlockEncryptionStream.
Context `{Build} `{Crypto} {W : Type} `{WriteStream W}.

Record state : Type := {
  m_dest : W;
  m_crypto : session;
  m_blockSize : Z;
  m_buffer : list uint8_t;
  m_encrypedBuffer : list uint8_t;
  m_writePos : Z;
}.

Definition set_m_dest (v : W) (s : state) : state :=
  {| m_dest := v; m_crypto := m_crypto s; m_blockSize := m_blockSize s;
     m_buffer := m_buffer s; m_encrypedBuffer := m_encrypedBuffer s;
     m_writePos := m_writePos s |}.
Definition set_m_crypto (v : session) (s : state) : state :=
  {| m_dest := m_dest s; m_crypto := v; m_blockSize := m_blockSize s;
     m_buffer := m_buffer s; m_encrypedBuffer := m_encrypedBuffer s;
     m_writePos := m_writePos s |}.
Definition set_m_blockSize (v : Z) (s : state) : state :=
  {| m_dest := m_dest s; m_crypto := m_crypto s; m_blockSize := v;
     m_buffer := m_buffer s; m_encrypedBuffer := m_encrypedBuffer s;
     m_writePos := m_writePos s |}.
Definition set_m_buffer (v : list uint8_t) (s : state) : state :=
  {| m_dest := m_dest s; m_crypto := m_crypto s; m_blockSize := m_blockSize s;
     m_buffer := v; m_encrypedBuffer := m_encrypedBuffer s;
     m_writePos := m_writePos s |}.
Definition set_m_encrypedBuffer (v : list uint8_t) (s : state) : state :=
  {| m_dest := m_dest s; m_crypto := m_crypto s; m_blockSize := m_blockSize s;
     m_buffer := m_buffer s; m_encrypedBuffer := v;
     m_writePos := m_writePos s |}.
Definition set_m_writePos (v : Z) (s : state) : state :=
  {| m_dest := m_dest s; m_crypto := m_crypto s; m_blockSize := m_blockSize s;
     m_buffer := m_buffer s; m_encrypedBuffer := m_encrypedBuffer s;
     m_writePos := v |}.

(** The constructor leaves both arrays uninitialised. *)
Definition new (dest : W) (buffer encrypedBuffer : list uint8_t) : state :=
  {| m_dest := dest; m_crypto := crypto_new; m_blockSize := 0;
     m_buffer := buffer; m_encrypedBuffer := encrypedBuffer;
     m_writePos := 0 |}.

Definition Init (algorithm : Z) (key : list uint8_t) (keySize : Z)
    (iv : list uint8_t) (ivSize : Z) : M state bool :=
  let! _ := modify (set_m_blockSize (static_cast_int keySize)) in
  let! c := gets m_crypto in
  let r := crypto_Init c algorithm key keySize iv ivSize true false in
  let! _ := modify (set_m_crypto (snd r)) in
  ret (fst r).

(** [m_writePos - m_buffer] *)
Definition GetAvailableRead (s : state) : Z := m_writePos s - 0.

Definition NextWrite : M state (option Buffer) :=
  let! avail := gets GetAvailableRead in
  let bufferRemaining := TWN_ARRAY_SIZE - avail in
  let! pos := gets m_writePos in
  ret (Some {| GetData := pos; GetDataLen := bufferRemaining |}).

(** [memcpy] inside [m_buffer]; overlapping ranges are undefined. *)
Definition memcpy (mem : list uint8_t) (dst src n : Z)
  : M state (list uint8_t) :=
  if disjoint_ranges dst src n then checked (memmove mem dst src n)
  else halt (Undefined OverlappingCopy).

Definition AdvanceWrite (bytes : Z) : M state bool :=
  let! avail := gets GetAvailableRead in
  let totalBytes := bytes + avail in
  let! blockSize := gets m_blockSize in
  if totalBytes >=? blockSize then
    let! r := int_rem totalBytes blockSize in
    let bytesToWrite := totalBytes - r in
    let remainingBytes := totalBytes - bytesToWrite in
    let! mem := gets m_buffer in
    let! plain := checked (load mem 0 bytesToWrite) in
    let! c := gets m_crypto in
    let r := crypto_Cipher c plain in
    let! _ := modify (set_m_crypto (fst r)) in
    let! enc := gets m_encrypedBuffer in
    let! enc := checked (store enc 0 (snd r)) in
    let! _ := modify (set_m_encrypedBuffer enc) in
    let written := Z.of_nat (length (snd r)) in
    let! mem := memcpy mem 0 bytesToWrite remainingBytes in
    let! _ := modify (set_m_buffer mem) in
    let! _ := modify (set_m_writePos (0 + remainingBytes)) in
    let! out := checked (load enc 0 written) in
    let! dest := gets m_dest in
    let r := Stream_Copy out dest in
    let! _ := modify (set_m_dest (snd r)) in
    ret (fst r)
  else
    let! pos := gets m_writePos in
    let! _ := modify (set_m_writePos (pos + bytes)) in
    ret true.

(** The loop [for (i = 0; i < paddingLen - 1; ++i) { *buffer = 0; ++buffer; }]
    run [count] times from the pointer [buffer]. *)
Fixpoint fill_zero (count : nat) (buffer : Z) (mem : list uint8_t)
  : option (Z * list uint8_t) :=
  match count with
  | O => Some (buffer, mem)
  | S count' =>
      match store mem buffer [x00] with
      | Some mem' => fill_zero count' (buffer + 1) mem'
      | None => None
      end
  end.

(** [Pad] is only called on [m_buffer]; [buffer] is the offset the
    pointer argument has in it. *)
Definition Pad (buffer bufferLen dataLen : Z) : M state Z :=
  let! blockSize := gets m_blockSize in
  let! r := int_rem dataLen blockSize in
  let paddingLen := blockSize - r in
  if dataLen + paddingLen <? bufferLen then
    let buffer := buffer + dataLen in
    let! mem := gets m_buffer in
    let! pm := checked (fill_zero (Z.to_nat (paddingLen - 1)) buffer mem) in
    let! mem := checked (store (snd pm) (fst pm)
                           [static_cast_uint8 paddingLen]) in
    let! _ := modify (set_m_buffer mem) in
    ret paddingLen
  else
    let! _ := TWN_BUG
      "BlockEncryptionStream: Padding failed due to insufficient buffer space" in
    ret 0.

Definition Flush : M state unit :=
  let! avail := gets GetAvailableRead in
  let! padBytes := Pad 0 TWN_ARRAY_SIZE avail in
  let! avail := gets GetAvailableRead in
  let! blockSize := gets m_blockSize in
  let! r := int_rem (avail + padBytes) blockSize in
  let! _ := TWN_REQUIRE (r =? 0) in
  let! _ := AdvanceWrite padBytes in
  ret tt.

End BlockEncryptionStream.
Arguments state {_} W.
End BlockEncryptionStream.

(** ** BlockDecryptionStream *)

Module BlockDecryptionStream.
Section BlockDecryptionStream.
Context `{Build} `{Crypto}.

Record state : Type := {
  m_source : ReadStream.t;
  m_crypto : session;
  m_blockSize : Z;
  m_buffer : list uint8_t;
  m_encrypedBuffer : list uint8_t;
  m_readPos : Z;
  m_readEnd : Z;
  m_writePos : Z;
}.

Definition set_m_source (v : ReadStream.t) (s : state) : state :=
  {| m_source := v; m_crypto := m_crypto s; m_blockSize := m_blockSize s;
     m_buffer := m_buffer s; m_encrypedBuffer := m_encrypedBuffer s;
     m_readPos := m_readPos s; m_readEnd := m_readEnd s;
     m_writePos := m_writePos s |}.
Definition set_m_crypto (v : session) (s : state) : state :=
  {| m_source := m_source s; m_crypto := v; m_blockSize := m_blockSize s;
     m_buffer := m_buffer s; m_encrypedBuffer := m_encrypedBuffer s;
     m_readPos := m_readPos s; m_readEnd := m_readEnd s;
     m_writePos := m_writePos s |}.
Definition set_m_blockSize (v : Z) (s : state) : state :=
  {| m_source := m_source s; m_crypto := m_crypto s; m_blockSize := v;
     m_buffer := m_buffer s; m_encrypedBuffer := m_encrypedBuffer s;
     m_readPos := m_readPos s; m_readEnd := m_readEnd s;
     m_writePos := m_writePos s |}.
Definition set_m_buffer (v : list uint8_t) (s : state) : state :=
  {| m_source := m_source s; m_crypto := m_crypto s;
     m_blockSize := m_blockSize s;
     m_buffer := v; m_encrypedBuffer := m_encrypedBuffer s;
     m_readPos := m_readPos s; m_readEnd := m_readEnd s;
     m_writePos := m_writePos s |}.
Definition set_m_encrypedBuffer (v : list uint8_t) (s : state) : state :=
  {| m_source := m_source s; m_crypto := m_crypto s;
     m_blockSize := m_blockSize s;
     m_buffer := m_buffer s; m_encrypedBuffer := v;
     m_readPos := m_readPos s; m_readEnd := m_readEnd s;
     m_writePos := m_writePos s |}.
Definition set_m_readPos (v : Z) (s : state) : state :=
  {| m_source := m_source s; m_crypto := m_crypto s;
     m_blockSize := m_blockSize s;
     m_buffer := m_buffer s; m_encrypedBuffer := m_encrypedBuffer s;
     m_readPos := v; m_readEnd := m_readEnd s;
     m_writePos := m_writePos s |}.
Definition set_m_readEnd (v : Z) (s : state) : state :=
  {| m_source := m_source s; m_crypto := m_crypto s;
     m_blockSize := m_blockSize s;
     m_buffer := m_buffer s; m_encrypedBuffer := m_encrypedBuffer s;
     m_readPos := m_readPos s; m_readEnd := v;
     m_writePos := m_writePos s |}.
Definition set_m_writePos (v : Z) (s : state) : state :=
  {| m_source := m_source s; m_crypto := m_crypto s;
     m_blockSize := m_blockSize s;
     m_buffer := m_buffer s; m_encrypedBuffer := m_encrypedBuffer s;
     m_readPos := m_readPos s; m_readEnd := m_readEnd s;
     m_writePos := v |}.

(** The constructor leaves both arrays uninitialised. *)
Definition new (source : ReadStream.t) (buffer encrypedBuffer : list uint8_t)
  : state :=
  {| m_source := source; m_crypto := crypto_new; m_blockSize := 0;
     m_buffer := buffer; m_encrypedBuffer := encrypedBuffer;
     m_readPos := 0; m_readEnd := 0; m_writePos := 0 |}.

Definition Init (algorithm : Z) (key : list uint8_t) (keySize : Z)
    (iv : list uint8_t) (ivSize : Z) : M state bool :=
  let! _ := modify (set_m_blockSize (static_cast_int keySize)) in
  let! c := gets m_crypto in
  let r := crypto_Init c algorithm key keySize iv ivSize false false in
  let! _ := modify (set_m_crypto (snd r)) in
  ret (fst r).

Definition GetAvailableRead (s : state) : Z := m_readEnd s - m_readPos s.
(** [m_writePos - m_encrypedBuffer] *)
Definition GetUsedWrite (s : state) : Z := m_writePos s - 0.
Definition GetAvailableWrite (s : state) : Z :=
  TWN_ARRAY_SIZE - GetUsedWrite s.

(** One pass of the body of the [while] loop of [Decrypt], on the span
    [buffer] the source returned; the result is [len]. *)
Definition Decrypt_pass (buffer : list uint8_t) : M state Z :=
  let! availW := gets GetAvailableWrite in
  let len := Z.min availW (Z.of_nat (length buffer)) in
  let! enc := gets m_encrypedBuffer in
  let! pos := gets m_writePos in
  let! enc := checked (store enc pos (take (Z.to_nat len) buffer)) in
  let! _ := modify (set_m_encrypedBuffer enc) in
  let! _ := modify (set_m_writePos (pos + len)) in
  let! source := gets m_source in
  let! _ := modify (set_m_source (ReadStream.AdvanceRead len source)) in
  let! availableBytes := gets GetUsedWrite in
  let! blockSize := gets m_blockSize in
  let! r := int_rem availableBytes blockSize in
  let bytesToRead := availableBytes - r - blockSize in
  let remainingBytes := availableBytes - bytesToRead in
  let! _ :=
    (if 0 <? bytesToRead then
       let! cipher := checked (load enc 0 bytesToRead) in
       let! c := gets m_crypto in
       let r := crypto_Cipher c cipher in
       let! _ := modify (set_m_crypto (fst r)) in
       let! mem := gets m_buffer in
       let! mem := checked (store mem 0 (snd r)) in
       let! _ := modify (set_m_buffer mem) in
       let written := Z.of_nat (length (snd r)) in
       let! _ := modify (set_m_readEnd (0 + written)) in
       let! enc := checked (memmove enc 0 bytesToRead remainingBytes) in
       let! _ := modify (set_m_encrypedBuffer enc) in
       modify (set_m_writePos (0 + remainingBytes))
     else ret tt) in
  ret len.

(** The [while] loop of [Decrypt], at most [fuel] passes. *)
Fixpoint Decrypt_loop (fuel : nat) (bytesRead : Z) : M state Z :=
  match fuel with
  | O => halt OutOfFuel
  | S fuel' =>
      let! availW := gets GetAvailableWrite in
      let! availR := gets GetAvailableRead in
      let! blockSize := gets m_blockSize in
      if (0 <? availW) && (availR <? blockSize) then
        let! source := gets m_source in
        match ReadStream.NextRead source with
        | Some buffer =>
            let! len := Decrypt_pass buffer in
            Decrypt_loop fuel' (bytesRead + len)
        | None => ret bytesRead
        end
      else ret bytesRead
  end.

(** Every pass that the source allows shortens it, so its size bounds
    the number of passes. *)
Definition Decrypt : M state bool :=
  let! _ := modify (set_m_readEnd 0) in
  let! _ := modify (set_m_readPos 0) in
  let! source := gets m_source in
  let! bytesRead := Decrypt_loop (S (ReadStream.size source)) 0 in
  ret (0 <? bytesRead).

(** [Some buffer] is the result [true] together with the view stored in
    the reference argument; [None] is the result [false]. *)
Definition NextRead : M state (option Buffer) :=
  let! avail := gets GetAvailableRead in
  let! ok := (if avail =? 0 then Decrypt else ret true) in
  if ok : bool then
    let! pos := gets m_readPos in
    let! e := gets m_readEnd in
    ret (Some {| GetData := pos; GetDataLen := e - pos |})
  else
    ret None.

Definition AdvanceRead (bytes : Z) : M state bool :=
  let! avail := gets GetAvailableRead in
  let! _ := TWN_REQUIRE (bytes <=? avail) in
  let! avail := gets GetAvailableRead in
  if bytes <=? avail then
    let! pos := gets m_readPos in
    let! _ := modify (set_m_readPos (pos + bytes)) in
    ret true
  else
    ret false.

Definition Flush : M state unit :=
  let! bytesToRead := gets GetUsedWrite in
  let! blockSize := gets m_blockSize in
  let! r := int_rem bytesToRead blockSize in
  let! _ := TWN_REQUIRE (r =? 0) in
  let! readEnd := gets m_readEnd in
  let! _ := TWN_REQUIRE (bytesToRead <=? TWN_ARRAY_SIZE - (0 - readEnd)) in
  let! enc := gets m_encrypedBuffer in
  let! cipher := checked (load enc 0 bytesToRead) in
  let! c := gets m_crypto in
  let r := crypto_Cipher c cipher in
  let! _ := modify (set_m_crypto (fst r)) in
  let! mem := gets m_buffer in
  let! mem := checked (store mem readEnd (snd r)) in
  let! _ := modify (set_m_buffer mem) in
  let written := Z.of_nat (length (snd r)) in
  let! _ :=
    (if 0 <? written then
       let! _ := modify (set_m_readEnd (readEnd + written)) in
       let! readEnd := gets m_readEnd in
       let! last := checked (load mem (readEnd - 1) 1) in
       let numPaddedBytes :=
         match last with b :: _ => uint8_val b | [] => 0 end in
       if numPaddedBytes <=? blockSize then
         modify (set_m_readEnd (readEnd - numPaddedBytes))
       else
         TWN_BUG
           "BlockDecryptionStream: Invalid number of padded bytes {0}; maximum is {1}"
     else ret tt) in
  modify (set_m_writePos 0).

(** [SetSource] replaces the pointer to the source and nothing else. *)
Definition SetSource (source : ReadStream.t) : M state unit :=
  modify (set_m_source source).

End BlockDecryptionStream.
End BlockDecryptionStream.

(** ** Clients of the chunked stream protocol

    The application side of [NextWrite]/[AdvanceWrite] and of
    [NextRead]/[AdvanceRead]: what a caller that follows the protocol
    does with the adapters. *)

Module Client.
Section Writer.
Context `{Build} `{Crypto} {W : Type} `{WriteStream W}.
Import BlockEncryptionStream.

(** Ask for the writable span, fill its first bytes with [chunk], and
    commit them.  A chunk longer than the span would be written past the
    array. *)
Definition write (chunk : list uint8_t) : M (state W) bool :=
  let! span := NextWrite in
  match span with
  | Some b =>
      let! mem := gets m_buffer in
      let! mem := checked (store mem (GetData b) chunk) in
      let! _ := modify (set_m_buffer mem) in
      AdvanceWrite (Z.of_nat (length chunk))
  | None => ret false
  end.

Fixpoint write_all (chunks : list (list uint8_t)) : M (state W) bool :=
  match chunks with
  | [] => ret true
  | chunk :: rest =>
      let! ok := write chunk in
      if ok : bool then write_all rest else ret false
  end.

(** A sequence of [AdvanceWrite] calls followed by exactly one [Flush]. *)
Definition encrypt (chunks : list (list uint8_t)) : M (state W) bool :=
  let! ok := write_all chunks in
  if ok : bool then let! _ := Flush in ret true else ret false.

End Writer.

Section Reader.
Context `{Build} `{Crypto}.
Import BlockDecryptionStream.

(** [NextRead]/[AdvanceRead] until [NextRead] fails, consuming every
    span that is returned in full; at most [fuel] requests. *)
Fixpoint drain (fuel : nat) (acc : list uint8_t) : M state (list uint8_t) :=
  match fuel with
  | O => halt OutOfFuel
  | S fuel' =>
      let! span := NextRead in
      match span with
      | Some b =>
          let! mem := gets m_buffer in
          let! data := checked (load mem (GetData b) (GetDataLen b)) in
          let! _ := AdvanceRead (GetDataLen b) in
          drain fuel' (acc ++ data)
      | None => ret acc
      end
  end.

(** Read until exhausted, then [Flush], then read what [Flush]
    released.  A request that succeeds after an empty window has pulled
    from the source, so the size of the source bounds the requests. *)
Definition decrypt : M state (list uint8_t) :=
  let! source := gets m_source in
  let! acc := drain (S (ReadStream.size source)) [] in
  let! _ := Flush in
  let! source := gets m_source in
  drain (S (S (ReadStream.size source))) acc.

End Reader.
End Client.

(** ** Concrete collaborators

    A sink that records what it is given, and a cipher with a running
    state, to run the adapters on concrete inputs. *)

(** A memory sink: every [Stream::Copy] delivers all bytes. *)
Definition memory_sink : WriteStream (list uint8_t) :=
  {| Stream_Copy := fun data w => (true, w ++ data) |}.

(** A chained additive cipher: every byte is shifted by the key and by
    the previous ciphertext byte. *)
Module ChainCipher.

Record state : Type := {
  encrypting : bool;
  key : Z;
  chain : Z;
}.

Definition new : state := {| encrypting := true; key := 0; chain := 0 |}.

Definition first_byte (l : list uint8_t) : Z :=
  match l with b :: _ => uint8_val b | [] => 0 end.

Definition Init (c : state) (algorithm : Z) (k : list uint8_t) (keySize : Z)
    (iv : list uint8_t) (ivSize : Z) (forEncryption isStreaming : bool)
  : bool * state :=
  (true, {| encrypting := forEncryption; key := first_byte k;
            chain := first_byte iv |}).

Fixpoint Cipher (c : state) (data : list uint8_t)
  : state * list uint8_t :=
  match data with
  | [] => (c, [])
  | b :: rest =>
      let out :=
        if encrypting c
        then static_cast_uint8 (uint8_val b + key c + chain c)
        else static_cast_uint8 (uint8_val b - key c - chain c) in
      let next := if encrypting c then uint8_val out else uint8_val b in
      let r := Cipher {| encrypting := encrypting c; key := key c;
                         chain := next |} rest in
      (fst r, out :: snd r)
  end.

Definition crypto : Crypto :=
  {| session := state; crypto_new := new;
     crypto_Init := Init; crypto_Cipher := Cipher |}.

End ChainCipher.

Definition fatal_build : Build := {| asserts_fatal := true |}.
Definition reporting_build : Build := {| asserts_fatal := false |}.

(** ** Notions used in the statements *)

(** The object a call ends in, whether it returns or halts. *)
Definition final {S A} (o : outcome S A) : S :=
  match o with Ret _ s => s | Halt _ s => s end.

(** [keeps f m]: the computation [m] never changes the component [f] of
    the object, whether it returns or halts. *)
Definition keeps {S A X} (f : S -> X) (m : M S A) : Prop :=
  forall s, f (final (m s)) = f s.

(** ** Contract of the cipher primitive *)

(** The transform is length-preserving on spans of whole blocks (with
    [B = 1], on every span: streaming mode). *)
Definition length_preserving `{Crypto} (B : Z) : Prop :=
  forall (c : session) (data : list uint8_t),
    Z.of_nat (length data) mod B = 0 ->
    length (snd (crypto_Cipher c data)) = length data.

(** Transforming a span of whole blocks in one call or in two gives
    the same bytes and leaves the same session. *)
Definition chunking_independent `{Crypto} (B : Z) : Prop :=
  forall (c : session) (x y : list uint8_t),
    Z.of_nat (length x) mod B = 0 -> Z.of_nat (length y) mod B = 0 ->
    crypto_Cipher c (x ++ y)
    = (fst (crypto_Cipher (fst (crypto_Cipher c x)) y),
       snd (crypto_Cipher c x)
       ++ snd (crypto_Cipher (fst (crypto_Cipher c x)) y)).

(** The session [d] decrypts what the session [e] encrypts. *)
Definition inverse_sessions `{Crypto} (B : Z) (e d : session) : Prop :=
  forall x : list uint8_t,
    Z.of_nat (length x) mod B = 0 ->
    snd (crypto_Cipher d (snd (crypto_Cipher e x))) = x.

(** The sink delivers every byte it is given; [contents] is what it has
    received. *)
Definition delivers {W : Type} `{WriteStream W} (contents : W -> list uint8_t)
  : Prop :=
  forall (data : list uint8_t) (w : W),
    fst (Stream_Copy data w) = true /\
    contents (snd (Stream_Copy data w)) = contents w ++ data.

(** The spans of a source have lengths that fit an [int]. *)
Definition spans_fit_int (src : ReadStream.t) : Prop :=
  Forall (fun span : list uint8_t => Z.of_nat (length span) < 2 ^ 31) src.

(** The caller's side of the write protocol: every chunk is at most as
    long as the span [NextWrite] offers when it is written, with
    [avail] bytes accumulated before the first. *)
Fixpoint within_spans (B avail : Z) (chunks : list (list uint8_t)) : Prop :=
  match chunks with
  | [] => True
  | chunk :: rest =>
      Z.of_nat (length chunk) <= TWN_ARRAY_SIZE - avail /\
      within_spans B ((avail + Z.of_nat (length chunk)) mod B) rest
  end.

(** What has gone through the cipher, and the session it has left,
    after the bytes [x] were transformed from the session [c] on; no
    call is made for no bytes. *)
Definition ciphered `{Crypto} (c : session) (x : list uint8_t)
  : session * list uint8_t :=
  match x with
  | [] => (c, [])
  | _ => crypto_Cipher c x
  end.

(** ** Cursor invariants *)

Module Invariant.
Section Invariant.
Context `{Crypto} {W : Type}.

(** [0 <= readPos <= readEnd <= capacity] *)
Definition DecryptionStream (s : DecryptionStream.state) : Prop :=
  Z.of_nat (length (DecryptionStream.m_buffer s)) = TWN_ARRAY_SIZE /\
  0 <= DecryptionStream.m_readPos s <= DecryptionStream.m_readEnd s /\
  DecryptionStream.m_readEnd s <= TWN_ARRAY_SIZE.

(** [0 <= writeCursor <= capacity] *)
Definition BlockEncryptionStream (s : BlockEncryptionStream.state W) : Prop :=
  Z.of_nat (length (BlockEncryptionStream.m_buffer s)) = TWN_ARRAY_SIZE /\
  Z.of_nat (length (BlockEncryptionStream.m_encrypedBuffer s)) = TWN_ARRAY_SIZE /\
  0 <= BlockEncryptionStream.m_writePos s <= TWN_ARRAY_SIZE.

(** [0 <= readPos <= readEnd <= capacity] and
    [0 <= writeCursor <= capacity]; moreover the withheld ciphertext
    fits behind read-end in the plaintext window, which is what [Flush]
    relies on. *)
Definition BlockDecryptionStream (s : BlockDecryptionStream.state) : Prop :=
  Z.of_nat (length (BlockDecryptionStream.m_buffer s)) = TWN_ARRAY_SIZE /\
  Z.of_nat (length (BlockDecryptionStream.m_encrypedBuffer s)) = TWN_ARRAY_SIZE /\
  0 <= BlockDecryptionStream.m_readPos s <= BlockDecryptionStream.m_readEnd s /\
  0 <= BlockDecryptionStream.m_writePos s /\
  BlockDecryptionStream.m_readEnd s + BlockDecryptionStream.m_writePos s
  <= TWN_ARRAY_SIZE.

End Invariant.
End Invariant.

(** [returns_with P o]: the call returned, without halting, in an
    object that satisfies [P]. *)
Definition returns_with {S A} (P : S -> Prop) (o : outcome S A) : Prop :=
  match o with Ret _ s => P s | Halt _ _ => False end.

(** [in_bounds P o]: the call made no access outside its arrays (and no
    other undefined step); it returned in an object that satisfies [P],
    or it halted in [TWN_REQUIRE] or [TWN_BUG]. *)
Definition in_bounds {S A} (P : S -> Prop) (o : outcome S A) : Prop :=
  match o with Ret _ s => P s | Halt f _ => is_fatal f end.

(** *** Padding *)

(** The length of the padding [Pad] computes for [dataLen] bytes. *)
Definition padLen (B dataLen : Z) : Z := B - dataLen mod B.

(** The bytes of a padding of length [n]. *)
Definition padding (n : Z) : list uint8_t :=
  replicate (Z.to_nat (n - 1)) x00 ++ [static_cast_uint8 n].

(** *** States of the block encryptor *)

Section EncryptorStates.
Context `{Crypto} {W : Type}.
Import BlockEncryptionStream.

(** The object after a transforming [AdvanceWrite]. *)
Definition transformed (s : state W) (w : W) (c : session)
    (mem enc : list uint8_t) (pos : Z) : state W :=
  {| m_dest := w; m_crypto := c; m_blockSize := m_blockSize s;
     m_buffer := mem; m_encrypedBuffer := enc; m_writePos := pos |}.

End EncryptorStates.

(** *** States of the block decryptor *)

Section DecryptorStates.
Context `{Crypto}.
Import BlockDecryptionStream.

(** The object after the transform of [Flush]: the session has
    advanced, the output is in the window, and read-end is [e]. *)
Definition flushed (s : state) (c : session) (mem : list uint8_t) (e : Z)
  : state :=
  {| m_source := m_source s; m_crypto := c; m_blockSize := m_blockSize s;
     m_buffer := mem; m_encrypedBuffer := m_encrypedBuffer s;
     m_readPos := m_readPos s; m_readEnd := e; m_writePos := m_writePos s |}.

(** The number of bytes a pass pulls from the span [buffer]. *)
Definition pulled (s : state) (buffer : list uint8_t) : Z :=
  Z.min (GetAvailableWrite s) (Z.of_nat (length buffer)).

(** The ciphertext held in the accumulation buffer. *)
Definition held (s : state) : list uint8_t :=
  take (Z.to_nat (m_writePos s)) (m_encrypedBuffer s).

(** The accumulation buffer once a pass has appended its bytes. *)
Definition appended (s : state) (buffer : list uint8_t) : list uint8_t :=
  take (Z.to_nat (m_writePos s)) (m_encrypedBuffer s)
  ++ take (Z.to_nat (pulled s buffer)) buffer
  ++ drop (Z.to_nat (m_writePos s)
           + length (take (Z.to_nat (pulled s buffer)) buffer))
       (m_encrypedBuffer s).

(** How many bytes a pass may transform, all whole blocks but the last. *)
Definition decryptable (used B : Z) : Z := used - used mod B - B.

(** The condition of the [while] loop, short of the request to the
    source. *)
Definition continues (s : state) : bool :=
  (0 <? GetAvailableWrite s) && (GetAvailableRead s <? m_blockSize s).

(** The invariant of the loop of [Decrypt]: the window starts at the
    front of the array and is empty until a pass transforms, which
    produces at least one block. *)
Definition in_loop (B : Z) (s : state) : Prop :=
  Invariant.BlockDecryptionStream s /\ m_blockSize s = B /\
  m_readPos s = 0 /\ (m_readEnd s = 0 \/ B <= m_readEnd s).

End DecryptorStates.

(** *** The adapters in the middle of a stream *)

Section StreamStates.
Context `{Crypto} {W : Type}.

(** The encryptor after the plaintext [P] has been written, from the
    session [e0] and the sink [w0] on: the first [a] bytes, whole
    blocks, have gone through the cipher and to the sink, and the rest
    waits at the front of the buffer. *)
Definition written (B : Z) (contents : W -> list uint8_t) (e0 : session)
    (w0 : W) (P : list uint8_t) (s : BlockEncryptionStream.state W) : Prop :=
  Invariant.BlockEncryptionStream s /\ BlockEncryptionStream.m_blockSize s = B /\
  exists a : nat,
    (a <= length P)%nat /\ Z.of_nat a mod B = 0 /\
    BlockEncryptionStream.m_writePos s = Z.of_nat (length P - a) /\
    BlockEncryptionStream.m_writePos s < B /\
    take (length P - a) (BlockEncryptionStream.m_buffer s) = drop a P /\
    BlockEncryptionStream.m_crypto s = fst (ciphered e0 (take a P)) /\
    contents (BlockEncryptionStream.m_dest s)
    = contents w0 ++ snd (ciphered e0 (take a P)).

(** The decryptor in the middle of the ciphertext [ct], from the
    session [d0] on: the first [t] bytes, whole blocks, have been
    transformed, the bytes behind them are held in the accumulation
    buffer or still in the source, and at least one block remains. *)
Definition reading (B : Z) (d0 : session) (ct : list uint8_t) (t : nat)
    (s : BlockDecryptionStream.state) : Prop :=
  Invariant.BlockDecryptionStream s /\ BlockDecryptionStream.m_blockSize s = B /\
  Z.of_nat t mod B = 0 /\ Z.of_nat t + B <= Z.of_nat (length ct) /\
  BlockDecryptionStream.m_writePos s < 2 * B /\
  held s ++ ReadStream.pending (BlockDecryptionStream.m_source s) = drop t ct /\
  BlockDecryptionStream.m_crypto s = fst (ciphered d0 (take t ct)).

(** The decryptor inside a call of [Decrypt] that started with [t]
    bytes transformed and [p0] bytes in the source: the window holds
    what the call has produced, and it has produced nothing unless it
    pulled from the source. *)
Definition decrypting (B : Z) (d0 : session) (ct : list uint8_t) (t p0 : nat)
    (s : BlockDecryptionStream.state) : Prop :=
  in_loop B s /\
  (length (ReadStream.pending (BlockDecryptionStream.m_source s)) <= p0)%nat /\
  (BlockDecryptionStream.m_readEnd s = 0 \/
   (length (ReadStream.pending (BlockDecryptionStream.m_source s)) < p0)%nat) /\
  exists t' : nat,
    reading B d0 ct t' s /\
    Z.of_nat t' = Z.of_nat t + BlockDecryptionStream.m_readEnd s /\
    snd (ciphered d0 (take t' ct))
    = snd (ciphered d0 (take t ct))
      ++ take (Z.to_nat (BlockDecryptionStream.m_readEnd s))
           (BlockDecryptionStream.m_buffer s).

End StreamStates.

(** *** Concrete adapters *)

Section ConcreteStates.
#[local] Existing Instance ChainCipher.crypto.
#[local] Existing Instance memory_sink.

(** A block decryptor over [source], initialised with a key of
    [keySize] bytes; its arrays hold zeroes. *)
Definition decryptor (keySize : Z) (source : ReadStream.t)
  : BlockDecryptionStream.state :=
  final (BlockDecryptionStream.Init 0 [] keySize [] 0
           (BlockDecryptionStream.new source
              (replicate 4096 x00) (replicate 4096 x00))).

(** A block encryptor into an empty memory sink; its arrays hold
    [xff]. *)
Definition encryptor (keySize : Z)
  : BlockEncryptionStream.state (list uint8_t) :=
  final (BlockEncryptionStream.Init 0 [] keySize [] 0
           (BlockEncryptionStream.new [] (replicate 4096 xff)
              (replicate 4096 xff))).

(** The same pair with the key byte 42 and the initialisation vector
    byte 7, for 16-byte blocks. *)
Definition keyed_encryptor : BlockEncryptionStream.state (list uint8_t) :=
  final (BlockEncryptionStream.Init 0 [x2a] 16 [x07] 1
           (BlockEncryptionStream.new [] (replicate 4096 xff)
              (replicate 4096 xff))).

Definition keyed_decryptor (source : ReadStream.t)
  : BlockDecryptionStream.state :=
  final (BlockDecryptionStream.Init 0 [x2a] 16 [x07] 1
           (BlockDecryptionStream.new source
              (replicate 4096 x00) (replicate 4096 x00))).

(** Twenty bytes of plaintext. *)
Definition twenty_bytes : list uint8_t :=
  [x54; x68; x65; x20; x71; x75; x69; x63; x6b; x20;
   x62; x72; x6f; x77; x6e; x20; x66; x6f; x78; x2e].

End ConcreteStates.

(** *** The block decryptor while it only gathers ciphertext *)

Section GatheringStates.
Context `{Crypto}.
Import BlockDecryptionStream.

(** The decryptor with an empty window at the front of the array, and
    so little ciphertext within reach (held, or pending in the source,
    or that the buffer can take) that no pass of [Decrypt] can
    transform: fewer than two blocks. *)
Definition gathering (B : Z) (s : state) : Prop :=
  Invariant.BlockDecryptionStream s /\ m_blockSize s = B /\
  m_readPos s = 0 /\ m_readEnd s = 0 /\
  Z.min TWN_ARRAY_SIZE
    (m_writePos s + Z.of_nat (length (ReadStream.pending (m_source s))))
  < 2 * B.

End GatheringStates.

(** ** EncryptionStream (stream cipher, writing side) *)

(** Modelled from the spec: the sink of [EncryptionStream], a
    [WriteStream] of [Stream.h] (not part of the sources) used through
    its own protocol.  [NextWrite] stores a view of the sink's memory in
    the [Buffer] it is given and returns whether there is room;
    [AdvanceWrite n] commits [n] bytes of that view.  The memory the
    views point into is [dest_memory]; [GetData] of a view is an offset
    in it. *)
Class SpanWriteStream (D : Type) : Type := {
  dest_NextWrite : Buffer -> D -> bool * Buffer * D;
  dest_AdvanceWrite : Z -> D -> bool * D;
  dest_memory : D -> list uint8_t;
  set_dest_memory : list uint8_t -> D -> D;
}.

Module EncryptionStream.
Section EncryptionStream.
Context `{Crypto} {D : Type} `{SpanWriteStream D}.

Record state : Type := {
  m_lastBuffer : Buffer;
  m_dest : D;
  m_crypto : session;
}.

Definition set_m_lastBuffer (v : Buffer) (s : state) : state :=
  {| m_lastBuffer := v; m_dest := m_dest s; m_crypto := m_crypto s |}.
Definition set_m_dest (v : D) (s : state) : state :=
  {| m_lastBuffer := m_lastBuffer s; m_dest := v; m_crypto := m_crypto s |}.
Definition set_m_crypto (v : session) (s : state) : state :=
  {| m_lastBuffer := m_lastBuffer s; m_dest := m_dest s; m_crypto := v |}.

(** The constructor default-constructs [m_lastBuffer] ([Buffer.h] is
    not part of the sources); [lastBuffer] is that value. *)
Definition new (dest : D) (lastBuffer : Buffer) : state :=
  {| m_lastBuffer := lastBuffer; m_dest := dest; m_crypto := crypto_new |}.

Definition Init (algorithm : Z) (key : list uint8_t) (keySize : Z)
    (iv : list uint8_t) (ivSize : Z) : M state bool :=
  let! c := gets m_crypto in
  let r := crypto_Init c algorithm key keySize iv ivSize true true in
  let! _ := modify (set_m_crypto (snd r)) in
  ret (fst r).

(** The result is the [bool] the function returns together with the
    view stored in the reference argument, which is set whatever the
    sink answers. *)
Definition NextWrite : M state (bool * Buffer) :=
  let! dest := gets m_dest in
  let! last := gets m_lastBuffer in
  let r := dest_NextWrite last dest in
  let! _ := modify (set_m_lastBuffer (snd (fst r))) in
  let! _ := modify (set_m_dest (snd r)) in
  let result := fst (fst r) in
  let! last := gets m_lastBuffer in
  ret (result, {| GetData := GetData last; GetDataLen := GetDataLen last |}).

(** The cipher works in place on the sink's memory, from the start of
    the view [NextWrite] stored last. *)
Definition AdvanceWrite (bytes : Z) : M state bool :=
  let! last := gets m_lastBuffer in
  let! dest := gets m_dest in
  let! plain := checked (load (dest_memory dest) (GetData last) bytes) in
  let! c := gets m_crypto in
  let r := crypto_Cipher c plain in
  let! _ := modify (set_m_crypto (fst r)) in
  let! mem := checked (store (dest_memory dest) (GetData last) (snd r)) in
  let! _ := modify (set_m_dest (set_dest_memory mem dest)) in
  let written := Z.of_nat (length (snd r)) in
  let! dest := gets m_dest in
  let a := dest_AdvanceWrite (static_cast_int written) dest in
  let! _ := modify (set_m_dest (snd a)) in
  ret (fst a).

End EncryptionStream.
Arguments state {_} D.
End EncryptionStream.

(** ** Clients of the streaming pair *)

Module StreamClient.
Section Writer.
Context `{Crypto} {D : Type} `{SpanWriteStream D}.
Import EncryptionStream.

(** Ask for a span, and if the sink has room for the whole chunk, put
    the chunk at the start of the span and commit it. *)
Definition write (chunk : list uint8_t) : M (state D) bool :=
  let! span := NextWrite in
  if fst span && (Z.of_nat (length chunk) <=? GetDataLen (snd span)) then
    let! dest := gets m_dest in
    let! mem := checked (store (dest_memory dest) (GetData (snd span)) chunk) in
    let! _ := modify (set_m_dest (set_dest_memory mem dest)) in
    AdvanceWrite (Z.of_nat (length chunk))
  else ret false.

Fixpoint write_all (chunks : list (list uint8_t)) : M (state D) bool :=
  match chunks with
  | [] => ret true
  | chunk :: rest =>
      let! ok := write chunk in
      if ok : bool then write_all rest else ret false
  end.

End Writer.

Section Reader.
Context `{Build} `{Crypto}.
Import DecryptionStream.

(** [NextRead]/[AdvanceRead] until [NextRead] fails, consuming every
    span that is returned in full; at most [fuel] requests. *)
Fixpoint drain (fuel : nat) (acc : list uint8_t) : M state (list uint8_t) :=
  match fuel with
  | O => halt OutOfFuel
  | S fuel' =>
      let! span := NextRead in
      match span with
      | Some b =>
          let! mem := gets m_buffer in
          let! data := checked (load mem (GetData b) (GetDataLen b)) in
          let! _ := AdvanceRead (GetDataLen b) in
          drain fuel' (acc ++ data)
      | None => ret acc
      end
  end.

(** Every request that succeeds has pulled from the source, so the
    size of the source bounds the requests. *)
Definition read_all : M state (list uint8_t) :=
  let! source := gets m_source in
  drain (S (ReadStream.size source)) [].

(** Read one source to its end, switch to the next, and go on. *)
Definition read_both (next : ReadStream.t) : M state (list uint8_t) :=
  let! acc := read_all in
  let! _ := SetSource next in
  drain (S (ReadStream.size next)) acc.

End Reader.
End StreamClient.

(** A sink over a fixed array that is filled from the front: the view
    it hands out is the room behind the bytes committed so far. *)
Record FixedSink : Type := { sink_memory : list uint8_t; sink_pos : nat }.

Definition fixed_sink : SpanWriteStream FixedSink :=
  {| dest_NextWrite := fun last d =>
       let room := Z.of_nat (length (sink_memory d)) - Z.of_nat (sink_pos d) in
       if 0 <? room
       then (true, {| GetData := Z.of_nat (sink_pos d); GetDataLen := room |}, d)
       else (false, last, d);
     dest_AdvanceWrite := fun n d =>
       if (0 <=? n)
          && (Z.of_nat (sink_pos d) + n <=? Z.of_nat (length (sink_memory d)))
       then (true, {| sink_memory := sink_memory d;
                      sink_pos := (sink_pos d + Z.to_nat n)%nat |})
       else (false, d);
     dest_memory := sink_memory;
     set_dest_memory := fun mem d =>
       {| sink_memory := mem; sink_pos := sink_pos d |} |}.

(** What a fixed sink has received. *)
Definition sink_contents (d : FixedSink) : list uint8_t :=
  take (sink_pos d) (sink_memory d).

(** *** Contract of the cipher in streaming mode *)

(** A call on no bytes yields no bytes and leaves the session as it
    was. *)
Definition transforms_nothing `{Crypto} : Prop :=
  forall c : session, crypto_Cipher c [] = (c, []).

(** *** Contract of a sink that hands out spans *)

(** [contents] is what the sink has received.  A view it hands out lies
    in its memory; writing bytes at the start of the view and
    committing them appends them to the contents; and only the last
    write to the memory counts. *)
Definition accepts {D : Type} `{SpanWriteStream D}
    (contents : D -> list uint8_t) : Prop :=
  (forall mem d, dest_memory (set_dest_memory mem d) = mem) /\
  (forall mem mem' d,
     set_dest_memory mem' (set_dest_memory mem d) = set_dest_memory mem' d) /\
  (forall last d,
     let r := dest_NextWrite last d in
     fst (fst r) = true ->
     0 <= GetData (snd (fst r)) /\ 0 <= GetDataLen (snd (fst r)) /\
     GetData (snd (fst r)) + GetDataLen (snd (fst r))
     <= Z.of_nat (length (dest_memory (snd r))) /\
     forall data mem,
       Z.of_nat (length data) <= GetDataLen (snd (fst r)) ->
       store (dest_memory (snd r)) (GetData (snd (fst r))) data = Some mem ->
       let a := dest_AdvanceWrite (Z.of_nat (length data))
                  (set_dest_memory mem (snd r)) in
       fst a = true /\ contents (snd a) = contents d ++ data).

(** ** A ciphertext that arrives from two sources *)

Module SourceSwitch.
Section SourceSwitch.
Context `{Build} `{Crypto}.
Import BlockDecryptionStream.

(** Read one source to its end, switch to the next with [SetSource],
    read that to its end, then [Flush] and read what it released. *)
Definition decrypt (next : ReadStream.t) : M state (list uint8_t) :=
  let! source := gets m_source in
  let! acc := Client.drain (S (ReadStream.size source)) [] in
  let! _ := SetSource next in
  let! acc := Client.drain (S (ReadStream.size next)) acc in
  let! _ := Flush in
  let! source := gets m_source in
  Client.drain (S (S (ReadStream.size source))) acc.

End SourceSwitch.
End SourceSwitch.

(** *** More concrete collaborators and adapters *)

(** A sink that refuses everything it is given. *)
Definition closed_sink : WriteStream unit :=
  {| Stream_Copy := fun _ w => (false, w) |}.

Section ConcreteStreams.
#[local] Existing Instance ChainCipher.crypto.
#[local] Existing Instance fixed_sink.

(** A block encryptor for 16-byte blocks into the closed sink. *)
Definition refused_encryptor : BlockEncryptionStream.state unit :=
  final (BlockEncryptionStream.Init 0 [x2a] 16 [x07] 1
           (BlockEncryptionStream.new tt (replicate 4096 xff)
              (replicate 4096 xff))).

(** A streaming encryptor into a fixed sink of 64 bytes, and a
    streaming decryptor over [source], with the key byte 42 and the
    initialisation vector byte 7. *)
Definition stream_encryptor : EncryptionStream.state FixedSink :=
  final (EncryptionStream.Init 0 [x2a] 16 [x07] 1
           (EncryptionStream.new
              {| sink_memory := replicate 64 x00; sink_pos := 0 |}
              {| GetData := 0; GetDataLen := 0 |})).

Definition stream_decryptor (source : ReadStream.t)
  : DecryptionStream.state :=
  final (DecryptionStream.Init 0 [x2a] 16 [x07] 1
           (DecryptionStream.new source (replicate 4096 x00))).

(** The ciphertext of the twenty bytes, padded to two blocks. *)
Definition two_blocks : list uint8_t :=
  snd (ChainCipher.Cipher
         {| ChainCipher.encrypting := true; ChainCipher.key := 42;
            ChainCipher.chain := 7 |}
         (twenty_bytes ++ padding 12)).

End ConcreteStreams.
(** * Properties *)

(** ** Bytes *)

Lemma uint8_val_range (b : uint8_t) : 0 <= uint8_val b < 256.
Proof.
  unfold uint8_val. pose proof (Byte.to_N_bounded b). lia.
Qed.

Lemma uint8_val_cast (z : Z) : uint8_val (static_cast_uint8 z) = z mod 256.
Proof.
  unfold uint8_val, static_cast_uint8.
  pose proof (Z.mod_pos_bound z 256 ltac:(lia)) as Hz.
  destruct (Byte.of_N (Z.to_N (z mod 256))) as [b|] eqn:E.
  - apply Byte.to_of_N in E. rewrite E. lia.
  - apply Byte.of_N_None_iff in E. lia.
Qed.

Lemma cast_uint8_val (b : uint8_t) : static_cast_uint8 (uint8_val b) = b.
Proof.
  unfold static_cast_uint8.
  rewrite Z.mod_small by apply uint8_val_range.
  unfold uint8_val. rewrite N2Z.id, Byte.of_to_N. reflexivity.
Qed.

Lemma static_cast_int_small (z : Z) :
  - 2 ^ 31 <= z < 2 ^ 31 -> static_cast_int z = z.
Proof.
  intros Hz. unfold static_cast_int. rewrite Z.mod_small; lia.
Qed.

(** ** Fixed arrays *)

Lemma in_array_true (buf : list uint8_t) (off len : Z) :
  in_array buf off len = true <->
  0 <= off /\ 0 <= len /\ off + len <= Z.of_nat (length buf).
Proof. unfold in_array. rewrite !andb_true_iff, !Z.leb_le. tauto. Qed.

Lemma load_Some (buf : list uint8_t) (off len : Z) :
  0 <= off -> 0 <= len -> off + len <= Z.of_nat (length buf) ->
  load buf off len = Some (take (Z.to_nat len) (drop (Z.to_nat off) buf)).
Proof.
  intros. unfold load.
  rewrite (proj2 (in_array_true buf off len)); auto.
Qed.

Lemma load_inv (buf : list uint8_t) (off len : Z) (data : list uint8_t) :
  load buf off len = Some data ->
  0 <= off /\ 0 <= len /\ off + len <= Z.of_nat (length buf) /\
  data = take (Z.to_nat len) (drop (Z.to_nat off) buf).
Proof.
  unfold load. destruct (in_array buf off len) eqn:E; [|discriminate].
  apply in_array_true in E. intros [= <-]. tauto.
Qed.

Lemma load_length (buf : list uint8_t) (off len : Z) (data : list uint8_t) :
  load buf off len = Some data -> Z.of_nat (length data) = len.
Proof.
  intros (? & ? & ? & ->)%load_inv.
  rewrite length_take, length_drop. lia.
Qed.

Lemma load_prefix (buf : list uint8_t) (len : Z) :
  0 <= len <= Z.of_nat (length buf) ->
  load buf 0 len = Some (take (Z.to_nat len) buf).
Proof. intros. rewrite load_Some by lia. reflexivity. Qed.

Lemma store_Some (buf : list uint8_t) (off : Z) (data : list uint8_t) :
  0 <= off -> off + Z.of_nat (length data) <= Z.of_nat (length buf) ->
  store buf off data =
  Some (take (Z.to_nat off) buf ++ data
        ++ drop (Z.to_nat off + length data) buf).
Proof.
  intros. unfold store.
  rewrite (proj2 (in_array_true buf off _)); auto. lia.
Qed.

Lemma store_inv (buf : list uint8_t) (off : Z) (data buf' : list uint8_t) :
  store buf off data = Some buf' ->
  0 <= off /\ off + Z.of_nat (length data) <= Z.of_nat (length buf) /\
  buf' = take (Z.to_nat off) buf ++ data
         ++ drop (Z.to_nat off + length data) buf.
Proof.
  unfold store. destruct (in_array _ _ _) eqn:E; [|discriminate].
  apply in_array_true in E. intros [= <-]. tauto.
Qed.

Lemma store_length (buf : list uint8_t) (off : Z) (data buf' : list uint8_t) :
  store buf off data = Some buf' -> length buf' = length buf.
Proof.
  intros (? & ? & ->)%store_inv.
  rewrite !length_app, length_take, length_drop. lia.
Qed.

(** What an array holds at a range after a store at that range. *)
Lemma load_store_same (buf : list uint8_t) (off : Z) (data buf' : list uint8_t) :
  store buf off data = Some buf' ->
  load buf' off (Z.of_nat (length data)) = Some data.
Proof.
  intros Hs. pose proof (store_length _ _ _ _ Hs) as Hl.
  apply store_inv in Hs as (? & ? & ->).
  rewrite load_Some by lia. f_equal.
  rewrite drop_app_length' by (rewrite length_take; lia).
  rewrite Nat2Z.id. apply take_app_length.
Qed.

(** The bytes in front of a store are untouched. *)
Lemma take_store_before (buf : list uint8_t) (off : Z) (data buf' : list uint8_t)
    (n : nat) :
  store buf off data = Some buf' -> (n <= Z.to_nat off)%nat ->
  take n buf' = take n buf.
Proof.
  intros (? & ? & ->)%store_inv Hn.
  rewrite take_app_le by (rewrite length_take; lia).
  rewrite take_take. f_equal. lia.
Qed.

(** A store at the end of a known prefix extends the prefix. *)
Lemma take_store_append (buf : list uint8_t) (off : Z) (data buf' : list uint8_t) :
  store buf off data = Some buf' ->
  take (Z.to_nat off + length data) buf' = take (Z.to_nat off) buf ++ data.
Proof.
  intros (? & ? & ->)%store_inv.
  rewrite take_app_add' by (rewrite length_take; lia).
  rewrite take_app_length. reflexivity.
Qed.

Lemma drop_store_after (buf : list uint8_t) (off : Z) (data buf' : list uint8_t)
    (n : nat) :
  store buf off data = Some buf' -> (Z.to_nat off + length data <= n)%nat ->
  drop n buf' = drop n buf.
Proof.
  intros (? & ? & ->)%store_inv Hn.
  rewrite drop_app_ge by (rewrite length_take; lia).
  rewrite drop_app_ge by (rewrite length_take; lia).
  rewrite drop_drop. f_equal. rewrite length_take. lia.
Qed.

Lemma store_store_adjacent (buf : list uint8_t) (off : Z)
    (d1 d2 buf1 : list uint8_t) :
  store buf off d1 = Some buf1 ->
  store buf1 (off + Z.of_nat (length d1)) d2 = store buf off (d1 ++ d2).
Proof.
  intros Hs. pose proof (store_length _ _ _ _ Hs) as Hl.
  pose proof (take_store_append _ _ _ _ Hs) as Ht.
  apply store_inv in Hs as (H0 & H1 & Hb).
  unfold store. unfold in_array. rewrite Hl, length_app.
  replace (off + Z.of_nat (length d1) + Z.of_nat (length d2))
    with (off + Z.of_nat (length d1 + length d2)) by lia.
  replace (0 <=? off + Z.of_nat (length d1)) with (0 <=? off)
    by (apply eq_true_iff_eq; rewrite !Z.leb_le; lia).
  replace (0 <=? Z.of_nat (length d2)) with true by (symmetry; apply Z.leb_le; lia).
  replace (0 <=? Z.of_nat (length d1 + length d2)) with true
    by (symmetry; apply Z.leb_le; lia).
  destruct (_ && _ && _); [|reflexivity]. f_equal.
  replace (Z.to_nat (off + Z.of_nat (length d1)))
    with (Z.to_nat off + length d1)%nat by lia.
  rewrite Ht, <- !app_assoc. do 2 f_equal.
  f_equal. subst buf1.
  rewrite drop_app_ge by (rewrite length_take; lia).
  rewrite drop_app_ge by (rewrite length_take; lia).
  rewrite drop_drop. f_equal. rewrite length_take. lia.
Qed.

(** ** Running the monad *)

Ltac run_monad :=
  unfold bind, ret, gets, modify, halt, checked, TWN_REQUIRE, TWN_BUG,
    int_rem; simpl.

Lemma rem_block (a b : Z) : 0 <= a -> 0 < b -> Z.rem a b = a mod b.
Proof. intros. apply Z.rem_mod_nonneg; lia. Qed.

(** ** BlockEncryptionStream::Pad *)

Section PadFacts.
Context `{Build} `{Crypto} {W : Type} `{WriteStream W}.
Import BlockEncryptionStream.

Lemma fill_zero_store (n : nat) : forall (p : Z) (mem mem' : list uint8_t),
  store mem p (replicate n x00) = Some mem' ->
  fill_zero n p mem = Some (p + Z.of_nat n, mem').
Proof.
  induction n as [|n IH]; intros p mem mem' Hs.
  - apply store_inv in Hs as (? & ? & ->). simpl.
    rewrite Nat.add_0_r, take_drop, Z.add_0_r. reflexivity.
  - change (replicate (S n) x00) with ([x00] ++ replicate n x00) in Hs.
    pose proof Hs as (Hlo & Hhi & _)%store_inv.
    rewrite length_app in Hhi. simpl in Hhi.
    destruct (store mem p [x00]) as [mem1|] eqn:E1.
    2:{ rewrite store_Some in E1 by (simpl; lia). discriminate. }
    simpl. rewrite E1.
    rewrite <- (store_store_adjacent _ _ _ _ _ E1) in Hs.
    change (Z.of_nat (length [x00])) with 1 in Hs.
    rewrite (IH _ _ _ Hs). do 2 f_equal. lia.
Qed.

Lemma padLen_range (B dataLen : Z) :
  0 < B -> 1 <= padLen B dataLen <= B.
Proof.
  intros HB. unfold padLen.
  pose proof (Z.mod_pos_bound dataLen B HB). lia.
Qed.

Lemma padLen_aligned (B dataLen : Z) :
  0 < B -> (dataLen + padLen B dataLen) mod B = 0.
Proof.
  intros HB. unfold padLen.
  replace (dataLen + (B - dataLen mod B))
    with (dataLen - dataLen mod B + 1 * B) by lia.
  rewrite Z.mod_add by lia.
  rewrite Zminus_mod_idemp_r, Z.sub_diag. apply Z.mod_0_l. lia.
Qed.

Lemma padding_length (n : Z) : 1 <= n -> Z.of_nat (length (padding n)) = n.
Proof.
  intros. unfold padding. rewrite length_app, length_replicate. simpl. lia.
Qed.

Lemma Pad_fits (s : state W) (bufferLen dataLen : Z) (mem' : list uint8_t) :
  0 < m_blockSize s -> 0 <= dataLen ->
  dataLen + padLen (m_blockSize s) dataLen < bufferLen ->
  store (m_buffer s) dataLen (padding (padLen (m_blockSize s) dataLen))
    = Some mem' ->
  Pad 0 bufferLen dataLen s
    = Ret (padLen (m_blockSize s) dataLen) (set_m_buffer mem' s).
Proof.
  intros HB Hd Hfit Hs. unfold Pad. run_monad.
  destruct (Z.eqb_spec (m_blockSize s) 0) as [?|_]; [lia|]. run_monad.
  rewrite rem_block by lia. fold (padLen (m_blockSize s) dataLen).
  rewrite (proj2 (Z.ltb_lt _ _) Hfit).
  unfold padding in Hs.
  pose proof Hs as (Hlo & Hhi & _)%store_inv.
  rewrite length_app, length_replicate in Hhi. simpl in Hhi.
  destruct (store (m_buffer s) dataLen
              (replicate (Z.to_nat (padLen (m_blockSize s) dataLen - 1)) x00))
    as [mem1|] eqn:E1.
  2:{ rewrite store_Some in E1 by (rewrite ?length_replicate; lia).
      discriminate. }
  rewrite Z.add_0_l, (fill_zero_store _ _ _ _ E1). simpl.
  rewrite <- (store_store_adjacent _ _ _ _ _ E1) in Hs.
  rewrite length_replicate in Hs. rewrite Hs. reflexivity.
Qed.

Lemma Pad_does_not_fit (s : state W) (bufferLen dataLen : Z) :
  0 < m_blockSize s -> 0 <= dataLen ->
  bufferLen <= dataLen + padLen (m_blockSize s) dataLen ->
  Pad 0 bufferLen dataLen s
    = Halt (Bug "BlockEncryptionStream: Padding failed due to insufficient buffer space") s.
Proof.
  intros HB Hd Hfit. unfold Pad. run_monad.
  destruct (Z.eqb_spec (m_blockSize s) 0) as [?|_]; [lia|]. run_monad.
  rewrite rem_block by lia. fold (padLen (m_blockSize s) dataLen).
  rewrite (proj2 (Z.ltb_ge _ _) Hfit). reflexivity.
Qed.

End PadFacts.

(** ** What a member function leaves untouched *)

Section Keeps.
Context {S X : Type} (f : S -> X).

Lemma keeps_ret {A} (a : A) : keeps f (ret a).
Proof. intros s. reflexivity. Qed.

Lemma keeps_halt {A} (e : fault) : keeps f (halt (A:=A) e).
Proof. intros s. reflexivity. Qed.

Lemma keeps_gets {A} (g : S -> A) : keeps f (gets g).
Proof. intros s. reflexivity. Qed.

Lemma keeps_checked {A} (o : option A) : keeps f (checked o).
Proof. destruct o; intros s; reflexivity. Qed.

Lemma keeps_modify (g : S -> S) : (forall s, f (g s) = f s) -> keeps f (modify g).
Proof. intros Hg s. apply Hg. Qed.

Lemma keeps_bind {A B} (m : M S A) (k : A -> M S B) :
  keeps f m -> (forall a, keeps f (k a)) -> keeps f (bind m k).
Proof.
  intros Hm Hk s. unfold bind. specialize (Hm s).
  destruct (m s) as [a s'|e s']; simpl in *; [|assumption].
  rewrite Hk. assumption.
Qed.

Lemma keeps_TWN_REQUIRE `{Build} (c : bool) : keeps f (TWN_REQUIRE c).
Proof.
  unfold TWN_REQUIRE. destruct c; [apply keeps_ret|].
  destruct asserts_fatal; [apply keeps_halt | apply keeps_ret].
Qed.

Lemma keeps_TWN_BUG (msg : string) : keeps f (TWN_BUG msg).
Proof. apply keeps_halt. Qed.

Lemma keeps_int_rem (a b : Z) : keeps f (int_rem a b).
Proof.
  unfold int_rem. destruct (b =? 0); [apply keeps_halt | apply keeps_ret].
Qed.

End Keeps.

Ltac keeps_step :=
  first
    [ apply keeps_ret | apply keeps_halt | apply keeps_gets
    | apply keeps_checked | apply keeps_TWN_REQUIRE | apply keeps_TWN_BUG
    | apply keeps_int_rem
    | apply keeps_modify; intros []; reflexivity
    | apply keeps_bind; [|intros ?]
    | match goal with
      | |- keeps _ (if ?c then _ else _) => destruct c
      | |- keeps _ (match ?o with Some _ => _ | None => _ end) => destruct o
      | |- keeps _ (let r := _ in _) => cbv zeta
      end ].

Section BlockSizeKept.
Context `{Build} `{Crypto} {W : Type} `{WriteStream W}.

Lemma enc_AdvanceWrite_keeps (n : Z) :
  keeps BlockEncryptionStream.m_blockSize
    (BlockEncryptionStream.AdvanceWrite (W:=W) n).
Proof.
  unfold BlockEncryptionStream.AdvanceWrite, BlockEncryptionStream.memcpy.
  repeat keeps_step.
Qed.

Lemma enc_Pad_keeps (b l d : Z) :
  keeps BlockEncryptionStream.m_blockSize (BlockEncryptionStream.Pad (W:=W) b l d).
Proof. unfold BlockEncryptionStream.Pad. repeat keeps_step. Qed.

Lemma enc_Flush_keeps :
  keeps BlockEncryptionStream.m_blockSize (BlockEncryptionStream.Flush (W:=W)).
Proof.
  unfold BlockEncryptionStream.Flush.
  repeat first [ apply enc_Pad_keeps | apply enc_AdvanceWrite_keeps | keeps_step ].
Qed.

Lemma enc_NextWrite_keeps :
  keeps BlockEncryptionStream.m_blockSize (BlockEncryptionStream.NextWrite (W:=W)).
Proof. unfold BlockEncryptionStream.NextWrite. repeat keeps_step. Qed.

Lemma dec_Decrypt_pass_keeps (buffer : list uint8_t) :
  keeps BlockDecryptionStream.m_blockSize
    (BlockDecryptionStream.Decrypt_pass buffer).
Proof. unfold BlockDecryptionStream.Decrypt_pass. repeat keeps_step. Qed.

Lemma dec_Decrypt_loop_keeps (fuel : nat) : forall bytesRead,
  keeps BlockDecryptionStream.m_blockSize
    (BlockDecryptionStream.Decrypt_loop fuel bytesRead).
Proof.
  induction fuel as [|fuel IH]; intros bytesRead; simpl.
  - apply keeps_halt.
  - repeat first [ apply dec_Decrypt_pass_keeps | apply IH | keeps_step ].
Qed.

Lemma dec_Decrypt_keeps :
  keeps BlockDecryptionStream.m_blockSize BlockDecryptionStream.Decrypt.
Proof.
  unfold BlockDecryptionStream.Decrypt.
  repeat first [ apply dec_Decrypt_loop_keeps | keeps_step ].
Qed.

Lemma dec_NextRead_keeps :
  keeps BlockDecryptionStream.m_blockSize BlockDecryptionStream.NextRead.
Proof.
  unfold BlockDecryptionStream.NextRead.
  repeat first [ apply dec_Decrypt_keeps | keeps_step ].
Qed.

Lemma dec_AdvanceRead_keeps (n : Z) :
  keeps BlockDecryptionStream.m_blockSize (BlockDecryptionStream.AdvanceRead n).
Proof. unfold BlockDecryptionStream.AdvanceRead. repeat keeps_step. Qed.

Lemma dec_Flush_keeps :
  keeps BlockDecryptionStream.m_blockSize BlockDecryptionStream.Flush.
Proof. unfold BlockDecryptionStream.Flush. repeat keeps_step. Qed.

End BlockSizeKept.

(** ** BlockDecryptionStream::Flush *)

Lemma load_last_of_store (buf : list uint8_t) (off : Z)
    (data buf' : list uint8_t) (b : uint8_t) :
  store buf off data = Some buf' -> last data = Some b ->
  load buf' (off + Z.of_nat (length data) - 1) 1 = Some [b].
Proof.
  intros Hs Hl. apply last_Some in Hl as [d' ->].
  pose proof (store_length _ _ _ _ Hs) as Hlen.
  apply store_inv in Hs as (Hlo & Hhi & ->).
  rewrite length_app in *. simpl in *.
  rewrite load_Some by (rewrite ?length_app, ?length_take, ?length_drop in *; simpl in *; lia).
  f_equal.
  replace (Z.to_nat (off + Z.of_nat (length d' + 1) - 1))
    with (Z.to_nat off + length d')%nat by lia.
  rewrite drop_app_add' by (rewrite length_take; lia).
  rewrite <- app_assoc, drop_app_length. reflexivity.
Qed.

Section DecryptFlush.
Context `{Build} `{Crypto}.
Import BlockDecryptionStream.

Lemma Flush_run (s : state) (c : session) (out mem : list uint8_t)
    (b : uint8_t) :
  0 < m_blockSize s ->
  0 <= m_writePos s <= Z.of_nat (length (m_encrypedBuffer s)) ->
  m_writePos s <= TWN_ARRAY_SIZE ->
  m_writePos s mod m_blockSize s = 0 ->
  0 <= m_readEnd s ->
  crypto_Cipher (m_crypto s)
    (take (Z.to_nat (m_writePos s)) (m_encrypedBuffer s)) = (c, out) ->
  store (m_buffer s) (m_readEnd s) out = Some mem ->
  last out = Some b ->
  Flush s =
    let e := m_readEnd s + Z.of_nat (length out) in
    if uint8_val b <=? m_blockSize s
    then Ret tt (set_m_writePos 0 (flushed s c mem (e - uint8_val b)))
    else Halt (Bug "BlockDecryptionStream: Invalid number of padded bytes {0}; maximum is {1}")
              (flushed s c mem e).
Proof.
  intros HB Hw Hcap Hal He Hc Hs Hl.
  unfold Flush, GetUsedWrite. run_monad.
  destruct (Z.eqb_spec (m_blockSize s) 0) as [?|_]; [lia|]. run_monad.
  rewrite Z.sub_0_r, rem_block, Hal by lia. simpl.
  replace (m_writePos s <=? TWN_ARRAY_SIZE - (0 - m_readEnd s)) with true
    by (symmetry; apply Z.leb_le; lia).
  simpl. rewrite load_prefix by lia. simpl. rewrite Hc. simpl.
  rewrite Hs. simpl.
  assert (0 < Z.of_nat (length out)) as Hpos.
  { apply last_Some in Hl as [d' ->]. rewrite length_app. simpl. lia. }
  rewrite (proj2 (Z.ltb_lt _ _) Hpos). simpl.
  rewrite (load_last_of_store _ _ _ _ _ Hs Hl). simpl.
  destruct (uint8_val b <=? m_blockSize s); reflexivity.
Qed.

(** Nothing was produced: [Flush] only empties the ciphertext buffer. *)
Lemma Flush_nothing (s : state) (c : session) (mem : list uint8_t) :
  0 < m_blockSize s ->
  0 <= m_writePos s <= Z.of_nat (length (m_encrypedBuffer s)) ->
  (asserts_fatal = true ->
   m_writePos s mod m_blockSize s = 0 /\ m_writePos s <= TWN_ARRAY_SIZE + m_readEnd s) ->
  crypto_Cipher (m_crypto s)
    (take (Z.to_nat (m_writePos s)) (m_encrypedBuffer s)) = (c, []) ->
  store (m_buffer s) (m_readEnd s) [] = Some mem ->
  Flush s = Ret tt (set_m_writePos 0 (flushed s c mem (m_readEnd s))).
Proof.
  intros HB Hw Hal Hc Hs.
  unfold Flush, GetUsedWrite. run_monad.
  destruct (Z.eqb_spec (m_blockSize s) 0) as [?|_]; [lia|]. run_monad.
  rewrite Z.sub_0_r, rem_block by lia.
  destruct asserts_fatal eqn:Ef.
  - destruct Hal as [Hal Hcap]; [reflexivity|]. rewrite Hal. simpl.
    replace (m_writePos s <=? TWN_ARRAY_SIZE - (0 - m_readEnd s)) with true
      by (symmetry; apply Z.leb_le; lia).
    simpl. rewrite load_prefix by lia. simpl. rewrite Hc. simpl.
    rewrite Hs. reflexivity.
  - destruct (_ =? 0); simpl;
      (destruct (_ <=? _); simpl; rewrite load_prefix by lia; simpl;
       rewrite Hc; simpl; rewrite Hs; reflexivity).
Qed.

End DecryptFlush.

(** ** Reading side: AdvanceRead *)

Section AdvanceReadFacts.
Context `{Build} `{Crypto}.

Lemma stream_AdvanceRead_run (s : DecryptionStream.state) (n : Z) :
  DecryptionStream.AdvanceRead n s
  = if n <=? DecryptionStream.GetAvailableRead s
    then Ret true (DecryptionStream.set_m_readPos
                     (DecryptionStream.m_readPos s + n) s)
    else if asserts_fatal then Halt RequireFailed s else Ret false s.
Proof.
  unfold DecryptionStream.AdvanceRead. run_monad.
  destruct (n <=? DecryptionStream.GetAvailableRead s) eqn:E; simpl.
  - rewrite E. reflexivity.
  - destruct asserts_fatal; simpl; [reflexivity|]. rewrite E. reflexivity.
Qed.

Lemma block_AdvanceRead_run (s : BlockDecryptionStream.state) (n : Z) :
  BlockDecryptionStream.AdvanceRead n s
  = if n <=? BlockDecryptionStream.GetAvailableRead s
    then Ret true (BlockDecryptionStream.set_m_readPos
                     (BlockDecryptionStream.m_readPos s + n) s)
    else if asserts_fatal then Halt RequireFailed s else Ret false s.
Proof.
  unfold BlockDecryptionStream.AdvanceRead. run_monad.
  destruct (n <=? BlockDecryptionStream.GetAvailableRead s) eqn:E; simpl.
  - rewrite E. reflexivity.
  - destruct asserts_fatal; simpl; [reflexivity|]. rewrite E. reflexivity.
Qed.

(** C8.  [AdvanceRead n] with [n] at most the available bytes advances
    the read position by exactly [n] and returns success, for the stream
    and for the block decryptor.  With [n] above the available bytes it
    returns failure and the object is unchanged, in a build whose
    assertions report; in a build whose assertions are fatal the
    [TWN_REQUIRE] in front of the test halts, again with the object
    unchanged. *)
Theorem AdvanceRead_bounds (s : DecryptionStream.state)
    (t : BlockDecryptionStream.state) (n : Z) :
  (n <= DecryptionStream.GetAvailableRead s ->
   DecryptionStream.AdvanceRead n s
   = Ret true (DecryptionStream.set_m_readPos
                 (DecryptionStream.m_readPos s + n) s)) /\
  (DecryptionStream.GetAvailableRead s < n ->
   DecryptionStream.AdvanceRead n s
   = if asserts_fatal then Halt RequireFailed s else Ret false s) /\
  (n <= BlockDecryptionStream.GetAvailableRead t ->
   BlockDecryptionStream.AdvanceRead n t
   = Ret true (BlockDecryptionStream.set_m_readPos
                 (BlockDecryptionStream.m_readPos t + n) t)) /\
  (BlockDecryptionStream.GetAvailableRead t < n ->
   BlockDecryptionStream.AdvanceRead n t
   = if asserts_fatal then Halt RequireFailed t else Ret false t).
Proof.
  rewrite stream_AdvanceRead_run, block_AdvanceRead_run.
  repeat apply conj; intros Hn.
  - rewrite (proj2 (Z.leb_le _ _) Hn). reflexivity.
  - rewrite (proj2 (Z.leb_gt _ _) Hn). reflexivity.
  - rewrite (proj2 (Z.leb_le _ _) Hn). reflexivity.
  - rewrite (proj2 (Z.leb_gt _ _) Hn). reflexivity.
Qed.

End AdvanceReadFacts.

(** ** Init and the block size *)

Section InitFacts.
Context `{Build} `{Crypto} {W : Type} `{WriteStream W}.

(** C9.  [Init] of the block encryptor and of the block decryptor sets
    the block size to its [keySize] argument (converted to [int], which
    is the argument itself below 2^31), whatever the cipher provider
    does, and no member function changes it afterwards: it is the value
    all alignment, carry-over and padding arithmetic reads. *)
Theorem Init_blockSize_is_keySize (algorithm : Z) (key : list uint8_t)
    (keySize : Z) (iv : list uint8_t) (ivSize : Z)
    (e : BlockEncryptionStream.state W) (d : BlockDecryptionStream.state) :
  (exists ok e',
     BlockEncryptionStream.Init algorithm key keySize iv ivSize e = Ret ok e' /\
     BlockEncryptionStream.m_blockSize e' = static_cast_int keySize /\
     (0 <= keySize < 2 ^ 31 -> BlockEncryptionStream.m_blockSize e' = keySize)) /\
  (exists ok d',
     BlockDecryptionStream.Init algorithm key keySize iv ivSize d = Ret ok d' /\
     BlockDecryptionStream.m_blockSize d' = static_cast_int keySize /\
     (0 <= keySize < 2 ^ 31 -> BlockDecryptionStream.m_blockSize d' = keySize)) /\
  (forall n, keeps BlockEncryptionStream.m_blockSize
               (BlockEncryptionStream.AdvanceWrite (W:=W) n)) /\
  (forall b l n, keeps BlockEncryptionStream.m_blockSize
                   (BlockEncryptionStream.Pad (W:=W) b l n)) /\
  keeps BlockEncryptionStream.m_blockSize (BlockEncryptionStream.Flush (W:=W)) /\
  keeps BlockEncryptionStream.m_blockSize (BlockEncryptionStream.NextWrite (W:=W)) /\
  keeps BlockDecryptionStream.m_blockSize BlockDecryptionStream.Decrypt /\
  keeps BlockDecryptionStream.m_blockSize BlockDecryptionStream.NextRead /\
  (forall n, keeps BlockDecryptionStream.m_blockSize
               (BlockDecryptionStream.AdvanceRead n)) /\
  keeps BlockDecryptionStream.m_blockSize BlockDecryptionStream.Flush.
Proof.
  split; [|split].
  - unfold BlockEncryptionStream.Init. run_monad.
    eexists _, _. split; [reflexivity|]. simpl. split; [reflexivity|].
    intros. apply static_cast_int_small. lia.
  - unfold BlockDecryptionStream.Init. run_monad.
    eexists _, _. split; [reflexivity|]. simpl. split; [reflexivity|].
    intros. apply static_cast_int_small. lia.
  - repeat apply conj; intros.
    + apply enc_AdvanceWrite_keeps.
    + apply enc_Pad_keeps.
    + apply enc_Flush_keeps.
    + apply enc_NextWrite_keeps.
    + apply dec_Decrypt_keeps.
    + apply dec_NextRead_keeps.
    + apply dec_AdvanceRead_keeps.
    + apply dec_Flush_keeps.
Qed.

End InitFacts.

(** ** Padding *)

Section PaddingClaims.
Context `{Build} `{Crypto} {W : Type} `{WriteStream W}.
Import BlockEncryptionStream.

(** C4, as the code has it.  For a data length [dataLen >= 0] and a
    block size [B > 0] whose padding fits the buffer, [Pad] appends
    [padLen = B - dataLen mod B] bytes behind the data, between 1 and
    [B] of them and [B] when [dataLen mod B = 0]: [padLen - 1] zero
    bytes and one byte of value [padLen mod 256], which is [padLen]
    itself for every block size up to 255. *)
Theorem Pad_appends_padding (s : state W) (bufferLen dataLen : Z) :
  0 < m_blockSize s -> 0 <= dataLen ->
  dataLen + padLen (m_blockSize s) dataLen < bufferLen ->
  bufferLen <= Z.of_nat (length (m_buffer s)) ->
  let n := padLen (m_blockSize s) dataLen in
  1 <= n <= m_blockSize s /\
  (dataLen mod m_blockSize s = 0 -> n = m_blockSize s) /\
  exists mem',
    Pad 0 bufferLen dataLen s = Ret n (set_m_buffer mem' s) /\
    load mem' 0 dataLen = load (m_buffer s) 0 dataLen /\
    load mem' dataLen n
      = Some (replicate (Z.to_nat (n - 1)) x00 ++ [static_cast_uint8 n]) /\
    uint8_val (static_cast_uint8 n) = n mod 256 /\
    (m_blockSize s <= 255 -> uint8_val (static_cast_uint8 n) = n).
Proof.
  intros HB Hd Hfit Hlen n.
  pose proof (padLen_range (m_blockSize s) dataLen HB) as Hn. fold n in Hn.
  split; [exact Hn|]. split.
  { intros Hz. unfold n, padLen. rewrite Hz. lia. }
  pose proof (padding_length n ltac:(lia)) as Hpl.
  destruct (store (m_buffer s) dataLen (padding n)) as [mem'|] eqn:Hs.
  2:{ rewrite store_Some in Hs by lia. discriminate. }
  exists mem'. split; [apply Pad_fits; assumption|].
  pose proof (store_length _ _ _ _ Hs) as Hl'.
  split; [|split; [|split]].
  - rewrite !load_prefix by lia. f_equal.
    apply (take_store_before _ _ _ _ _ Hs). lia.
  - pose proof (load_store_same _ _ _ _ Hs) as Hld.
    rewrite Hpl in Hld. exact Hld.
  - apply uint8_val_cast.
  - intros. rewrite uint8_val_cast. apply Z.mod_small. lia.
Qed.

End PaddingClaims.

(** ** Flush of the block decryptor and the padding-length byte *)

Section FlushClaims.
Context `{Build} `{Crypto}.
Import BlockDecryptionStream.

(** C3.  The ciphertext buffer holds a whole, positive number of blocks
    and the transform of [Flush] yields as many bytes, the last of which
    is the padding-length byte [b].  If [b] is above the block size,
    [Flush] halts in [TWN_BUG]: it does not return, and read-end has not
    been shrunk.  If [b] is at most the block size, [Flush] returns with
    read-end shrunk by exactly [b] bytes and with the ciphertext buffer
    empty. *)
Theorem Flush_checks_padding_byte (s : state) (c : session)
    (out : list uint8_t) (b : uint8_t) :
  0 < m_blockSize s ->
  0 < m_writePos s <= TWN_ARRAY_SIZE ->
  m_writePos s <= Z.of_nat (length (m_encrypedBuffer s)) ->
  m_writePos s mod m_blockSize s = 0 ->
  0 <= m_readEnd s ->
  m_readEnd s + m_writePos s <= Z.of_nat (length (m_buffer s)) ->
  crypto_Cipher (m_crypto s)
    (take (Z.to_nat (m_writePos s)) (m_encrypedBuffer s)) = (c, out) ->
  Z.of_nat (length out) = m_writePos s ->
  last out = Some b ->
  (m_blockSize s < uint8_val b ->
   exists s', Flush s
              = Halt (Bug "BlockDecryptionStream: Invalid number of padded bytes {0}; maximum is {1}") s' /\
              m_readEnd s' = m_readEnd s + m_writePos s /\
              m_readPos s' = m_readPos s) /\
  (uint8_val b <= m_blockSize s ->
   exists s', Flush s = Ret tt s' /\
              m_readEnd s' = m_readEnd s + m_writePos s - uint8_val b /\
              m_readPos s' = m_readPos s /\
              m_writePos s' = 0).
Proof.
  intros HB Hw Hw' Hal He Hfit Hc Hlen Hl.
  destruct (store (m_buffer s) (m_readEnd s) out) as [mem|] eqn:Hs.
  2:{ rewrite store_Some in Hs by lia. discriminate. }
  pose proof (Flush_run s c out mem b HB ltac:(lia) ltac:(lia) Hal He Hc Hs Hl)
    as Hrun.
  cbv zeta in Hrun. rewrite Hlen in Hrun. split; intros Hb.
  - rewrite (proj2 (Z.leb_gt _ _) Hb) in Hrun.
    eexists. split; [exact Hrun|]. simpl. auto.
  - rewrite (proj2 (Z.leb_le _ _) Hb) in Hrun.
    eexists. split; [exact Hrun|]. simpl. auto.
Qed.

End FlushClaims.

(** ** BlockEncryptionStream::AdvanceWrite *)

Section AdvanceWriteFacts.
Context `{Build} `{Crypto} {W : Type} `{WriteStream W}.
Import BlockEncryptionStream.

Lemma AdvanceWrite_buffers (s : state W) (n : Z) :
  n + m_writePos s < m_blockSize s ->
  AdvanceWrite n s = Ret true (set_m_writePos (m_writePos s + n) s).
Proof.
  intros Hlt. unfold AdvanceWrite, GetAvailableRead. run_monad.
  rewrite Z.sub_0_r.
  replace (n + m_writePos s >=? m_blockSize s) with false
    by (symmetry; rewrite Z.geb_leb; apply Z.leb_gt; lia).
  reflexivity.
Qed.

Lemma AdvanceWrite_transforms (s : state W) (n : Z) (c : session)
    (out : list uint8_t) :
  let total := n + m_writePos s in
  let aligned := total - total mod m_blockSize s in
  0 < m_blockSize s -> m_blockSize s <= total ->
  total <= Z.of_nat (length (m_buffer s)) ->
  crypto_Cipher (m_crypto s) (take (Z.to_nat aligned) (m_buffer s)) = (c, out) ->
  (length out <= length (m_encrypedBuffer s))%nat ->
  AdvanceWrite n s =
    let r := Stream_Copy out (m_dest s) in
    Ret (fst r)
      (transformed s (snd r) c
         (take (Z.to_nat (total mod m_blockSize s))
            (drop (Z.to_nat aligned) (m_buffer s))
          ++ drop (Z.to_nat (total mod m_blockSize s)) (m_buffer s))
         (out ++ drop (length out) (m_encrypedBuffer s))
         (total mod m_blockSize s)).
Proof.
  intros total aligned HB Hge Hfit Hc Hout.
  pose proof (Z.mod_pos_bound total (m_blockSize s) HB) as Hr.
  assert (m_blockSize s <= aligned) as Hal.
  { unfold aligned. rewrite Z.mod_eq by lia.
    assert (1 <= total / m_blockSize s)
      by (apply Z.div_le_lower_bound; lia). nia. }
  unfold AdvanceWrite, GetAvailableRead, memcpy. run_monad.
  rewrite Z.sub_0_r. fold total.
  replace (total >=? m_blockSize s) with true
    by (symmetry; rewrite Z.geb_leb; apply Z.leb_le; lia).
  destruct (Z.eqb_spec (m_blockSize s) 0) as [?|_]; [lia|]. run_monad.
  rewrite rem_block by lia. fold aligned.
  rewrite load_prefix by (unfold aligned; lia). simpl.
  rewrite Hc. simpl.
  rewrite store_Some by lia. simpl.
  replace (total - aligned) with (total mod m_blockSize s)
    by (unfold aligned; lia).
  replace (disjoint_ranges 0 aligned (total mod m_blockSize s)) with true.
  2:{ symmetry. unfold disjoint_ranges.
      apply orb_true_iff; left. apply orb_true_iff; right.
      apply Z.leb_le. lia. }
  unfold memmove. rewrite load_Some by (unfold aligned; lia).
  assert (length (take (Z.to_nat (total mod m_blockSize s))
                    (drop (Z.to_nat aligned) (m_buffer s)))
          = Z.to_nat (total mod m_blockSize s)) as Hlt.
  { rewrite length_take, length_drop. unfold aligned. lia. }
  rewrite store_Some by lia. simpl. rewrite Hlt.
  rewrite load_Some
    by (rewrite ?length_app, ?length_drop; lia).
  simpl. change (Z.to_nat 0) with 0%nat.
  rewrite drop_0, Nat2Z.id, take_app_length, Z.add_0_l. reflexivity.
Qed.

End AdvanceWriteFacts.

(** ** BlockEncryptionStream::Flush *)

Section EncryptFlushFacts.
Context `{Build} `{Crypto} {W : Type} `{WriteStream W}.
Import BlockEncryptionStream.

Lemma padded_total (B a : Z) :
  0 < B -> 0 <= a ->
  B <= padLen B a + a /\ (padLen B a + a) mod B = 0.
Proof.
  intros HB Ha. pose proof (padLen_aligned B a HB) as Hal.
  rewrite Z.add_comm in Hal. split; [|exact Hal].
  unfold padLen. pose proof (Z.mod_le a B Ha HB). lia.
Qed.

Lemma Flush_pads (s : state W) (c : session) (out mem : list uint8_t) :
  let p := padLen (m_blockSize s) (m_writePos s) in
  0 < m_blockSize s -> 0 <= m_writePos s ->
  m_writePos s + p < TWN_ARRAY_SIZE ->
  store (m_buffer s) (m_writePos s) (padding p) = Some mem ->
  crypto_Cipher (m_crypto s)
    (take (Z.to_nat (m_writePos s)) (m_buffer s) ++ padding p) = (c, out) ->
  (length out <= length (m_encrypedBuffer s))%nat ->
  Flush s =
    let r := Stream_Copy out (m_dest s) in
    Ret tt (transformed s (snd r) c mem
              (out ++ drop (length out) (m_encrypedBuffer s)) 0).
Proof.
  intros p HB Ha Hfit Hs Hc Hout.
  pose proof (padLen_range (m_blockSize s) (m_writePos s) HB) as Hp. fold p in Hp.
  pose proof (padded_total (m_blockSize s) (m_writePos s) HB Ha) as [Hge Hal].
  fold p in Hge, Hal.
  pose proof (padding_length p ltac:(lia)) as Hpl.
  pose proof (store_length _ _ _ _ Hs) as Hlen.
  pose proof (take_store_append _ _ _ _ Hs) as Htake.
  pose proof Hs as (_ & Hhi & _)%store_inv.
  unfold Flush. unfold bind at 1. unfold gets at 1.
  unfold bind at 1. unfold GetAvailableRead at 1. rewrite Z.sub_0_r.
  rewrite (Pad_fits s TWN_ARRAY_SIZE (m_writePos s) mem HB Ha Hfit Hs).
  fold p. run_monad. unfold GetAvailableRead. simpl.
  destruct (Z.eqb_spec (m_blockSize s) 0) as [?|_]; [lia|]. run_monad.
  rewrite Z.sub_0_r, rem_block by lia.
  rewrite Z.add_comm, Hal. simpl.
  pose proof (AdvanceWrite_transforms (set_m_buffer mem s) p c out) as Hrun.
  simpl in Hrun. rewrite Hal in Hrun. rewrite Z.sub_0_r in Hrun.
  rewrite Hrun; try lia.
  - simpl. change (Z.to_nat 0) with 0%nat. rewrite ?take_0, ?drop_0.
    reflexivity.
  - replace (Z.to_nat (p + m_writePos s))
      with (Z.to_nat (m_writePos s) + length (padding p))%nat by lia.
    rewrite Htake. exact Hc.
Qed.

End EncryptFlushFacts.

(** ** One pass of BlockDecryptionStream::Decrypt *)

Section DecryptPassFacts.
Context `{Build} `{Crypto}.
Import BlockDecryptionStream.

Lemma pulled_range (s : state) (buffer : list uint8_t) :
  0 <= m_writePos s <= TWN_ARRAY_SIZE ->
  0 <= pulled s buffer <= Z.of_nat (length buffer) /\
  m_writePos s + pulled s buffer <= TWN_ARRAY_SIZE /\
  length (take (Z.to_nat (pulled s buffer)) buffer)
  = Z.to_nat (pulled s buffer).
Proof.
  intros Hw. unfold pulled, GetAvailableWrite, GetUsedWrite.
  rewrite length_take. lia.
Qed.

Lemma Decrypt_pass_accumulates (s : state) (buffer : list uint8_t) :
  let len := pulled s buffer in
  0 < m_blockSize s ->
  0 <= m_writePos s <= TWN_ARRAY_SIZE ->
  TWN_ARRAY_SIZE <= Z.of_nat (length (m_encrypedBuffer s)) ->
  decryptable (m_writePos s + len) (m_blockSize s) <= 0 ->
  Decrypt_pass buffer s =
    Ret len
      {| m_source := ReadStream.AdvanceRead len (m_source s);
         m_crypto := m_crypto s; m_blockSize := m_blockSize s;
         m_buffer := m_buffer s; m_encrypedBuffer := appended s buffer;
         m_readPos := m_readPos s; m_readEnd := m_readEnd s;
         m_writePos := m_writePos s + len |}.
Proof.
  intros len HB Hw Hcap Hk.
  pose proof (pulled_range s buffer Hw) as (Hl & Hfit & Hlt). fold len in Hl, Hfit, Hlt.
  unfold Decrypt_pass. run_monad. fold (pulled s buffer). fold len.
  rewrite store_Some by lia. simpl.
  unfold GetUsedWrite. simpl.
  destruct (Z.eqb_spec (m_blockSize s) 0) as [?|_]; [lia|]. run_monad.
  rewrite Z.sub_0_r, rem_block by lia.
  unfold decryptable in Hk. rewrite (proj2 (Z.ltb_ge _ _) Hk).
  reflexivity.
Qed.

Lemma Decrypt_pass_transforms (s : state) (buffer : list uint8_t)
    (c : session) (out : list uint8_t) :
  let len := pulled s buffer in
  let k := decryptable (m_writePos s + len) (m_blockSize s) in
  0 < m_blockSize s ->
  0 <= m_writePos s <= TWN_ARRAY_SIZE ->
  TWN_ARRAY_SIZE <= Z.of_nat (length (m_encrypedBuffer s)) ->
  0 < k ->
  crypto_Cipher (m_crypto s) (take (Z.to_nat k) (appended s buffer)) = (c, out) ->
  (length out <= length (m_buffer s))%nat ->
  Decrypt_pass buffer s =
    Ret len
      {| m_source := ReadStream.AdvanceRead len (m_source s);
         m_crypto := c; m_blockSize := m_blockSize s;
         m_buffer := out ++ drop (length out) (m_buffer s);
         m_encrypedBuffer :=
           take (Z.to_nat (m_writePos s + len - k))
             (drop (Z.to_nat k) (appended s buffer))
           ++ drop (Z.to_nat (m_writePos s + len - k)) (appended s buffer);
         m_readPos := m_readPos s; m_readEnd := Z.of_nat (length out);
         m_writePos := m_writePos s + len - k |}.
Proof.
  intros len k HB Hw Hcap Hk Hc Hout.
  pose proof (pulled_range s buffer Hw) as (Hl & Hfit & Hlt).
  subst len.
  pose proof (Z.mod_pos_bound (m_writePos s + pulled s buffer) (m_blockSize s) HB)
    as Hr.
  assert (length (appended s buffer) = length (m_encrypedBuffer s)) as Hla.
  { unfold appended.
    rewrite !length_app, length_take, length_drop, Hlt. lia. }
  unfold Decrypt_pass. run_monad. fold (pulled s buffer).
  rewrite store_Some by lia. simpl. fold (appended s buffer).
  unfold GetUsedWrite. simpl.
  destruct (Z.eqb_spec (m_blockSize s) 0) as [?|_]; [lia|]. run_monad.
  rewrite Z.sub_0_r, rem_block by lia.
  fold (decryptable (m_writePos s + pulled s buffer) (m_blockSize s)). fold k.
  rewrite (proj2 (Z.ltb_lt _ _) Hk).
  assert (k <= m_writePos s + pulled s buffer) as Hkle
    by (unfold k, decryptable; lia).
  rewrite load_prefix by lia. simpl. rewrite Hc. simpl.
  rewrite store_Some by lia. simpl.
  unfold memmove. rewrite load_Some by lia.
  assert (length (take (Z.to_nat (m_writePos s + pulled s buffer - k))
                    (drop (Z.to_nat k) (appended s buffer)))
          = Z.to_nat (m_writePos s + pulled s buffer - k)) as Hlm.
  { rewrite length_take, length_drop. lia. }
  rewrite store_Some by lia. simpl. rewrite Hlm, !Z.add_0_l. reflexivity.
Qed.

End DecryptPassFacts.

(** ** The wrapped source *)

Lemma AdvanceRead_pending (buffer : list uint8_t) (rest : ReadStream.t) (n : Z) :
  ReadStream.pending (ReadStream.AdvanceRead n (buffer :: rest))
  = drop (Z.to_nat n) buffer ++ ReadStream.pending rest.
Proof.
  unfold ReadStream.pending. simpl.
  destruct (drop (Z.to_nat n) buffer); reflexivity.
Qed.

Lemma AdvanceRead_spans (buffer : list uint8_t) (rest : ReadStream.t) (n : Z) :
  (length (ReadStream.AdvanceRead n (buffer :: rest)) <= length (buffer :: rest))%nat.
Proof.
  simpl. destruct (drop (Z.to_nat n) buffer); simpl; lia.
Qed.

Lemma AdvanceRead_size (buffer : list uint8_t) (rest : ReadStream.t) (n : Z) :
  0 < n \/ buffer = [] ->
  (ReadStream.size (ReadStream.AdvanceRead n (buffer :: rest))
   < ReadStream.size (buffer :: rest))%nat.
Proof.
  intros Hn. unfold ReadStream.size. simpl.
  destruct (drop (Z.to_nat n) buffer) as [|b l] eqn:E.
  - rewrite length_app. lia.
  - simpl. rewrite !length_app.
    assert (length (b :: l) = (length buffer - Z.to_nat n)%nat) as Hl
      by (rewrite <- E; apply length_drop).
    simpl in Hl. destruct Hn as [Hn| ->]; [lia|].
    rewrite drop_nil in E. discriminate.
Qed.

(** ** The loop of BlockDecryptionStream::Decrypt *)

Section DecryptLoopFacts.
Context `{Build} `{Crypto}.
Import BlockDecryptionStream.

(** A loop rule: an invariant [I] that every pass keeps holds when the
    loop ends, the loop ends within the bound the source gives, without
    a fault, and the count it returns is the number of bytes that left
    the source. *)
Lemma Decrypt_loop_rule (I : state -> Prop) :
  (forall s buffer rest,
     I s -> continues s = true -> m_source s = buffer :: rest ->
     exists s', Decrypt_pass buffer s = Ret (pulled s buffer) s' /\ I s' /\
                m_source s'
                = ReadStream.AdvanceRead (pulled s buffer) (m_source s) /\
                0 <= pulled s buffer <= Z.of_nat (length buffer)) ->
  forall (fuel : nat) (bytesRead : Z) (s : state),
    I s -> (ReadStream.size (m_source s) < fuel)%nat ->
    exists s' n,
      Decrypt_loop fuel bytesRead s = Ret (bytesRead + n) s' /\ I s' /\
      (continues s' = false \/ m_source s' = []) /\
      0 <= n /\
      Z.of_nat (length (ReadStream.pending (m_source s)))
      = n + Z.of_nat (length (ReadStream.pending (m_source s'))) /\
      (length (m_source s') <= length (m_source s))%nat.
Proof.
  intros Hpass fuel. induction fuel as [|fuel IH]; intros bytesRead s HI Hfuel.
  - lia.
  - simpl. run_monad. fold (continues s).
    destruct (continues s) eqn:Hc.
    2:{ exists s, 0. rewrite Z.add_0_r. repeat apply conj; auto; lia. }
    destruct (m_source s) as [|buffer rest] eqn:Hsrc; simpl.
    { exists s, 0. rewrite Z.add_0_r, Hsrc. repeat apply conj; auto; lia. }
    destruct (Hpass s buffer rest HI Hc Hsrc) as (s1 & Hrun & HI1 & Hs1 & Hlen).
    rewrite Hrun.
    assert (0 < pulled s buffer \/ buffer = []) as Hprog.
    { unfold continues in Hc. apply andb_true_iff in Hc as [Hw _].
      apply Z.ltb_lt in Hw. unfold pulled.
      destruct buffer; [right; reflexivity | left; simpl; lia]. }
    rewrite Hsrc in Hs1.
    pose proof (AdvanceRead_size buffer rest _ Hprog) as Hsz.
    rewrite <- Hs1 in Hsz.
    destruct (IH (bytesRead + pulled s buffer) s1 HI1 ltac:(lia))
      as (s' & n & Hloop & HI' & Hexit & Hn & Hcount & Hspans).
    exists s', (pulled s buffer + n). rewrite Z.add_assoc.
    pose proof (AdvanceRead_spans buffer rest (pulled s buffer)) as Hsp.
    rewrite <- Hs1 in Hsp.
    split; [exact Hloop|]. split; [exact HI'|]. split; [exact Hexit|].
    split; [lia|]. split; [|exact (Nat.le_trans _ _ _ Hspans Hsp)].
    rewrite Hs1, AdvanceRead_pending in Hcount.
    unfold ReadStream.pending in *. simpl. rewrite length_app in *.
    rewrite length_drop in Hcount. lia.
Qed.

End DecryptLoopFacts.

Lemma decryptable_pos (used B : Z) :
  0 < B -> 0 <= used -> (0 < decryptable used B <-> 2 * B <= used).
Proof.
  intros HB Hu. unfold decryptable.
  pose proof (Z.mod_pos_bound used B HB) as Hr.
  pose proof (Z.div_mod used B ltac:(lia)) as Hq.
  split; intros Hk.
  - assert (1 < used / B) by nia. nia.
  - assert (2 <= used / B) by (apply Z.div_le_lower_bound; lia). nia.
Qed.

Lemma decryptable_aligned (used B : Z) :
  0 < B -> decryptable used B mod B = 0.
Proof.
  intros HB. unfold decryptable.
  replace (used - used mod B - B) with ((used / B - 1) * B)
    by (rewrite (Z.mod_eq used B) by lia; lia).
  apply Z.mod_mul. lia.
Qed.

Section DecryptSafety.
Context `{Build} `{Crypto}.
Import BlockDecryptionStream.

(** What a pass does to the cursors, in a state of the loop. *)
Lemma Decrypt_pass_cursors (s : state) (buffer : list uint8_t) :
  let B := m_blockSize s in
  let used1 := m_writePos s + pulled s buffer in
  length_preserving B -> 0 < B ->
  Z.of_nat (length (m_buffer s)) = TWN_ARRAY_SIZE ->
  Z.of_nat (length (m_encrypedBuffer s)) = TWN_ARRAY_SIZE ->
  0 <= m_writePos s <= TWN_ARRAY_SIZE ->
  exists s',
    Decrypt_pass buffer s = Ret (pulled s buffer) s' /\
    m_source s' = ReadStream.AdvanceRead (pulled s buffer) (m_source s) /\
    m_blockSize s' = B /\
    Z.of_nat (length (m_buffer s')) = TWN_ARRAY_SIZE /\
    Z.of_nat (length (m_encrypedBuffer s')) = TWN_ARRAY_SIZE /\
    m_readPos s' = m_readPos s /\
    (used1 < 2 * B ->
     m_writePos s' = used1 /\ m_readEnd s' = m_readEnd s) /\
    (2 * B <= used1 ->
     m_writePos s' = used1 mod B + B /\
     m_readEnd s' = decryptable used1 B).
Proof.
  intros B used1 Hlp HB Hlb Hle Hw.
  pose proof (pulled_range s buffer Hw) as (Hl & Hfit & Hlt).
  pose proof (decryptable_pos used1 B HB ltac:(lia)) as Hpos.
  assert (length (appended s buffer) = length (m_encrypedBuffer s)) as Hla.
  { unfold appended. rewrite !length_app, length_take, length_drop, Hlt. lia. }
  destruct (Z_lt_le_dec used1 (2 * B)) as [Hlt2|Hge2].
  - eexists. split.
    { apply Decrypt_pass_accumulates; try lia. fold B used1. lia. }
    simpl. rewrite Hla. repeat apply conj; auto; intros; lia.
  - apply Hpos in Hge2 as Hk.
    destruct (crypto_Cipher (m_crypto s)
                (take (Z.to_nat (decryptable used1 B)) (appended s buffer)))
      as [c out] eqn:Hc.
    assert (decryptable used1 B <= used1) as Hkle.
    { unfold decryptable. pose proof (Z.mod_pos_bound used1 B HB). lia. }
    assert (length out = Z.to_nat (decryptable used1 B)) as Hout.
    { pose proof (Hlp (m_crypto s)
                    (take (Z.to_nat (decryptable used1 B)) (appended s buffer)))
        as Hlen.
      rewrite Hc in Hlen. simpl in Hlen. rewrite Hlen.
      - rewrite length_take. lia.
      - rewrite length_take.
        replace (Z.of_nat (Z.to_nat (decryptable used1 B)
                           `min` length (appended s buffer)))
          with (decryptable used1 B) by lia.
        apply decryptable_aligned. exact HB. }
    eexists. split.
    { apply (Decrypt_pass_transforms s buffer c out); try lia.
      - exact Hk.
      - exact Hc. }
    simpl. rewrite !length_app, !length_take, !length_drop, Hla, Hout.
    unfold decryptable in *. subst used1 B.
    pose proof (Z.mod_pos_bound (m_writePos s + pulled s buffer)
                  (m_blockSize s) HB).
    repeat apply conj; auto; intros; lia.
Qed.

End DecryptSafety.

Lemma decryptable_ge (used B : Z) :
  0 < B -> 2 * B <= used ->
  B <= decryptable used B /\ decryptable used B + used mod B + B = used.
Proof.
  intros HB Hu. unfold decryptable.
  pose proof (Z.mod_pos_bound used B HB) as Hr.
  pose proof (Z.div_mod used B ltac:(lia)) as Hq.
  assert (2 <= used / B) by (apply Z.div_le_lower_bound; lia).
  split; nia.
Qed.

Section DecryptCursors.
Context `{Build} `{Crypto}.
Import BlockDecryptionStream.

Lemma in_loop_pass (B : Z) (s : state) (buffer : list uint8_t)
    (rest : ReadStream.t) :
  length_preserving B -> 0 < B ->
  in_loop B s -> continues s = true -> m_source s = buffer :: rest ->
  exists s', Decrypt_pass buffer s = Ret (pulled s buffer) s' /\
             in_loop B s' /\
             m_source s'
             = ReadStream.AdvanceRead (pulled s buffer) (m_source s) /\
             0 <= pulled s buffer <= Z.of_nat (length buffer).
Proof.
  intros Hlp HB ((Hlb & Hle & Hr & Hw & Hsum) & HBs & Hpos & Hend) Hc Hsrc.
  unfold continues, GetAvailableRead in Hc.
  apply andb_true_iff in Hc as [_ Hc]. apply Z.ltb_lt in Hc.
  assert (m_readEnd s = 0) as He by lia.
  subst B.
  destruct (Decrypt_pass_cursors s buffer Hlp HB Hlb Hle ltac:(lia))
    as (s' & Hrun & Hs' & HB' & Hlb' & Hle' & Hpos' & Hacc & Htr).
  pose proof (pulled_range s buffer ltac:(lia)) as (Hl & Hfit & _).
  exists s'. split; [exact Hrun|]. split; [|split; [exact Hs'|exact Hl]].
  destruct (Z_lt_le_dec (m_writePos s + pulled s buffer) (2 * m_blockSize s))
    as [Hlt|Hge].
  - destruct (Hacc Hlt) as [Hw' He'].
    unfold in_loop, Invariant.BlockDecryptionStream.
    repeat apply conj; auto; lia.
  - destruct (Htr Hge) as [Hw' He'].
    destruct (decryptable_ge _ _ HB Hge) as [Hk Hsplit].
    pose proof (Z.mod_pos_bound (m_writePos s + pulled s buffer)
                  (m_blockSize s) HB).
    unfold in_loop, Invariant.BlockDecryptionStream.
    repeat apply conj; auto; lia.
Qed.

Lemma Decrypt_cursors (s : state) :
  let B := m_blockSize s in
  length_preserving B -> 0 < B -> Invariant.BlockDecryptionStream s ->
  exists b s',
    Decrypt s = Ret b s' /\ in_loop B s' /\
    (continues s' = false \/ m_source s' = []) /\
    (b = true <->
     (length (ReadStream.pending (m_source s'))
      < length (ReadStream.pending (m_source s)))%nat).
Proof.
  intros B Hlp HB (Hlb & Hle & Hr & Hw & Hsum).
  unfold Decrypt, bind, modify, gets, ret. cbv beta iota.
  set (s0 := set_m_readPos 0 (set_m_readEnd 0 s)).
  change (m_source s0) with (m_source s).
  assert (in_loop B s0) as HI.
  { unfold in_loop, Invariant.BlockDecryptionStream. simpl.
    repeat apply conj; auto; lia. }
  destruct (Decrypt_loop_rule (in_loop B)
              (fun s1 buffer rest => in_loop_pass B s1 buffer rest Hlp HB)
              (S (ReadStream.size (m_source s))) 0 s0 HI
              ltac:(simpl; lia))
    as (s' & n & Hloop & HI' & Hexit & Hn & Hcount & _).
  rewrite Hloop. simpl in Hcount.
  exists (0 <? n), s'.
  split; [reflexivity|]. split; [exact HI'|]. split; [exact Hexit|]. split.
  - intros Hb. apply Z.ltb_lt in Hb. lia.
  - intros Hlt. apply Z.ltb_lt. lia.
Qed.

End DecryptCursors.

(** ** The window bound *)

Section StreamDecryptorSafety.
Context `{Build} `{Crypto}.
Import DecryptionStream.

Lemma stream_Decrypt_in_window (s : state) :
  length_preserving 1 -> Invariant.DecryptionStream s ->
  spans_fit_int (m_source s) ->
  returns_with Invariant.DecryptionStream (Decrypt s).
Proof.
  intros Hlp (Hlb & Hr & He) Hfit. unfold Decrypt. run_monad.
  destruct (m_source s) as [|buffer rest]; simpl.
  { unfold Invariant.DecryptionStream. simpl. unfold TWN_ARRAY_SIZE in *. lia. }
  apply Forall_cons in Hfit as [Hsmall _].
  rewrite static_cast_int_small by lia.
  set (len := Z.min TWN_ARRAY_SIZE (Z.of_nat (length buffer))).
  assert (0 <= len <= TWN_ARRAY_SIZE /\ len <= Z.of_nat (length buffer))
    as (Hlen & Hlen') by (unfold len, TWN_ARRAY_SIZE; lia).
  assert (length (take (Z.to_nat len) buffer) = Z.to_nat len) as Hlt
    by (rewrite length_take; lia).
  rewrite load_prefix by lia. simpl.
  destruct (store (m_buffer s) 0 (take (Z.to_nat len) buffer)) as [mem|] eqn:Hs.
  2:{ rewrite store_Some in Hs by lia. discriminate. }
  pose proof (store_length _ _ _ _ Hs) as Hlm. simpl.
  rewrite load_prefix by lia. simpl.
  set (plain := take (Z.to_nat len) mem).
  assert (length plain = Z.to_nat len) as Hlp'
    by (unfold plain; rewrite length_take; lia).
  pose proof (Hlp (m_crypto s) plain (Z.mod_1_r _)) as Hout.
  destruct (store mem 0 (crypto_Cipher (m_crypto s) plain).2) as [mem'|] eqn:Hs'.
  2:{ rewrite store_Some in Hs' by lia. discriminate. }
  pose proof (store_length _ _ _ _ Hs') as Hlm'. simpl.
  unfold Invariant.DecryptionStream. simpl. lia.
Qed.

Lemma stream_NextRead_in_window (s : state) :
  length_preserving 1 -> Invariant.DecryptionStream s ->
  spans_fit_int (m_source s) ->
  returns_with Invariant.DecryptionStream (NextRead s).
Proof.
  intros Hlp HI Hfit. unfold NextRead. unfold bind at 1. unfold gets at 1.
  unfold bind at 1.
  destruct (GetAvailableRead s =? 0).
  - pose proof (stream_Decrypt_in_window s Hlp HI Hfit) as HD.
    destruct (Decrypt s) as [[|] s'|f s']; simpl in *; auto.
  - simpl. exact HI.
Qed.

Lemma stream_AdvanceRead_in_window (s : state) (n : Z) :
  0 <= n -> Invariant.DecryptionStream s ->
  in_bounds Invariant.DecryptionStream (AdvanceRead n s).
Proof.
  intros Hn (Hlb & Hr & He). rewrite stream_AdvanceRead_run.
  unfold GetAvailableRead.
  destruct (Z.leb_spec n (m_readEnd s - m_readPos s)); simpl.
  - unfold Invariant.DecryptionStream. simpl. lia.
  - destruct asserts_fatal; simpl; [exact I|].
    unfold Invariant.DecryptionStream. lia.
Qed.

End StreamDecryptorSafety.

Section BlockEncryptorSafety.
Context `{Build} `{Crypto} {W : Type} `{WriteStream W}.
Import BlockEncryptionStream.

Lemma AdvanceWrite_in_window (s : state W) (n : Z) :
  length_preserving (m_blockSize s) -> 0 < m_blockSize s ->
  Invariant.BlockEncryptionStream s ->
  0 <= n <= TWN_ARRAY_SIZE - GetAvailableRead s ->
  returns_with Invariant.BlockEncryptionStream (AdvanceWrite n s).
Proof.
  intros Hlp HB (Hlb & Hle & Hw) Hn. unfold GetAvailableRead in Hn.
  destruct (Z_lt_le_dec (n + m_writePos s) (m_blockSize s)) as [Hlt|Hge].
  - rewrite AdvanceWrite_buffers by exact Hlt.
    unfold Invariant.BlockEncryptionStream. simpl. lia.
  - set (total := n + m_writePos s) in *.
    pose proof (Z.mod_pos_bound total (m_blockSize s) HB) as Hr.
    pose proof (Z.mod_le total (m_blockSize s) ltac:(lia) HB) as Hrle.
    set (aligned := total - total mod m_blockSize s).
    destruct (crypto_Cipher (m_crypto s) (take (Z.to_nat aligned) (m_buffer s)))
      as [c out] eqn:Hc.
    assert (length out = Z.to_nat aligned) as Hout.
    { pose proof (Hlp (m_crypto s) (take (Z.to_nat aligned) (m_buffer s)))
        as Hlen.
      rewrite Hc, length_take in Hlen. simpl in Hlen. rewrite Hlen; [lia|].
      replace (Z.of_nat (Z.to_nat aligned `min` length (m_buffer s)))
        with aligned by lia.
      unfold aligned. rewrite Zminus_mod_idemp_r, Z.sub_diag.
      apply Z.mod_0_l. lia. }
    rewrite (AdvanceWrite_transforms s n c out HB Hge ltac:(lia) Hc ltac:(lia)).
    fold total. fold aligned.
    unfold Invariant.BlockEncryptionStream. simpl.
    rewrite !length_app, !length_take, !length_drop, Hout. lia.
Qed.

Lemma enc_Flush_in_window (s : state W) :
  length_preserving (m_blockSize s) -> 0 < m_blockSize s ->
  Invariant.BlockEncryptionStream s ->
  in_bounds Invariant.BlockEncryptionStream (Flush s).
Proof.
  intros Hlp HB (Hlb & Hle & Hw).
  set (p := padLen (m_blockSize s) (m_writePos s)).
  pose proof (padLen_range (m_blockSize s) (m_writePos s) HB) as Hp. fold p in Hp.
  destruct (Z_lt_le_dec (m_writePos s + p) TWN_ARRAY_SIZE) as [Hfit|Hnofit].
  - pose proof (padding_length p ltac:(lia)) as Hpl.
    destruct (store (m_buffer s) (m_writePos s) (padding p)) as [mem|] eqn:Hs.
    2:{ rewrite store_Some in Hs by lia. discriminate. }
    destruct (crypto_Cipher (m_crypto s)
                (take (Z.to_nat (m_writePos s)) (m_buffer s) ++ padding p))
      as [c out] eqn:Hc.
    assert (length out = Z.to_nat (m_writePos s + p)) as Hout.
    { pose proof (Hlp (m_crypto s)
                    (take (Z.to_nat (m_writePos s)) (m_buffer s) ++ padding p))
        as Hlen.
      rewrite Hc, length_app, length_take in Hlen. simpl in Hlen.
      rewrite Hlen; [lia|].
      replace (Z.of_nat (Z.to_nat (m_writePos s) `min` length (m_buffer s)
                         + length (padding p)))
        with (m_writePos s + p) by lia.
      apply padLen_aligned. exact HB. }
    rewrite (Flush_pads s c out mem HB ltac:(lia) Hfit Hs Hc ltac:(lia)).
    pose proof (store_length _ _ _ _ Hs) as Hlm.
    unfold in_bounds, Invariant.BlockEncryptionStream. simpl.
    rewrite !length_app, !length_drop, Hout, Hlm. lia.
  - unfold Flush. unfold bind at 1. unfold gets at 1. unfold bind at 1.
    unfold GetAvailableRead at 1. rewrite Z.sub_0_r.
    rewrite Pad_does_not_fit by (fold p; lia). exact I.
Qed.

End BlockEncryptorSafety.

Section BlockDecryptorSafety.
Context `{Build} `{Crypto}.
Import BlockDecryptionStream.

Lemma Decrypt_in_window (s : state) :
  length_preserving (m_blockSize s) -> 0 < m_blockSize s ->
  Invariant.BlockDecryptionStream s ->
  returns_with Invariant.BlockDecryptionStream (Decrypt s).
Proof.
  intros Hlp HB HI.
  destruct (Decrypt_cursors s Hlp HB HI) as (b & s' & Hrun & HI' & _).
  rewrite Hrun. apply HI'.
Qed.

Lemma NextRead_in_window (s : state) :
  length_preserving (m_blockSize s) -> 0 < m_blockSize s ->
  Invariant.BlockDecryptionStream s ->
  returns_with Invariant.BlockDecryptionStream (NextRead s).
Proof.
  intros Hlp HB HI. unfold NextRead. unfold bind at 1. unfold gets at 1.
  unfold bind at 1.
  destruct (GetAvailableRead s =? 0).
  - pose proof (Decrypt_in_window s Hlp HB HI) as HD.
    destruct (Decrypt s) as [[|] s'|f s']; simpl in *; auto.
  - simpl. exact HI.
Qed.

Lemma AdvanceRead_in_window (s : state) (n : Z) :
  0 <= n -> Invariant.BlockDecryptionStream s ->
  in_bounds Invariant.BlockDecryptionStream (AdvanceRead n s).
Proof.
  intros Hn (Hlb & Hle & Hr & Hw & Hsum). rewrite block_AdvanceRead_run.
  unfold GetAvailableRead.
  destruct (Z.leb_spec n (m_readEnd s - m_readPos s)); simpl.
  - unfold Invariant.BlockDecryptionStream. simpl. lia.
  - destruct asserts_fatal; simpl; [exact I|].
    unfold Invariant.BlockDecryptionStream. lia.
Qed.

Lemma Flush_unaligned_fatal (s : state) :
  asserts_fatal = true -> 0 < m_blockSize s -> 0 <= m_writePos s ->
  m_writePos s mod m_blockSize s <> 0 ->
  Flush s = Halt RequireFailed s.
Proof.
  intros Hf HB Hw Hal. unfold Flush, GetUsedWrite. run_monad.
  destruct (Z.eqb_spec (m_blockSize s) 0) as [?|_]; [lia|]. run_monad.
  rewrite Z.sub_0_r, rem_block by lia.
  destruct (Z.eqb_spec (m_writePos s mod m_blockSize s) 0); [contradiction|].
  rewrite Hf. reflexivity.
Qed.

Lemma Flush_in_window (s : state) :
  length_preserving (m_blockSize s) -> 0 < m_blockSize s ->
  Invariant.BlockDecryptionStream s ->
  asserts_fatal = true \/ m_writePos s mod m_blockSize s = 0 ->
  in_bounds Invariant.BlockDecryptionStream (Flush s).
Proof.
  intros Hlp HB (Hlb & Hle & Hr & Hw & Hsum) Hmode.
  destruct (Z.eq_dec (m_writePos s mod m_blockSize s) 0) as [Hal|Hnal].
  2:{ destruct Hmode as [Hf|?]; [|contradiction].
      rewrite Flush_unaligned_fatal by auto. exact I. }
  destruct (crypto_Cipher (m_crypto s)
              (take (Z.to_nat (m_writePos s)) (m_encrypedBuffer s)))
    as [c out] eqn:Hc.
  assert (length out = Z.to_nat (m_writePos s)) as Hout.
  { pose proof (Hlp (m_crypto s)
                  (take (Z.to_nat (m_writePos s)) (m_encrypedBuffer s)))
      as Hlen.
    rewrite Hc, length_take in Hlen. simpl in Hlen. rewrite Hlen; [lia|].
    replace (Z.of_nat (Z.to_nat (m_writePos s)
                       `min` length (m_encrypedBuffer s)))
      with (m_writePos s) by lia.
    exact Hal. }
  destruct (store (m_buffer s) (m_readEnd s) out) as [mem|] eqn:Hs.
  2:{ rewrite store_Some in Hs by lia. discriminate. }
  pose proof (store_length _ _ _ _ Hs) as Hlm.
  destruct (last out) as [b|] eqn:Hl.
  - rewrite (Flush_run s c out mem b HB ltac:(lia) ltac:(lia) Hal ltac:(lia)
               Hc Hs Hl).
    cbv zeta. pose proof (uint8_val_range b) as Hb.
    assert (m_blockSize s <= m_writePos s) as Hge.
    { apply last_Some in Hl as [d' ->]. rewrite length_app in Hout.
      simpl in Hout.
      apply Z.mod_divide in Hal; [|lia]. destruct Hal as [q Hq].
      assert (0 < q) by nia. nia. }
    destruct (Z.leb_spec (uint8_val b) (m_blockSize s)); simpl; [|exact I].
    unfold Invariant.BlockDecryptionStream. simpl. lia.
  - apply last_None in Hl. subst out.
    rewrite (Flush_nothing s c mem HB ltac:(lia)); auto.
    + unfold in_bounds, Invariant.BlockDecryptionStream. simpl. lia.
    + intros _. split; [exact Hal|lia].
Qed.

End BlockDecryptorSafety.

Section WindowBound.
Context `{Build} `{Crypto} {W : Type} `{WriteStream W}.

(** C2, as the code has it.  Every adapter that owns a window keeps
    its cursors inside it when it is used as the protocol allows.  The
    invariants of [Invariant] hold when an adapter is constructed, they
    contain the cursor invariant
    [0 <= readPos <= readEnd <= capacity], [0 <= writeCursor <= capacity],
    and every member function makes no access outside the arrays and
    returns in a state that satisfies the invariant again (or halts in
    [TWN_REQUIRE] / [TWN_BUG]), under these conditions: the block size
    is positive; [AdvanceWrite n] is called with [0 <= n] at most the
    span [NextWrite] offers, and [AdvanceRead n] with [n >= 0]; the
    spans of the source of a [DecryptionStream] are shorter than 2^31
    bytes; [BlockDecryptionStream::Flush] is called on a whole number
    of buffered blocks, or in a build whose [TWN_REQUIRE] is fatal,
    which stops every other buffer.  For [BlockDecryptionStream::Flush]
    the withheld bytes fit behind read-end,
    [readEnd + used <= capacity], so the transform stays inside the
    plaintext window.  The cipher is length-preserving: on every span
    in streaming mode, on spans of whole blocks in block mode. *)
Theorem window_bound :
  (forall source buffer,
     Z.of_nat (length buffer) = TWN_ARRAY_SIZE ->
     Invariant.DecryptionStream (DecryptionStream.new source buffer)) /\
  (forall (dest : W) buffer enc,
     Z.of_nat (length buffer) = TWN_ARRAY_SIZE ->
     Z.of_nat (length enc) = TWN_ARRAY_SIZE ->
     Invariant.BlockEncryptionStream (BlockEncryptionStream.new dest buffer enc)) /\
  (forall source buffer enc,
     Z.of_nat (length buffer) = TWN_ARRAY_SIZE ->
     Z.of_nat (length enc) = TWN_ARRAY_SIZE ->
     Invariant.BlockDecryptionStream (BlockDecryptionStream.new source buffer enc)) /\
  (forall s, Invariant.DecryptionStream s ->
     0 <= DecryptionStream.m_readPos s <= DecryptionStream.m_readEnd s /\
     DecryptionStream.m_readEnd s <= TWN_ARRAY_SIZE) /\
  (forall s : BlockEncryptionStream.state W,
     Invariant.BlockEncryptionStream s ->
     0 <= BlockEncryptionStream.m_writePos s <= TWN_ARRAY_SIZE) /\
  (forall s, Invariant.BlockDecryptionStream s ->
     0 <= BlockDecryptionStream.m_readPos s <= BlockDecryptionStream.m_readEnd s /\
     BlockDecryptionStream.m_readEnd s <= TWN_ARRAY_SIZE /\
     0 <= BlockDecryptionStream.GetUsedWrite s <= TWN_ARRAY_SIZE /\
     BlockDecryptionStream.m_readEnd s + BlockDecryptionStream.GetUsedWrite s
     <= TWN_ARRAY_SIZE) /\
  (length_preserving 1 ->
   forall s n, Invariant.DecryptionStream s ->
     (spans_fit_int (DecryptionStream.m_source s) ->
      returns_with Invariant.DecryptionStream (DecryptionStream.Decrypt s)) /\
     (spans_fit_int (DecryptionStream.m_source s) ->
      returns_with Invariant.DecryptionStream (DecryptionStream.NextRead s)) /\
     (0 <= n ->
      in_bounds Invariant.DecryptionStream (DecryptionStream.AdvanceRead n s))) /\
  (forall B, 0 < B -> length_preserving B ->
     (forall (s : BlockEncryptionStream.state W) n,
        BlockEncryptionStream.m_blockSize s = B ->
        Invariant.BlockEncryptionStream s ->
        returns_with Invariant.BlockEncryptionStream
          (BlockEncryptionStream.NextWrite s) /\
        (0 <= n <= TWN_ARRAY_SIZE - BlockEncryptionStream.GetAvailableRead s ->
         returns_with Invariant.BlockEncryptionStream
           (BlockEncryptionStream.AdvanceWrite n s)) /\
        in_bounds Invariant.BlockEncryptionStream
          (BlockEncryptionStream.Flush s)) /\
     (forall (s : BlockDecryptionStream.state) n,
        BlockDecryptionStream.m_blockSize s = B ->
        Invariant.BlockDecryptionStream s ->
        returns_with Invariant.BlockDecryptionStream
          (BlockDecryptionStream.Decrypt s) /\
        returns_with Invariant.BlockDecryptionStream
          (BlockDecryptionStream.NextRead s) /\
        (0 <= n ->
         in_bounds Invariant.BlockDecryptionStream
           (BlockDecryptionStream.AdvanceRead n s)) /\
        (asserts_fatal = true \/ BlockDecryptionStream.m_writePos s mod B = 0 ->
         in_bounds Invariant.BlockDecryptionStream
           (BlockDecryptionStream.Flush s)))).
Proof.
  split; [|split; [|split; [|split; [|split; [|split; [|split]]]]]].
  - intros source buffer Hl. unfold Invariant.DecryptionStream. simpl.
    unfold TWN_ARRAY_SIZE in *. lia.
  - intros dest buffer enc Hl Hl'. unfold Invariant.BlockEncryptionStream.
    simpl. unfold TWN_ARRAY_SIZE in *. lia.
  - intros source buffer enc Hl Hl'. unfold Invariant.BlockDecryptionStream.
    simpl. unfold TWN_ARRAY_SIZE in *. lia.
  - intros s (_ & Hr & He). lia.
  - intros s (_ & _ & Hw). lia.
  - intros s (_ & _ & Hr & Hw & Hsum).
    unfold BlockDecryptionStream.GetUsedWrite. lia.
  - intros Hlp s n HI. split; [|split].
    + intros Hfit. apply stream_Decrypt_in_window; assumption.
    + intros Hfit. apply stream_NextRead_in_window; assumption.
    + intros Hn. apply stream_AdvanceRead_in_window; assumption.
  - intros B HB Hlp. split.
    + intros s n <- HI. split; [|split].
      * exact HI.
      * intros Hn. apply AdvanceWrite_in_window; assumption.
      * apply enc_Flush_in_window; assumption.
    + intros s n <- HI. split; [|split; [|split]].
      * apply Decrypt_in_window; assumption.
      * apply NextRead_in_window; assumption.
      * intros Hn. apply AdvanceRead_in_window; assumption.
      * intros Hmode. apply Flush_in_window; assumption.
Qed.

End WindowBound.

Section DecryptClaims.
Context `{Build} `{Crypto}.
Import BlockDecryptionStream.

(** C7, as the code has it.  After a pass of the loop of [Decrypt] the
    withheld tail of the ciphertext buffer is shorter than two blocks,
    not one: the pass keeps back the last whole block together with the
    partial block behind it.  With fewer than two blocks accumulated
    nothing is transformed (the cipher session and the plaintext window
    are as they were) and all of it is withheld; from two blocks on,
    all but [used mod B + B] bytes are transformed and the withheld
    length is [used mod B + B], at least one block. *)
Theorem Decrypt_pass_withholds (s : state) (buffer : list uint8_t) :
  let B := m_blockSize s in
  let used := m_writePos s + pulled s buffer in
  length_preserving B -> 0 < B ->
  Z.of_nat (length (m_buffer s)) = TWN_ARRAY_SIZE ->
  Z.of_nat (length (m_encrypedBuffer s)) = TWN_ARRAY_SIZE ->
  0 <= m_writePos s <= TWN_ARRAY_SIZE ->
  exists s',
    Decrypt_pass buffer s = Ret (pulled s buffer) s' /\
    GetUsedWrite s' < 2 * B /\
    (used < 2 * B ->
     GetUsedWrite s' = used /\
     m_crypto s' = m_crypto s /\ m_buffer s' = m_buffer s /\
     m_readEnd s' = m_readEnd s) /\
    (2 * B <= used ->
     GetUsedWrite s' = used mod B + B /\ B <= GetUsedWrite s' /\
     m_readEnd s' = used - (used mod B + B)).
Proof.
  intros B used Hlp HB Hlb Hle Hw.
  pose proof (Z.mod_pos_bound used B HB) as Hr.
  destruct (Z_lt_le_dec used (2 * B)) as [Hlt|Hge].
  - pose proof (Decrypt_pass_accumulates s buffer) as Hrun. cbv zeta in Hrun.
    fold B in Hrun. fold used in Hrun.
    assert (decryptable used B <= 0) as Hnone.
    { destruct (Z_le_gt_dec (decryptable used B) 0) as [?|Hgt]; [assumption|].
      destruct (pulled_range s buffer Hw) as (Hp & _).
      apply Z.gt_lt, decryptable_pos in Hgt; unfold used in *; lia. }
    rewrite Hrun; [|exact HB|exact Hw|lia|exact Hnone].
    eexists. split; [reflexivity|]. unfold GetUsedWrite. simpl. fold used.
    split; [lia|]. split; [|intros; lia].
    intros _. repeat apply conj; try reflexivity. lia.
  - destruct (Decrypt_pass_cursors s buffer Hlp HB Hlb Hle Hw)
      as (s' & Hrun & _ & _ & _ & _ & _ & _ & Htr).
    fold B in Htr. fold used in Htr.
    destruct (Htr Hge) as [Hw' He']. unfold decryptable in He'.
    exists s'. split; [exact Hrun|]. unfold GetUsedWrite.
    split; [lia|]. split; [intros; lia|].
    intros _. repeat apply conj; lia.
Qed.


End DecryptClaims.

Section ZeroPaddingByte.
Context `{Build} `{Crypto} {W : Type} `{WriteStream W}.

(** C10.  A final block whose padding-length byte is 0 passes the check
    of [Flush] ([0 <= blockSize]): [Flush] returns without error,
    read-end is extended by the whole buffered ciphertext and shrunk by
    nothing, so the window ends with the entire final block, zero byte
    included, and the ciphertext buffer is reset.  The encryptor never
    produces such a block: the padding [Pad] appends is at least one
    byte long. *)
Theorem Flush_accepts_zero_padding_byte (s : BlockDecryptionStream.state)
    (c : session) (out : list uint8_t) (b : uint8_t) :
  0 < BlockDecryptionStream.m_blockSize s ->
  0 < BlockDecryptionStream.m_writePos s <= TWN_ARRAY_SIZE ->
  BlockDecryptionStream.m_writePos s
  <= Z.of_nat (length (BlockDecryptionStream.m_encrypedBuffer s)) ->
  BlockDecryptionStream.m_writePos s mod BlockDecryptionStream.m_blockSize s = 0 ->
  0 <= BlockDecryptionStream.m_readEnd s ->
  BlockDecryptionStream.m_readEnd s + BlockDecryptionStream.m_writePos s
  <= Z.of_nat (length (BlockDecryptionStream.m_buffer s)) ->
  crypto_Cipher (BlockDecryptionStream.m_crypto s)
    (take (Z.to_nat (BlockDecryptionStream.m_writePos s))
       (BlockDecryptionStream.m_encrypedBuffer s)) = (c, out) ->
  Z.of_nat (length out) = BlockDecryptionStream.m_writePos s ->
  last out = Some b -> uint8_val b = 0 ->
  (exists s',
     BlockDecryptionStream.Flush s = Ret tt s' /\
     BlockDecryptionStream.m_readEnd s'
     = BlockDecryptionStream.m_readEnd s + BlockDecryptionStream.m_writePos s /\
     load (BlockDecryptionStream.m_buffer s')
       (BlockDecryptionStream.m_readEnd s) (BlockDecryptionStream.m_writePos s)
     = Some out /\
     BlockDecryptionStream.m_readPos s' = BlockDecryptionStream.m_readPos s /\
     BlockDecryptionStream.m_writePos s' = 0) /\
  (forall (e : BlockEncryptionStream.state W) (dataLen : Z),
     0 < BlockEncryptionStream.m_blockSize e -> 0 <= dataLen ->
     1 <= padLen (BlockEncryptionStream.m_blockSize e) dataLen /\
     (dataLen + padLen (BlockEncryptionStream.m_blockSize e) dataLen
      < TWN_ARRAY_SIZE
      <= Z.of_nat (length (BlockEncryptionStream.m_buffer e)) ->
      exists mem,
        BlockEncryptionStream.Pad 0 TWN_ARRAY_SIZE dataLen e
        = Ret (padLen (BlockEncryptionStream.m_blockSize e) dataLen)
            (BlockEncryptionStream.set_m_buffer mem e))).
Proof.
  intros HB Hw Hw' Hal He Hfit Hc Hlen Hl Hz. split.
  - destruct (store (BlockDecryptionStream.m_buffer s)
                (BlockDecryptionStream.m_readEnd s) out) as [mem|] eqn:Hs.
    2:{ rewrite store_Some in Hs by lia. discriminate. }
    pose proof (Flush_run s c out mem b HB ltac:(lia) ltac:(lia) Hal He Hc Hs Hl)
      as Hrun.
    cbv zeta in Hrun. rewrite Hlen, Hz in Hrun.
    rewrite (proj2 (Z.leb_le 0 _)) in Hrun by lia.
    eexists. split; [exact Hrun|]. simpl.
    repeat apply conj; auto; try lia.
    rewrite <- Hlen. apply (load_store_same _ _ _ _ Hs).
  - intros e dataLen HBe Hd.
    pose proof (padLen_range _ dataLen HBe) as Hp.
    split; [lia|]. intros [Hfit' Hlb].
    pose proof (padding_length _ ltac:(exact (proj1 Hp))) as Hpl.
    destruct (store (BlockEncryptionStream.m_buffer e) dataLen
                (padding (padLen (BlockEncryptionStream.m_blockSize e) dataLen)))
      as [mem|] eqn:Hs.
    2:{ rewrite store_Some in Hs by lia. discriminate. }
    exists mem. apply Pad_fits; assumption.
Qed.

End ZeroPaddingByte.

(** ** The chained cipher satisfies the contract *)

Lemma ChainCipher_length (c : ChainCipher.state) (data : list uint8_t) :
  length (snd (ChainCipher.Cipher c data)) = length data.
Proof.
  revert c. induction data as [|b rest IH]; intros c; simpl; [reflexivity|].
  rewrite IH. reflexivity.
Qed.

Lemma ChainCipher_length_preserving (B : Z) :
  length_preserving (H:=ChainCipher.crypto) B.
Proof. intros c data _. apply ChainCipher_length. Qed.

Lemma ChainCipher_app (c : ChainCipher.state) (x y : list uint8_t) :
  ChainCipher.Cipher c (x ++ y)
  = (fst (ChainCipher.Cipher (fst (ChainCipher.Cipher c x)) y),
     snd (ChainCipher.Cipher c x)
     ++ snd (ChainCipher.Cipher (fst (ChainCipher.Cipher c x)) y)).
Proof.
  revert c. induction x as [|b x IH]; intros c; simpl.
  - destruct (ChainCipher.Cipher c y); reflexivity.
  - rewrite IH. reflexivity.
Qed.

Lemma ChainCipher_chunking_independent (B : Z) :
  chunking_independent (H:=ChainCipher.crypto) B.
Proof. intros c x y _ _. apply ChainCipher_app. Qed.

Lemma static_cast_uint8_mod (z : Z) :
  static_cast_uint8 (z mod 256) = static_cast_uint8 z.
Proof. unfold static_cast_uint8. rewrite Z.mod_mod by lia. reflexivity. Qed.

Lemma ChainCipher_inverse (k : Z) (x : list uint8_t) : forall v : Z,
  snd (ChainCipher.Cipher
         {| ChainCipher.encrypting := false; ChainCipher.key := k;
            ChainCipher.chain := v |}
         (snd (ChainCipher.Cipher
                 {| ChainCipher.encrypting := true; ChainCipher.key := k;
                    ChainCipher.chain := v |} x)))
  = x.
Proof.
  induction x as [|b x IH]; intros v; simpl; [reflexivity|].
  rewrite IH. f_equal.
  rewrite uint8_val_cast, <- static_cast_uint8_mod.
  replace ((uint8_val b + k + v) mod 256 - k - v)
    with ((uint8_val b + k + v) mod 256 - (k + v)) by lia.
  rewrite Zminus_mod_idemp_l.
  replace (uint8_val b + k + v - (k + v)) with (uint8_val b) by lia.
  rewrite static_cast_uint8_mod. apply cast_uint8_val.
Qed.

Lemma ChainCipher_inverse_sessions (B k v : Z) :
  inverse_sessions (H:=ChainCipher.crypto) B
    {| ChainCipher.encrypting := true; ChainCipher.key := k;
       ChainCipher.chain := v |}
    {| ChainCipher.encrypting := false; ChainCipher.key := k;
       ChainCipher.chain := v |}.
Proof. intros x _. apply ChainCipher_inverse. Qed.

Lemma memory_sink_delivers : delivers (H:=memory_sink) (fun w => w).
Proof. intros data w. split; reflexivity. Qed.

(** The streaming [Decrypt] on a span whose length does not fit an
    [int]: from 2^31 bytes on (and below 2^32) the converted length is
    negative, and so is the count of the copy. *)
Lemma stream_Decrypt_wraps `{Crypto} (s : DecryptionStream.state)
    (span : list uint8_t) (rest : ReadStream.t) :
  DecryptionStream.m_source s = span :: rest ->
  2 ^ 31 <= Z.of_nat (length span) < 2 ^ 32 ->
  DecryptionStream.Decrypt s
  = Halt (Undefined OutOfBounds)
      (DecryptionStream.set_m_readPos 0 (DecryptionStream.set_m_readEnd 0 s)).
Proof.
  intros Hsrc Hlen.
  assert (static_cast_int (Z.of_nat (length span))
          = Z.of_nat (length span) - 2 ^ 32) as Hcast.
  { unfold static_cast_int.
    replace (Z.of_nat (length span) + 2 ^ 31)
      with (Z.of_nat (length span) - 2 ^ 31 + 1 * 2 ^ 32) by lia.
    rewrite Z.mod_add, Z.mod_small by lia. lia. }
  unfold DecryptionStream.Decrypt. run_monad. rewrite Hsrc.
  change (ReadStream.NextRead (span :: rest)) with (Some span).
  cbv beta iota. rewrite Hcast.
  assert (load span 0 (Z.min TWN_ARRAY_SIZE (Z.of_nat (length span) - 2 ^ 32))
          = None) as ->.
  { unfold load. destruct (in_array _ _ _) eqn:E; [|reflexivity].
    apply in_array_true in E. unfold TWN_ARRAY_SIZE in E. lia. }
  reflexivity.
Qed.

(** ** Concrete runs *)

Section Concrete.
#[local] Existing Instance ChainCipher.crypto.
#[local] Existing Instance memory_sink.

(** C4 does not hold for a block size of 256: the padding of a message
    of length 0 is 256 bytes long, and its last byte, which should have
    the value 256, is 0. *)
Lemma Pad_length_byte_wraps :
  let s := encryptor 256 in
  exists s',
    BlockEncryptionStream.Pad 0 TWN_ARRAY_SIZE 0 s = Ret 256 s' /\
    load (BlockEncryptionStream.m_buffer s') 0 256 = Some (replicate 256 x00) /\
    ~ (exists b, load (BlockEncryptionStream.m_buffer s') 255 1 = Some [b] /\
                 uint8_val b = 256).
Proof.
  eexists. split; [vm_compute; reflexivity|]. split; [vm_compute; reflexivity|].
  intros (b & _ & Hb). pose proof (uint8_val_range b). lia.
Qed.


(** C7 does not hold in the middle of a stream.  The source holds
    six blocks in two spans of three.  The pass on the first span
    transforms two blocks and withholds 16 bytes, which is not less
    than the block size; the loop of [Decrypt] ends after this pass
    with 32 bytes to read and the second span still in the source, so
    what follows on the decryptor is reading, not [Flush]. *)
Lemma Decrypt_pass_withholds_whole_block :
  let s := decryptor 16 [replicate 48 x01; replicate 48 x01] in
  exists s',
    BlockDecryptionStream.Decrypt_pass (replicate 48 x01) s = Ret 48 s' /\
    BlockDecryptionStream.Decrypt s = Ret true s' /\
    BlockDecryptionStream.GetAvailableRead s' = 32 /\
    BlockDecryptionStream.m_source s' = [replicate 48 x01] /\
    BlockDecryptionStream.GetUsedWrite s' = 16 /\
    ~ (BlockDecryptionStream.GetUsedWrite s'
       < BlockDecryptionStream.m_blockSize s').
Proof.
  intros s.
  exists (final (BlockDecryptionStream.Decrypt_pass (replicate 48 x01) s)).
  split; [vm_compute; reflexivity|].
  split; [vm_compute; reflexivity|]. split; [vm_compute; reflexivity|].
  split; [vm_compute; reflexivity|]. split; [vm_compute; reflexivity|].
  vm_compute. discriminate.
Qed.

(** C2 does not hold for every call.  [AdvanceRead] checks its count
    against the available bytes only from above: with the count -1 it
    succeeds, in a build whose assertions are fatal too, and leaves the
    read position at -1, before the window.  In a build whose
    assertions report, [BlockDecryptionStream::Flush] on five buffered
    bytes, a truncated block whose last byte decrypts to 16, takes 16
    bytes off a read-end of 5 and returns with read-end at -11.  And
    the streaming [Decrypt], given a span of 2^31 bytes, converts that
    length to the [int] -2^31 and copies with it as the count, beyond
    both arrays. *)
Lemma cursor_invariant_breaks :
  (exists s',
     DecryptionStream.AdvanceRead (H:=fatal_build) (-1) (stream_decryptor [])
     = Ret true s' /\
     DecryptionStream.m_readPos s' = -1) /\
  (exists s',
     BlockDecryptionStream.AdvanceRead (H:=fatal_build) (-1) (decryptor 16 [])
     = Ret true s' /\
     BlockDecryptionStream.m_readPos s' = -1) /\
  (let s := final (BlockDecryptionStream.Decrypt
                     (decryptor 16 [[x00; x00; x00; x00; x10]])) in
   BlockDecryptionStream.GetUsedWrite s = 5 /\
   exists s',
     BlockDecryptionStream.Flush (H:=reporting_build) s = Ret tt s' /\
     BlockDecryptionStream.m_readPos s' = 0 /\
     BlockDecryptionStream.m_readEnd s' = -11) /\
  (exists s',
     DecryptionStream.Decrypt
       (stream_decryptor [replicate (Z.to_nat (2 ^ 31)) x00])
     = Halt (Undefined OutOfBounds) s').
Proof.
  split; [|split; [|split]].
  - exists (final (DecryptionStream.AdvanceRead (H:=fatal_build) (-1)
                     (stream_decryptor []))).
    split; vm_compute; reflexivity.
  - exists (final (BlockDecryptionStream.AdvanceRead (H:=fatal_build) (-1)
                     (decryptor 16 []))).
    split; vm_compute; reflexivity.
  - intros s. split; [vm_compute; reflexivity|].
    exists (final (BlockDecryptionStream.Flush (H:=reporting_build) s)).
    split; [vm_compute; reflexivity|]. split; vm_compute; reflexivity.
  - eexists. eapply stream_Decrypt_wraps with (rest := []); [reflexivity|].
    rewrite length_replicate, Z2Nat.id by lia. lia.
Qed.

End Concrete.

(** ** Transforms in several calls *)

Section CipherFacts.
Context `{Crypto}.
Variable B : Z.
Hypothesis Hchunks : chunking_independent B.

Lemma ciphered_app (c : session) (x y : list uint8_t) :
  Z.of_nat (length x) mod B = 0 -> Z.of_nat (length y) mod B = 0 ->
  y <> [] ->
  ciphered c (x ++ y)
  = (fst (crypto_Cipher (fst (ciphered c x)) y),
     snd (ciphered c x) ++ snd (crypto_Cipher (fst (ciphered c x)) y)).
Proof.
  intros Hx Hy Hne. destruct x as [|b x]; simpl.
  - destruct y; [contradiction|]. simpl.
    destruct (crypto_Cipher c (u :: y)); reflexivity.
  - apply (Hchunks c (b :: x) y Hx Hy).
Qed.

(** Transforming [k] more bytes behind the first [t] of [ct]. *)
Lemma ciphered_step (d0 : session) (ct : list uint8_t) (t k : nat)
    (c : session) (out : list uint8_t) :
  Z.of_nat t mod B = 0 -> Z.of_nat k mod B = 0 -> (0 < k)%nat ->
  (t + k <= length ct)%nat ->
  crypto_Cipher (fst (ciphered d0 (take t ct))) (take k (drop t ct)) = (c, out) ->
  ciphered d0 (take (t + k) ct) = (c, snd (ciphered d0 (take t ct)) ++ out).
Proof.
  intros Ht Hk Hpos Hle Hc.
  assert (length (take t ct) = t) as Hlt by (rewrite length_take; lia).
  assert (length (take k (drop t ct)) = k) as Hlk
    by (rewrite length_take, length_drop; lia).
  rewrite <- take_take_drop, ciphered_app.
  - rewrite Hc. reflexivity.
  - rewrite Hlt. exact Ht.
  - rewrite Hlk. exact Hk.
  - intros Hnil. rewrite Hnil in Hlk. simpl in Hlk. lia.
Qed.

End CipherFacts.

(** ** The writing client *)

Section WriterFacts.
Context `{Build} `{Crypto} {W : Type} `{WriteStream W}.
Import BlockEncryptionStream.

Variable B : Z.
Variable contents : W -> list uint8_t.
Variable e0 : session.
Variable w0 : W.
Hypothesis HB : 0 < B.
Hypothesis Hlength : length_preserving B.
Hypothesis Hchunks : chunking_independent B.
Hypothesis Hsink : delivers contents.

#[local] Abbreviation written := (written B contents e0 w0).

Lemma aligned_part (total : Z) :
  0 <= total -> (total - total mod B) mod B = 0 /\
                0 <= total - total mod B <= total.
Proof.
  intros Ht. pose proof (Z.mod_pos_bound total B HB).
  pose proof (Z.mod_le total B Ht HB). split; [|lia].
  rewrite Zminus_mod_idemp_r, Z.sub_diag. apply Z.mod_0_l. lia.
Qed.

Lemma write_written (P chunk : list uint8_t) (s : state W) :
  written P s ->
  Z.of_nat (length chunk) <= TWN_ARRAY_SIZE - m_writePos s ->
  exists s',
    Client.write chunk s = Ret true s' /\ written (P ++ chunk) s' /\
    m_writePos s' = (m_writePos s + Z.of_nat (length chunk)) mod B.
Proof.
  intros ((Hlb & Hle & Hw) & HBs & a & Ha & Hal & Hpos & Hlt & Hcarry & Hsess & Hout)
         Hfit.
  set (r := (length P - a)%nat) in *.
  destruct (store (m_buffer s) (m_writePos s) chunk) as [mem|] eqn:Hs.
  2:{ rewrite store_Some in Hs by lia. discriminate. }
  pose proof (store_length _ _ _ _ Hs) as Hlm.
  assert (take (r + length chunk) mem = drop a (P ++ chunk)) as Hheld.
  { pose proof (take_store_append _ _ _ _ Hs) as Ht.
    rewrite Hpos, Nat2Z.id in Ht. rewrite Ht, Hcarry.
    rewrite drop_app_le by lia. reflexivity. }
  unfold Client.write, NextWrite. run_monad. rewrite Hs. simpl.
  set (s1 := set_m_buffer mem s).
  set (total := Z.of_nat (length chunk) + m_writePos s1).
  assert (total = Z.of_nat (r + length chunk)) as Htot
    by (unfold total; simpl; lia).
  destruct (Z_lt_le_dec total B) as [Hsmall|Hbig].
  - rewrite (AdvanceWrite_buffers s1) by (subst B; exact Hsmall).
    eexists. split; [reflexivity|]. split.
    + split; [|split; [exact HBs|]].
      { unfold Invariant.BlockEncryptionStream. simpl. lia. }
      exists a. simpl. rewrite length_app.
      replace (length P + length chunk - a)%nat with (r + length chunk)%nat
        by lia.
      rewrite take_app_le by lia.
      repeat apply conj; auto; lia.
    + simpl. rewrite Z.mod_small; lia.
  - destruct (aligned_part total ltac:(lia)) as [Hkal Hk].
    set (k := total - total mod B) in *.
    pose proof (Z.mod_pos_bound total B HB) as Hr.
    assert (take (Z.to_nat k) mem = take (Z.to_nat k) (drop a (P ++ chunk)))
      as Hblock.
    { rewrite <- Hheld, take_take. f_equal. lia. }
    destruct (crypto_Cipher (m_crypto s) (take (Z.to_nat k) mem))
      as [c out] eqn:Hc.
    assert (length (take (Z.to_nat k) mem) = Z.to_nat k) as Hlk
      by (rewrite length_take; lia).
    assert (length out = Z.to_nat k) as Hlo.
    { pose proof (Hlength (m_crypto s) (take (Z.to_nat k) mem)) as Hl.
      rewrite Hc in Hl. simpl in Hl. rewrite Hl; [exact Hlk|].
      rewrite Hlk. replace (Z.of_nat (Z.to_nat k)) with k by lia. exact Hkal. }
    pose proof (AdvanceWrite_transforms s1 (Z.of_nat (length chunk)) c out)
      as Hrun.
    cbv zeta in Hrun. fold total in Hrun. simpl in Hrun. rewrite HBs in Hrun.
    fold k in Hrun.
    rewrite Hrun; [|lia|lia|lia|exact Hc|lia]. clear Hrun.
    destruct (Hsink out (m_dest s)) as [Hok Hcont].
    cbv zeta. rewrite Hok.
    eexists. split; [reflexivity|]. split.
    + split; [|split; [exact HBs|]].
      { unfold Invariant.BlockEncryptionStream. simpl.
        rewrite !length_app, !length_take, !length_drop, Hlo. lia. }
      exists (a + Z.to_nat k)%nat. simpl. rewrite length_app.
      assert (Z.to_nat (total mod B)
              = (length P + length chunk - (a + Z.to_nat k))%nat) as Hrem
        by (unfold k; lia).
      rewrite <- Hrem.
      assert (take (a + Z.to_nat k) (P ++ chunk)
              = take a P ++ take (Z.to_nat k) mem) as Hsplit.
      { rewrite Hblock, <- take_take_drop.
        rewrite (take_app_le P chunk a) by lia. reflexivity. }
      assert (Z.of_nat (length (take a P)) mod B = 0) as Hala
        by (rewrite length_take; replace (a `min` length P)%nat with a by lia;
            exact Hal).
      assert (Z.of_nat (length (take (Z.to_nat k) mem)) mod B = 0) as Halk
        by (rewrite Hlk; replace (Z.of_nat (Z.to_nat k)) with k by lia;
            exact Hkal).
      assert (take (Z.to_nat k) mem <> []) as Hne
        by (intros Hnil; rewrite Hnil in Hlk; simpl in Hlk; lia).
      pose proof (ciphered_app B Hchunks e0 (take a P) (take (Z.to_nat k) mem)
                    Hala Halk Hne) as Hcat.
      rewrite <- Hsess, Hc in Hcat. simpl in Hcat.
      rewrite Hsplit, Hcat. simpl.
      repeat apply conj; try lia.
      * rewrite Nat2Z.inj_add, Z.add_mod, Hal by lia.
        replace (Z.of_nat (Z.to_nat k)) with k by lia.
        rewrite Hkal. reflexivity.
      * rewrite take_app_le
          by (rewrite length_take, length_drop; lia).
        rewrite take_take, Nat.min_id, take_drop_commute.
        replace (Z.to_nat k + Z.to_nat (total mod B))%nat
          with (r + length chunk)%nat by (unfold k; lia).
        rewrite Hheld, drop_drop. reflexivity.
      * reflexivity.
      * rewrite Hcont, Hout, app_assoc. reflexivity.
    + simpl. f_equal. unfold total. simpl. lia.
Qed.

Lemma write_all_written (chunks : list (list uint8_t)) :
  forall (P : list uint8_t) (s : state W),
    written P s -> within_spans B (m_writePos s) chunks ->
    exists s',
      Client.write_all chunks s = Ret true s' /\
      written (P ++ concat chunks) s'.
Proof.
  induction chunks as [|chunk rest IH]; intros P s Hw Hfit; simpl.
  - exists s. rewrite app_nil_r. split; [reflexivity|exact Hw].
  - destruct Hfit as [Hfit Hrest].
    destruct (write_written P chunk s Hw Hfit) as (s1 & Hrun & Hw1 & Hpos).
    rewrite <- Hpos in Hrest.
    destruct (IH (P ++ chunk) s1 Hw1 Hrest) as (s' & Hrun' & Hw').
    exists s'. unfold bind. rewrite Hrun, Hrun', app_assoc.
    split; [reflexivity|exact Hw'].
Qed.

Lemma padLen_mod (n : Z) : padLen B (n mod B) = padLen B n.
Proof. unfold padLen. rewrite Z.mod_mod by lia. reflexivity. Qed.

Lemma Flush_written (P : list uint8_t) (s : state W) :
  written P s -> B < TWN_ARRAY_SIZE ->
  exists s',
    Flush s = Ret tt s' /\
    contents (m_dest s')
    = contents w0
      ++ snd (crypto_Cipher e0
                (P ++ padding (padLen B (Z.of_nat (length P))))).
Proof.
  intros ((Hlb & Hle & Hw) & HBs & a & Ha & Hal & Hpos & Hlt & Hcarry & Hsess & Hout)
         Hcap.
  set (r := (length P - a)%nat) in *.
  assert (Z.of_nat (length P) mod B = Z.of_nat r) as Hmod.
  { replace (Z.of_nat (length P)) with (Z.of_nat r + Z.of_nat a) by lia.
    rewrite Z.add_mod, Hal, Z.add_0_r, Z.mod_mod by lia.
    apply Z.mod_small. lia. }
  assert (padLen B (Z.of_nat (length P)) = B - Z.of_nat r) as Hp
    by (unfold padLen; rewrite Hmod; reflexivity).
  assert (padLen (m_blockSize s) (m_writePos s) = B - Z.of_nat r) as Hp'.
  { rewrite HBs, Hpos. unfold padLen. rewrite Z.mod_small by lia. reflexivity. }
  set (p := B - Z.of_nat r) in *.
  pose proof (padding_length p ltac:(lia)) as Hpl.
  destruct (store (m_buffer s) (m_writePos s) (padding p)) as [mem|] eqn:Hs.
  2:{ rewrite store_Some in Hs by lia. discriminate. }
  set (tail := take (Z.to_nat (m_writePos s)) (m_buffer s) ++ padding p).
  assert (tail = drop a P ++ padding p) as Htail
    by (unfold tail; rewrite Hpos, Nat2Z.id, Hcarry; reflexivity).
  assert (Z.of_nat (length tail) = B) as Hlt'.
  { rewrite Htail, length_app, length_drop. fold r. lia. }
  destruct (crypto_Cipher (m_crypto s) tail) as [c out] eqn:Hc.
  assert (length out = length tail) as Hlo.
  { pose proof (Hlength (m_crypto s) tail) as Hl. rewrite Hc in Hl.
    apply Hl. rewrite Hlt'. apply Z.mod_same. lia. }
  pose proof (Flush_pads s c out mem) as Hrun. cbv zeta in Hrun.
  rewrite Hp' in Hrun. fold tail in Hrun.
  rewrite Hrun; [|lia|lia|lia|exact Hs|exact Hc|lia]. clear Hrun.
  destruct (Hsink out (m_dest s)) as [Hok Hcont].
  cbv zeta. eexists. split; [reflexivity|]. simpl.
  rewrite Hcont, Hout, Hp.
  assert (Z.of_nat (length (take a P)) mod B = 0) as Hala
    by (rewrite length_take; replace (a `min` length P)%nat with a by lia;
        exact Hal).
  assert (tail <> []) as Hne
    by (intros Hnil; rewrite Hnil in Hlt'; simpl in Hlt'; lia).
  pose proof (ciphered_app B Hchunks e0 (take a P) tail Hala
                ltac:(rewrite Hlt'; apply Z.mod_same; lia) Hne) as Hcat.
  rewrite <- Hsess, Hc in Hcat. simpl in Hcat.
  rewrite Htail, app_assoc, take_drop in Hcat.
  assert (ciphered e0 (P ++ padding p) = crypto_Cipher e0 (P ++ padding p))
    as Hci.
  { destruct (P ++ padding p) eqn:E; [|reflexivity].
    apply (f_equal length) in E. rewrite length_app in E. simpl in E. lia. }
  rewrite <- Hci, Hcat. simpl. rewrite app_assoc. reflexivity.
Qed.

(** The whole writing side: the sink receives the transform of the
    padded plaintext. *)
Lemma encrypt_delivers (chunks : list (list uint8_t)) (s : state W) :
  written [] s -> within_spans B 0 chunks -> B < TWN_ARRAY_SIZE ->
  exists s',
    Client.encrypt chunks s = Ret true s' /\
    contents (m_dest s')
    = contents w0
      ++ snd (crypto_Cipher e0
                (concat chunks
                 ++ padding (padLen B (Z.of_nat (length (concat chunks)))))).
Proof.
  intros Hw Hfit Hcap.
  assert (m_writePos s = 0) as Hpos.
  { destruct Hw as (_ & _ & a & _ & _ & Hpos & _). simpl in Hpos. lia. }
  rewrite <- Hpos in Hfit.
  destruct (write_all_written chunks [] s Hw Hfit) as (s1 & Hrun & Hw1).
  simpl in Hw1.
  destruct (Flush_written (concat chunks) s1 Hw1 Hcap) as (s' & Hrun' & Hcont).
  exists s'. unfold Client.encrypt, bind. rewrite Hrun, Hrun'.
  split; [reflexivity|exact Hcont].
Qed.

End WriterFacts.

(** ** The reading client *)

Section ReaderFacts.
Context `{Build} `{Crypto}.
Import BlockDecryptionStream.

Variable B : Z.
Variable d0 : session.
Variable ct : list uint8_t.
Hypothesis HB : 0 < B.
Hypothesis Hlength : length_preserving B.
Hypothesis Hchunks : chunking_independent B.

Lemma held_appended (s : state) (buffer : list uint8_t) :
  0 <= m_writePos s <= TWN_ARRAY_SIZE ->
  Z.of_nat (length (m_encrypedBuffer s)) = TWN_ARRAY_SIZE ->
  take (Z.to_nat (m_writePos s + pulled s buffer)) (appended s buffer)
  = held s ++ take (Z.to_nat (pulled s buffer)) buffer.
Proof.
  intros Hw Hle.
  pose proof (pulled_range s buffer Hw) as (Hl & Hfit & Hlt).
  unfold appended, held.
  replace (Z.to_nat (m_writePos s + pulled s buffer))
    with (Z.to_nat (m_writePos s) + Z.to_nat (pulled s buffer))%nat by lia.
  rewrite take_app_add' by (rewrite length_take; lia).
  rewrite <- Hlt at 1. rewrite take_app_length. reflexivity.
Qed.

Lemma decrypting_pass (t p0 : nat) (s : state) (buffer : list uint8_t)
    (rest : ReadStream.t) :
  decrypting B d0 ct t p0 s -> continues s = true -> m_source s = buffer :: rest ->
  exists s', Decrypt_pass buffer s = Ret (pulled s buffer) s' /\
             decrypting B d0 ct t p0 s' /\
             m_source s'
             = ReadStream.AdvanceRead (pulled s buffer) (m_source s) /\
             0 <= pulled s buffer <= Z.of_nat (length buffer).
Proof.
  intros (((Hlb & Hle & Hr & Hw & Hsum) & HBs & Hpos & Hend) & Hp0 & Hnone
          & t' & (_ & _ & Ht & Hleft & Hused & Hheld & Hsess) & Ht' & Hplain)
         Hc Hsrc.
  unfold continues, GetAvailableRead in Hc.
  apply andb_true_iff in Hc as [_ Hc]. apply Z.ltb_lt in Hc.
  assert (m_readEnd s = 0) as He by lia.
  assert (t' = t) as -> by lia. clear Ht' Hnone Hend.
  pose proof (pulled_range s buffer ltac:(lia)) as (Hl & Hfit & Hlt).
  set (len := pulled s buffer) in *.
  set (used := m_writePos s + len).
  pose proof (held_appended s buffer ltac:(lia) Hle) as Hprefix.
  fold len in Hprefix. fold used in Hprefix.
  assert (length (appended s buffer) = length (m_encrypedBuffer s)) as Hla.
  { unfold appended. fold len.
    rewrite !length_app, length_take, length_drop, Hlt. lia. }
  assert (length (held s) = Z.to_nat (m_writePos s)) as Hlh
    by (unfold held; rewrite length_take; lia).
  assert (ReadStream.pending (m_source s)
          = buffer ++ ReadStream.pending rest) as Hpend
    by (rewrite Hsrc; reflexivity).
  assert (drop t ct
          = (held s ++ take (Z.to_nat len) buffer)
            ++ drop (Z.to_nat len) buffer ++ ReadStream.pending rest) as Hct.
  { rewrite <- Hheld, Hpend, <- !app_assoc. f_equal.
    rewrite app_assoc, take_drop. reflexivity. }
  assert (Z.of_nat (length ct) - Z.of_nat t >= used) as Hroom.
  { apply (f_equal length) in Hct.
    rewrite length_drop, !length_app, Hlh, Hlt in Hct. unfold used. lia. }
  assert (ReadStream.pending (ReadStream.AdvanceRead len (m_source s))
          = drop (Z.to_nat len) buffer ++ ReadStream.pending rest) as Hpend'
    by (rewrite Hsrc; apply AdvanceRead_pending).
  assert (length (ReadStream.pending (ReadStream.AdvanceRead len (m_source s)))
          = (length (ReadStream.pending (m_source s)) - Z.to_nat len)%nat)
    as Hshrink.
  { rewrite Hpend', Hpend, !length_app, length_drop. lia. }
  pose proof (decryptable_pos used B HB ltac:(unfold used; lia)) as Hkpos.
  destruct (Z_lt_le_dec used (2 * B)) as [Hsmall|Hbig].
  - eexists. split.
    { apply Decrypt_pass_accumulates; try lia.
      rewrite HBs. fold len. fold used. lia. }
    fold len. simpl. split; [|split; [reflexivity|exact Hl]].
    split; [|split; [|split]].
    + unfold in_loop, Invariant.BlockDecryptionStream. simpl.
      rewrite Hla. repeat apply conj; auto; lia.
    + simpl. lia.
    + left. exact He.
    + exists t. simpl. split; [|split; [lia|exact Hplain]].
      unfold reading, Invariant.BlockDecryptionStream, held. simpl.
      rewrite Hla. fold used. rewrite Hprefix, Hpend', <- Hct.
      repeat apply conj; auto; lia.
  - apply Hkpos in Hbig as Hk.
    destruct (decryptable_ge used B HB Hbig) as [HkB Hsplit].
    pose proof (decryptable_aligned used B HB) as Hkal.
    pose proof (Z.mod_pos_bound used B HB) as Hrem.
    set (k := decryptable used B) in *.
    assert (take (Z.to_nat k) (appended s buffer)
            = take (Z.to_nat k) (drop t ct)) as Hblock.
    { rewrite Hct, take_app_le by (rewrite length_app, Hlh, Hlt; unfold used in *; lia).
      rewrite <- Hprefix, take_take. f_equal. lia. }
    destruct (crypto_Cipher (m_crypto s) (take (Z.to_nat k) (appended s buffer)))
      as [c out] eqn:Hcipher.
    assert (length out = Z.to_nat k) as Hlo.
    { pose proof (Hlength (m_crypto s) (take (Z.to_nat k) (appended s buffer)))
        as Hlen.
      rewrite Hcipher, length_take in Hlen. simpl in Hlen.
      rewrite Hlen; [lia|].
      replace (Z.of_nat (Z.to_nat k `min` length (appended s buffer)))
        with k by lia.
      exact Hkal. }
    pose proof (ciphered_step B Hchunks d0 ct t (Z.to_nat k) c out Ht
                  ltac:(replace (Z.of_nat (Z.to_nat k)) with k by lia; exact Hkal)
                  ltac:(lia) ltac:(lia)) as Hstep.
    rewrite <- Hsess, <- Hblock in Hstep. specialize (Hstep Hcipher).
    eexists. split.
    { apply (Decrypt_pass_transforms s buffer c out); try lia.
      - rewrite HBs. fold len. fold used. fold k. exact Hk.
      - rewrite HBs. fold len. fold used. fold k. exact Hcipher. }
    fold len. rewrite HBs. fold used. fold k.
    split; [|split; [reflexivity|exact Hl]].
    assert (used - k = used mod B + B) as Hwith by lia.
    split; [|split; [|split]].
    + unfold in_loop, Invariant.BlockDecryptionStream. simpl.
      rewrite !length_app, !length_take, !length_drop, Hla, Hlo.
      repeat apply conj; auto; lia.
    + simpl. lia.
    + right. simpl. rewrite Hshrink.
      assert (0 < len) by (unfold used in *; lia).
      assert (Z.to_nat len <= length (ReadStream.pending (m_source s)))%nat
        by (rewrite Hpend, length_app; lia).
      lia.
    + exists (t + Z.to_nat k)%nat. simpl.
      split; [|split; [lia|]].
      * unfold reading, Invariant.BlockDecryptionStream, held. simpl.
        rewrite !length_app, !length_take, !length_drop, Hla, Hlo.
        rewrite Hstep. simpl.
        assert (take (Z.to_nat (used - k))
                  (take (Z.to_nat (used - k))
                     (drop (Z.to_nat k) (appended s buffer))
                   ++ drop (Z.to_nat (used - k)) (appended s buffer))
                = drop (Z.to_nat k)
                    (held s ++ take (Z.to_nat len) buffer)) as Hheld'.
        { rewrite take_app_le by (rewrite length_take, length_drop; lia).
          rewrite take_take, Nat.min_id, take_drop_commute.
          replace (Z.to_nat k + Z.to_nat (used - k))%nat with (Z.to_nat used)
            by lia.
          rewrite Hprefix. reflexivity. }
        rewrite Hheld', Hpend'.
        rewrite <- drop_app_le
          by (rewrite length_app, Hlh, Hlt; unfold used in *; lia).
        rewrite <- Hct, drop_drop.
        repeat apply conj; auto; try lia.
        rewrite Nat2Z.inj_add, Z2Nat.id by lia.
        rewrite Z.add_mod, Ht, Hkal by lia. reflexivity.
      * rewrite Hstep, Nat2Z.id. simpl.
        rewrite take_app_length. reflexivity.
Qed.

Lemma Decrypt_reading (t : nat) (s : state) :
  reading B d0 ct t s ->
  exists b s',
    Decrypt s = Ret b s' /\
    decrypting B d0 ct t (length (ReadStream.pending (m_source s))) s' /\
    (continues s' = false \/ m_source s' = []) /\
    (b = true <->
     (length (ReadStream.pending (m_source s'))
      < length (ReadStream.pending (m_source s)))%nat) /\
    (length (m_source s') <= length (m_source s))%nat.
Proof.
  intros ((Hlb & Hle & Hr & Hw & Hsum) & HBs & Ht & Hleft & Hused & Hheld & Hsess).
  unfold Decrypt, bind, modify, gets, ret. cbv beta iota.
  set (s0 := set_m_readPos 0 (set_m_readEnd 0 s)).
  change (m_source s0) with (m_source s).
  assert (decrypting B d0 ct t (length (ReadStream.pending (m_source s))) s0)
    as HI.
  { split; [|split; [|split]].
    - unfold in_loop, Invariant.BlockDecryptionStream. simpl.
      repeat apply conj; auto; lia.
    - simpl. lia.
    - left. reflexivity.
    - exists t. simpl. rewrite app_nil_r. split; [|split; [lia|reflexivity]].
      unfold reading, Invariant.BlockDecryptionStream. simpl.
      repeat apply conj; auto; lia. }
  destruct (Decrypt_loop_rule
              (decrypting B d0 ct t (length (ReadStream.pending (m_source s))))
              (decrypting_pass t _)
              (S (ReadStream.size (m_source s))) 0 s0 HI
              ltac:(simpl; lia))
    as (s' & n & Hloop & HI' & Hexit & Hn & Hcount & Hspans).
  rewrite Hloop. simpl in Hcount, Hspans.
  exists (0 <? n), s'.
  split; [reflexivity|]. split; [exact HI'|]. split; [exact Hexit|].
  split; [|exact Hspans]. split.
  - intros Hb. apply Z.ltb_lt in Hb. lia.
  - intros Hlt. apply Z.ltb_lt. lia.
Qed.

Lemma Decrypt_exhausted (s : state) :
  m_source s = [] ->
  Decrypt s = Ret false (set_m_readPos 0 (set_m_readEnd 0 s)).
Proof.
  intros Hsrc. unfold Decrypt. run_monad. rewrite Hsrc. simpl. run_monad.
  destruct (_ && _); simpl; rewrite ?Hsrc; reflexivity.
Qed.

(** [NextRead] on an empty window is [Decrypt]. *)
Lemma NextRead_empty (s : state) :
  GetAvailableRead s = 0 ->
  NextRead s
  = match Decrypt s with
    | Ret true s' =>
        Ret (Some {| GetData := m_readPos s';
                     GetDataLen := m_readEnd s' - m_readPos s' |}) s'
    | Ret false s' => Ret None s'
    | Halt f s' => Halt f s'
    end.
Proof.
  intros Hav. unfold NextRead. unfold bind at 1. unfold gets at 1.
  unfold bind at 1. rewrite Hav. simpl.
  destruct (Decrypt s) as [[|] s'|f s']; reflexivity.
Qed.

Lemma NextRead_window (s : state) :
  GetAvailableRead s <> 0 ->
  NextRead s
  = Ret (Some {| GetData := m_readPos s;
                 GetDataLen := m_readEnd s - m_readPos s |}) s.
Proof.
  intros Hav. unfold NextRead. run_monad.
  destruct (Z.eqb_spec (GetAvailableRead s) 0); [contradiction|]. reflexivity.
Qed.

Lemma source_smaller (src src' : ReadStream.t) :
  (length (ReadStream.pending src') < length (ReadStream.pending src))%nat ->
  (length src' <= length src)%nat ->
  (ReadStream.size src' < ReadStream.size src)%nat.
Proof. unfold ReadStream.size, ReadStream.pending. lia. Qed.

Lemma drain_reading (fuel : nat) : forall (s : state) (t : nat),
  2 * B <= TWN_ARRAY_SIZE ->
  reading B d0 ct t s -> GetAvailableRead s = 0 ->
  (ReadStream.size (m_source s) < fuel)%nat ->
  exists s' t',
    Client.drain fuel (snd (ciphered d0 (take t ct))) s
    = Ret (snd (ciphered d0 (take t' ct))) s' /\
    reading B d0 ct t' s' /\ m_source s' = [] /\
    m_readPos s' = 0 /\ m_readEnd s' = 0.
Proof.
  induction fuel as [|fuel IH]; intros s t Hcap Hread Hav Hfuel; [lia|].
  destruct (Decrypt_reading t s Hread)
    as (b & s1 & Hrun & (Hloop & Hp0 & Hnone & t' & Hread' & Ht' & Hplain)
        & Hexit & Hb & Hspans).
  destruct Hloop as ((Hlb & Hle & Hr & Hw & Hsum) & HBs & Hpos & Hend).
  simpl. unfold bind at 1. rewrite (NextRead_empty s Hav), Hrun.
  destruct b.
  - run_monad. rewrite Hpos, Z.sub_0_r.
    rewrite load_prefix by lia. simpl.
    rewrite block_AdvanceRead_run. unfold GetAvailableRead.
    rewrite Hpos, Z.sub_0_r, Z.leb_refl. simpl.
    rewrite <- Hplain.
    set (s2 := set_m_readPos (0 + m_readEnd s1) s1).
    assert (reading B d0 ct t' s2) as Hread2.
    { destruct Hread' as (_ & H1' & H2' & H3' & H4' & H5' & H6').
      unfold reading, Invariant.BlockDecryptionStream. simpl.
      repeat apply conj; auto; lia. }
    destruct (IH s2 t' Hcap Hread2) as (s' & t'' & Hdrain & Hfinal).
    + unfold GetAvailableRead. simpl. lia.
    + simpl. apply proj1 in Hb. specialize (Hb eq_refl).
      pose proof (source_smaller _ _ Hb Hspans). lia.
    + exists s', t''. split; [exact Hdrain|exact Hfinal].
  - simpl.
    assert (m_readEnd s1 = 0) as He.
    { destruct Hnone as [He|Hlt]; [exact He|].
      apply (proj2 Hb) in Hlt. discriminate. }
    assert (t' = t) as -> by lia.
    exists s1, t. split; [reflexivity|]. split; [exact Hread'|].
    split; [|split; [exact Hpos|exact He]].
    destruct Hexit as [Hcont|Hsrc]; [|exact Hsrc].
    unfold continues, GetAvailableWrite, GetUsedWrite, GetAvailableRead in Hcont.
    destruct Hread' as (_ & _ & _ & _ & Hused & _).
    apply andb_false_iff in Hcont as [Hcont|Hcont].
    + apply Z.ltb_ge in Hcont. lia.
    + apply Z.ltb_ge in Hcont. lia.
Qed.

(** What is left to read once the source is exhausted. *)
Lemma drain_exhausted (acc : list uint8_t) (s : state) :
  m_source s = [] ->
  0 <= m_readPos s <= m_readEnd s ->
  m_readEnd s <= Z.of_nat (length (m_buffer s)) ->
  exists s',
    Client.drain 2 acc s
    = Ret (acc ++ take (Z.to_nat (m_readEnd s - m_readPos s))
                    (drop (Z.to_nat (m_readPos s)) (m_buffer s))) s'.
Proof.
  intros Hsrc Hr He.
  destruct (Z.eq_dec (GetAvailableRead s) 0) as [Hav|Hav].
  - simpl. unfold bind at 1.
    rewrite (NextRead_empty s Hav), (Decrypt_exhausted s Hsrc). simpl.
    unfold GetAvailableRead in Hav. rewrite Hav. simpl.
    rewrite app_nil_r. eexists. reflexivity.
  - simpl. unfold bind at 1. rewrite (NextRead_window s Hav).
    run_monad. rewrite load_Some by lia. simpl.
    rewrite block_AdvanceRead_run. unfold GetAvailableRead.
    rewrite Z.leb_refl. simpl.
    set (s1 := set_m_readPos _ s).
    assert (GetAvailableRead s1 = 0) as Hav1
      by (unfold GetAvailableRead; simpl; lia).
    rewrite (NextRead_empty s1 Hav1), (Decrypt_exhausted s1 Hsrc).
    eexists. reflexivity.
Qed.

(** The whole reading side: the reader gets the transform of the
    ciphertext without its padding. *)
Lemma decrypt_reads_back (P : list uint8_t) (p : Z) (s : state) :
  B <= 255 -> 1 <= p <= B ->
  Z.of_nat (length ct) mod B = 0 ->
  Z.of_nat (length ct) = Z.of_nat (length P) + p ->
  snd (crypto_Cipher d0 ct) = P ++ padding p ->
  Invariant.BlockDecryptionStream s -> m_blockSize s = B ->
  m_writePos s = 0 -> GetAvailableRead s = 0 -> m_crypto s = d0 ->
  ReadStream.pending (m_source s) = ct ->
  exists s', Client.decrypt s = Ret P s'.
Proof.
  intros HB255 Hp Hal Hlen Hinv HI HBs Hw0 Hav Hsess Hpend.
  assert (B <= Z.of_nat (length ct)) as Hone.
  { apply Z.mod_divide in Hal; [|lia]. destruct Hal as [q Hq].
    assert (0 < q) by nia. nia. }
  assert (reading B d0 ct 0 s) as Hread.
  { unfold reading, held. rewrite Hw0. simpl.
    split; [exact HI|]. split; [exact HBs|].
    split; [apply Z.mod_0_l; lia|]. split; [lia|]. split; [lia|].
    split; [exact Hpend|exact Hsess]. }
  unfold Client.decrypt. unfold bind at 1. unfold gets at 1.
  unfold bind at 1.
  destruct (drain_reading (S (ReadStream.size (m_source s))) s 0
              ltac:(unfold TWN_ARRAY_SIZE; lia) Hread Hav ltac:(lia))
    as (s1 & t & Hdrain & Hread1 & Hsrc1 & Hpos1 & Hend1).
  change (snd (ciphered d0 (take 0 ct))) with (@nil uint8_t) in Hdrain.
  rewrite Hdrain. clear Hdrain.
  destruct Hread1 as ((Hlb & Hle & Hr & Hw & Hsum) & HBs1 & Ht & Hleft & Hused
                      & Hheld & Hsess1).
  rewrite Hsrc1 in Hheld. simpl in Hheld. rewrite app_nil_r in Hheld.
  assert (m_writePos s1 = B) as Hused1.
  { apply (f_equal length) in Hheld. unfold held in Hheld.
    rewrite length_take, length_drop in Hheld.
    assert (m_writePos s1 = Z.of_nat (length ct) - Z.of_nat t) as Hu by lia.
    assert (m_writePos s1 mod B = 0) as Hm.
    { rewrite Hu, Zminus_mod, Hal, Ht. apply Z.mod_0_l. lia. }
    apply Z.mod_divide in Hm; [|lia]. destruct Hm as [q Hq].
    assert (q = 1) by nia. lia. }
  set (k := Z.to_nat B).
  assert (take k (drop t ct) = held s1) as Hblock.
  { rewrite <- Hheld. unfold held, k. rewrite Hused1, take_take.
    f_equal. lia. }
  destruct (crypto_Cipher (m_crypto s1) (held s1)) as [c out] eqn:Hc.
  assert (length (held s1) = k) as Hlh.
  { unfold held. rewrite length_take. unfold k. lia. }
  assert (length out = k) as Hlo.
  { pose proof (Hlength (m_crypto s1) (held s1)) as Hl. rewrite Hc in Hl.
    simpl in Hl. rewrite Hl; [exact Hlh|].
    rewrite Hlh. unfold k. rewrite Z2Nat.id by lia. apply Z.mod_same. lia. }
  assert ((t + k = length ct)%nat) as Hall.
  { apply (f_equal length) in Hheld. rewrite Hlh, length_drop in Hheld.
    unfold k in *. lia. }
  pose proof (ciphered_step B Hchunks d0 ct t k c out Ht
                ltac:(unfold k; rewrite Z2Nat.id by lia; apply Z.mod_same; lia)
                ltac:(unfold k; lia) ltac:(lia)) as Hstep.
  rewrite <- Hsess1, Hblock in Hstep. specialize (Hstep Hc).
  rewrite Hall, take_ge in Hstep by lia.
  assert (ciphered d0 ct = crypto_Cipher d0 ct) as Hci.
  { destruct ct; [simpl in Hone; lia|reflexivity]. }
  rewrite Hci in Hstep.
  assert (snd (ciphered d0 (take t ct)) ++ out = P ++ padding p) as Hsplit
    by (rewrite <- Hinv, Hstep; reflexivity).
  set (acc := snd (ciphered d0 (take t ct))) in *.
  assert (last out = Some (static_cast_uint8 p)) as Hlast.
  { assert (out <> []) as Hne
      by (intros Hnil; rewrite Hnil in Hlo; unfold k in Hlo; simpl in Hlo; lia).
    pose proof (last_app acc out) as Hla.
    destruct (last out) as [b|] eqn:El; [|apply last_None in El; contradiction].
    rewrite Hsplit in Hla. unfold padding in Hla.
    rewrite app_assoc, last_snoc in Hla. congruence. }
  assert (uint8_val (static_cast_uint8 p) = p) as Hval
    by (rewrite uint8_val_cast; apply Z.mod_small; lia).
  destruct (store (m_buffer s1) (m_readEnd s1) out) as [mem|] eqn:Hs.
  2:{ rewrite store_Some in Hs by (unfold k in *; lia). discriminate. }
  pose proof (Flush_run s1 c out mem (static_cast_uint8 p)) as Hflush.
  rewrite HBs1, Hval in Hflush. cbv zeta in Hflush.
  rewrite (proj2 (Z.leb_le p B)) in Hflush by lia.
  unfold bind at 1.
  rewrite Hflush;
    [|lia|lia|unfold TWN_ARRAY_SIZE; lia|rewrite Hused1; apply Z.mod_same; lia
     |lia|exact Hc|exact Hs|exact Hlast].
  clear Hflush. unfold bind at 1. unfold gets at 1. cbv beta iota.
  set (s2 := set_m_writePos 0 _).
  assert (m_source s2 = []) as Hsrc2 by exact Hsrc1.
  rewrite Hsrc2.
  change (S (S (ReadStream.size []))) with 2%nat.
  pose proof (store_length _ _ _ _ Hs) as Hlm.
  destruct (drain_exhausted acc s2 Hsrc2) as (s' & Hfin).
  { simpl. unfold k in *. lia. }
  { simpl. unfold k in *. lia. }
  exists s'. rewrite Hfin. f_equal. simpl.
  rewrite Hpos1, Hend1. change (Z.to_nat 0) with 0%nat. rewrite drop_0.
  apply store_inv in Hs as (_ & _ & ->). rewrite Hend1. simpl.
  rewrite take_app_le by (unfold k in *; lia).
  replace (Z.to_nat (0 + Z.of_nat (length out) - p - 0))
    with (length out - Z.to_nat p)%nat by lia.
  assert (length acc + length out = length P + Z.to_nat p)%nat as Hlens.
  { apply (f_equal length) in Hsplit. rewrite !length_app in Hsplit.
    pose proof (padding_length p ltac:(lia)). lia. }
  assert (take (length P) (acc ++ out) = P) as Htake
    by (rewrite Hsplit; apply take_app_length).
  rewrite take_app_ge in Htake by (unfold k in *; lia).
  replace (length P - length acc)%nat with (length out - Z.to_nat p)%nat
    in Htake by (unfold k in *; lia).
  exact Htake.
Qed.

End ReaderFacts.

(** ** Round trip *)

Section RoundTrip.
Context `{Build} `{Crypto} {W : Type} `{WriteStream W}.

(** C1.  For a block size [B] from 1 to 255 (the padding length has to
    fit the padding-length byte) and a cipher that is length-preserving
    and independent of the chunking on whole blocks, with a decrypting
    session that inverts the encrypting one: writing any plaintext, in
    any sequence of [AdvanceWrite] calls that respects the spans
    offered, followed by one [Flush], delivers a ciphertext [ct] of
    whole blocks to the sink; and a fresh decryptor over any source that
    holds [ct], in whatever spans, read with [NextRead]/[AdvanceRead]
    until exhausted, then [Flush], then read again, yields exactly the
    plaintext.  The plaintext is arbitrary: its length may be 0, B-1,
    B, B+1, a multiple of B, more than the window. *)
Theorem round_trip (B : Z) (contents : W -> list uint8_t)
    (chunks : list (list uint8_t)) (e : BlockEncryptionStream.state W)
    (d0 : session) :
  0 < B <= 255 ->
  length_preserving B -> chunking_independent B ->
  inverse_sessions B (BlockEncryptionStream.m_crypto e) d0 ->
  delivers contents ->
  Invariant.BlockEncryptionStream e ->
  BlockEncryptionStream.m_blockSize e = B ->
  BlockEncryptionStream.m_writePos e = 0 ->
  within_spans B 0 chunks ->
  exists e' ct,
    Client.encrypt chunks e = Ret true e' /\
    contents (BlockEncryptionStream.m_dest e')
    = contents (BlockEncryptionStream.m_dest e) ++ ct /\
    Z.of_nat (length ct) mod B = 0 /\
    (length (concat chunks) < length ct)%nat /\
    forall d : BlockDecryptionStream.state,
      Invariant.BlockDecryptionStream d ->
      BlockDecryptionStream.m_blockSize d = B ->
      BlockDecryptionStream.m_crypto d = d0 ->
      BlockDecryptionStream.m_writePos d = 0 ->
      BlockDecryptionStream.GetAvailableRead d = 0 ->
      ReadStream.pending (BlockDecryptionStream.m_source d) = ct ->
      exists d', Client.decrypt d = Ret (concat chunks) d'.
Proof.
  intros [HB HB255] Hlength Hchunks Hinverse Hsink HI HBs Hpos Hfit.
  set (P := concat chunks).
  set (p := padLen B (Z.of_nat (length P))).
  pose proof (padLen_range B (Z.of_nat (length P)) HB) as Hp. fold p in Hp.
  pose proof (padLen_aligned B (Z.of_nat (length P)) HB) as Hal. fold p in Hal.
  pose proof (padding_length p ltac:(lia)) as Hpl.
  assert (written B contents (BlockEncryptionStream.m_crypto e)
            (BlockEncryptionStream.m_dest e) [] e) as Hw.
  { split; [exact HI|]. split; [exact HBs|]. exists 0%nat. simpl.
    rewrite app_nil_r, Hpos.
    repeat apply conj; auto; lia. }
  destruct (encrypt_delivers B contents _ _ HB Hlength Hchunks Hsink chunks e
              Hw Hfit ltac:(unfold TWN_ARRAY_SIZE; lia))
    as (e' & Hrun & Hcont).
  fold P in Hcont. fold p in Hcont.
  set (ct := snd (crypto_Cipher (BlockEncryptionStream.m_crypto e)
                    (P ++ padding p))) in *.
  assert (Z.of_nat (length (P ++ padding p)) mod B = 0) as Hpad
    by (rewrite length_app, Nat2Z.inj_add, Hpl; exact Hal).
  assert (length ct = length (P ++ padding p)) as Hlct
    by (apply Hlength; exact Hpad).
  exists e', ct. split; [exact Hrun|]. split; [exact Hcont|].
  split; [rewrite Hlct; exact Hpad|].
  split; [rewrite Hlct, length_app; lia|].
  intros d HId HBd Hsess Hwd Hav Hpend.
  apply (decrypt_reads_back B d0 ct HB Hlength Hchunks P p d); auto.
  - rewrite Hlct. exact Hpad.
  - rewrite Hlct, length_app. lia.
  - apply Hinverse. exact Hpad.
Qed.

End RoundTrip.

(** ** AdvanceWrite and the concrete scenario *)

Section AdvanceWriteClaim.
Context `{Build} `{Crypto} {W : Type} `{WriteStream W}.
#[local] Existing Instance memory_sink.
Import BlockEncryptionStream.

(** C5.  [AdvanceWrite n] with [total = n + accumulated]: below the
    block size it only advances the write cursor by [n] and succeeds,
    nothing is transformed or forwarded.  From the block size on,
    exactly [aligned = total - total mod B] bytes of the accumulation
    buffer are transformed into the output buffer and forwarded to the
    sink, whose answer is the result; the [remainder = total - aligned]
    bytes behind them are copied to the front of the buffer, and the
    write cursor is [remainder].  With [B = 16] and 20 plaintext bytes
    written in one call into a memory sink: 16 bytes are forwarded, 4
    are retained; [Flush] appends 11 zero bytes and a byte of value 12
    and forwards the second block, 32 bytes of ciphertext in all. *)
Theorem AdvanceWrite_aligns :
  (forall (s : state W) (n : Z),
     n + GetAvailableRead s < m_blockSize s ->
     AdvanceWrite n s = Ret true (set_m_writePos (m_writePos s + n) s)) /\
  (forall (s : state W) (n : Z),
     let total := n + GetAvailableRead s in
     let aligned := total - total mod m_blockSize s in
     let remainder := total - aligned in
     0 < m_blockSize s -> m_blockSize s <= total -> total <= TWN_ARRAY_SIZE ->
     Invariant.BlockEncryptionStream s ->
     length_preserving (m_blockSize s) ->
     exists c out s',
       crypto_Cipher (m_crypto s) (take (Z.to_nat aligned) (m_buffer s))
       = (c, out) /\
       Z.of_nat (length out) = aligned /\
       AdvanceWrite n s = Ret (fst (Stream_Copy out (m_dest s))) s' /\
       m_dest s' = snd (Stream_Copy out (m_dest s)) /\
       m_crypto s' = c /\
       load (m_encrypedBuffer s') 0 aligned = Some out /\
       load (m_buffer s') 0 remainder = load (m_buffer s) aligned remainder /\
       m_writePos s' = remainder) /\
  (forall (plain : list uint8_t) (e : state (list uint8_t)),
     length plain = 20%nat ->
     Invariant.BlockEncryptionStream e ->
     m_blockSize e = 16 -> m_writePos e = 0 ->
     length_preserving 16 ->
     exists c1 out1 e1 c2 out2 e2,
       crypto_Cipher (m_crypto e) (take 16 plain) = (c1, out1) /\
       length out1 = 16%nat /\
       Client.write plain e = Ret true e1 /\
       m_dest e1 = m_dest e ++ out1 /\
       m_writePos e1 = 4 /\
       load (m_buffer e1) 0 4 = Some (drop 16 plain) /\
       crypto_Cipher c1 (drop 16 plain ++ replicate 11 x00 ++ [x0c])
       = (c2, out2) /\
       length out2 = 16%nat /\
       uint8_val x0c = 12 /\
       Flush e1 = Ret tt e2 /\
       load (m_buffer e2) 4 12 = Some (replicate 11 x00 ++ [x0c]) /\
       m_dest e2 = m_dest e ++ out1 ++ out2 /\
       length (out1 ++ out2) = 32%nat).
Proof.
  split; [|split].
  - intros s n Hlt. apply AdvanceWrite_buffers.
    unfold GetAvailableRead in Hlt. lia.
  - intros s n. cbv zeta. unfold GetAvailableRead. rewrite !Z.sub_0_r.
    set (total := n + m_writePos s).
    set (aligned := total - total mod m_blockSize s).
    set (remainder := total - aligned).
    intros HB Hge Hcap (Hlb & Hle & Hw) Hlp.
    pose proof (Z.mod_pos_bound total (m_blockSize s) HB) as Hr.
    pose proof (Z.mod_le total (m_blockSize s) ltac:(lia) HB) as Hrle.
    destruct (crypto_Cipher (m_crypto s) (take (Z.to_nat aligned) (m_buffer s)))
      as [c out] eqn:Hc.
    assert (length out = Z.to_nat aligned) as Hout.
    { pose proof (Hlp (m_crypto s) (take (Z.to_nat aligned) (m_buffer s)))
        as Hlen.
      rewrite Hc, length_take in Hlen. simpl in Hlen.
      rewrite Hlen; [unfold aligned; lia|].
      replace (Z.of_nat (Z.to_nat aligned `min` length (m_buffer s)))
        with aligned by (unfold aligned; lia).
      unfold aligned. rewrite Zminus_mod_idemp_r, Z.sub_diag.
      apply Z.mod_0_l. lia. }
    pose proof (AdvanceWrite_transforms s n c out HB Hge ltac:(lia) Hc
                  ltac:(unfold aligned in *; lia)) as Hrun.
    cbv zeta in Hrun. fold total in Hrun. fold aligned in Hrun.
    exists c, out. eexists. split; [reflexivity|].
    split; [unfold aligned in *; lia|]. split; [exact Hrun|]. simpl.
    split; [reflexivity|]. split; [reflexivity|].
    assert (remainder = total mod m_blockSize s) as ->
      by (unfold remainder, aligned; lia).
    split; [|split; [|reflexivity]].
    + rewrite load_prefix
        by (rewrite length_app, length_drop; unfold aligned in *; lia).
      rewrite <- Hout, take_app_length. reflexivity.
    + rewrite load_prefix
        by (rewrite length_app, length_take, !length_drop;
            unfold aligned in *; lia).
      rewrite load_Some by (unfold aligned in *; lia).
      f_equal. rewrite take_app_le
        by (rewrite length_take, length_drop; unfold aligned in *; lia).
      rewrite take_take, Nat.min_id. reflexivity.
  - intros plain e Hl (Hlb & Hle & Hw) HBs Hpos Hlp.
    assert (store (m_buffer e) 0 plain
            = Some (plain ++ drop 20 (m_buffer e))) as Hs.
    { rewrite store_Some by (unfold TWN_ARRAY_SIZE in *; lia).
      rewrite Hl. reflexivity. }
    set (e0 := set_m_buffer (plain ++ drop 20 (m_buffer e)) e).
    destruct (crypto_Cipher (m_crypto e) (take 16 plain)) as [c1 out1] eqn:Hc1.
    assert (length out1 = 16%nat) as Hl1.
    { pose proof (Hlp (m_crypto e) (take 16 plain)) as Hlen.
      rewrite Hc1, length_take, Hl in Hlen. apply Hlen. reflexivity. }
    pose proof (AdvanceWrite_transforms e0 20 c1 out1) as Hrun1.
    cbv zeta in Hrun1. simpl in Hrun1. rewrite HBs, Hpos in Hrun1.
    change (Z.to_nat (20 + 0 - (20 + 0) mod 16)) with 16%nat in Hrun1.
    change (Z.to_nat ((20 + 0) mod 16)) with 4%nat in Hrun1.
    change ((20 + 0) mod 16) with 4 in Hrun1.
    rewrite (take_app_le plain) in Hrun1 by lia.
    specialize (Hrun1 ltac:(lia) ltac:(lia)
                  ltac:(rewrite length_app, length_drop;
                        unfold TWN_ARRAY_SIZE in *; lia)
                  Hc1 ltac:(unfold TWN_ARRAY_SIZE in *; lia)).
    simpl in Hrun1.
    rewrite (drop_app_le plain) in Hrun1 by lia.
    set (tail := drop 16 plain) in *.
    assert (length tail = 4%nat) as Hlt
      by (unfold tail; rewrite length_drop; lia).
    rewrite (take_app_length' tail) in Hrun1 by lia.
    set (e1 := transformed e0 _ c1 _ _ 4) in Hrun1.
    destruct (crypto_Cipher c1 (tail ++ replicate 11 x00 ++ [x0c]))
      as [c2 out2] eqn:Hc2.
    assert (length out2 = 16%nat) as Hl2.
    { pose proof (Hlp c1 (tail ++ replicate 11 x00 ++ [x0c])) as Hlen.
      rewrite Hc2, !length_app, Hlt in Hlen. apply Hlen. reflexivity. }
    assert (length (m_buffer e1) = 4096%nat) as Hlb1.
    { simpl. repeat (rewrite length_app || rewrite length_drop).
      unfold TWN_ARRAY_SIZE in *. lia. }
    assert (length (padding 12) = 12%nat) as Hl12 by reflexivity.
    assert (store (m_buffer e1) 4 (padding 12)
            = Some (tail ++ padding 12 ++ drop 16 (m_buffer e1))) as Hs2.
    { rewrite store_Some by lia.
      rewrite Hl12. simpl. rewrite (take_app_length' tail) by lia.
      reflexivity. }
    pose proof (Flush_pads e1 c2 out2
                  (tail ++ padding 12 ++ drop 16 (m_buffer e1))) as Hrun2.
    cbv zeta in Hrun2.
    simpl in Hrun2. rewrite HBs in Hrun2.
    change (padLen 16 4) with 12 in Hrun2.
    specialize (Hrun2 ltac:(lia) ltac:(lia)
                  ltac:(unfold TWN_ARRAY_SIZE; lia) Hs2).
    rewrite (take_app_length' tail) in Hrun2 by lia.
    specialize (Hrun2 Hc2
                  ltac:(rewrite length_app, length_drop;
                        unfold TWN_ARRAY_SIZE in *; lia)).
    exists c1, out1, e1, c2, out2. eexists.
    split; [reflexivity|]. split; [exact Hl1|]. split.
    { unfold Client.write, NextWrite. run_monad. rewrite Hpos, Hs. simpl.
      rewrite Hl. exact Hrun1. }
    split; [reflexivity|]. split; [reflexivity|]. split.
    { rewrite load_prefix by lia. simpl.
      rewrite (take_app_length' tail) by lia. reflexivity. }
    split; [exact Hc2|]. split; [exact Hl2|]. split; [reflexivity|].
    split; [exact Hrun2|]. split; [|split].
    + pose proof (load_store_same _ _ _ _ Hs2) as Hld.
      rewrite Hl12 in Hld. exact Hld.
    + simpl. rewrite app_assoc. reflexivity.
    + rewrite length_app. lia.
Qed.

End AdvanceWriteClaim.

(** ** The statements at concrete inputs *)

Ltac by_computation :=
  vm_compute;
  repeat match goal with |- _ /\ _ => split end;
  first [ reflexivity | discriminate | intro; discriminate ].

(** Discharge the premises of [H] one after the other by computation. *)
Ltac feed_computed H :=
  repeat match type of H with
         | ?A -> _ =>
             let h := fresh in
             assert A as h by by_computation; specialize (H h); clear h
         end.

Section Witnesses.
#[local] Existing Instance ChainCipher.crypto.
#[local] Existing Instance memory_sink.
#[local] Existing Instance fatal_build.

(** [Flush] on a final block that decrypts to a last byte of 17, and on
    one that decrypts to a last byte of 12, with 16-byte blocks. *)
Lemma Flush_checks_padding_byte_witness :
  let bad := final (BlockDecryptionStream.Decrypt
                      (decryptor 16 [replicate 15 x00 ++ [x11]])) in
  let good := final (BlockDecryptionStream.Decrypt
                       (decryptor 16 [replicate 15 x00 ++ [x0c]])) in
  (BlockDecryptionStream.m_blockSize bad < uint8_val x11 /\
   exists s',
     BlockDecryptionStream.Flush bad
     = Halt (Bug "BlockDecryptionStream: Invalid number of padded bytes {0}; maximum is {1}") s' /\
     BlockDecryptionStream.m_readEnd s' = 16) /\
  (uint8_val x0c <= BlockDecryptionStream.m_blockSize good /\
   exists s',
     BlockDecryptionStream.Flush good = Ret tt s' /\
     BlockDecryptionStream.m_readEnd s' = 4 /\
     BlockDecryptionStream.m_writePos s' = 0).
Proof.
  intros bad good. split.
  - split; [by_computation|].
    pose proof (Flush_checks_padding_byte bad
                  (fst (crypto_Cipher (BlockDecryptionStream.m_crypto bad)
                          (take 16 (BlockDecryptionStream.m_encrypedBuffer bad))))
                  (snd (crypto_Cipher (BlockDecryptionStream.m_crypto bad)
                          (take 16 (BlockDecryptionStream.m_encrypedBuffer bad))))
                  x11) as Hw.
    feed_computed Hw. destruct Hw as [Hw _].
    feed_computed Hw. destruct Hw as (s' & Hrun & He & _).
    exists s'. split; [exact Hrun|exact He].
  - split; [by_computation|].
    pose proof (Flush_checks_padding_byte good
                  (fst (crypto_Cipher (BlockDecryptionStream.m_crypto good)
                          (take 16 (BlockDecryptionStream.m_encrypedBuffer good))))
                  (snd (crypto_Cipher (BlockDecryptionStream.m_crypto good)
                          (take 16 (BlockDecryptionStream.m_encrypedBuffer good))))
                  x0c) as Hw.
    feed_computed Hw. destruct Hw as [_ Hw].
    feed_computed Hw. destruct Hw as (s' & Hrun & He & _ & Hw').
    exists s'. split; [exact Hrun|]. split; [exact He|exact Hw'].
Defined.

(** [Pad] behind 4 bytes of data, with 16-byte blocks. *)
Lemma Pad_appends_padding_witness :
  let s := encryptor 16 in
  (0 < BlockEncryptionStream.m_blockSize s /\
   4 + padLen (BlockEncryptionStream.m_blockSize s) 4 < TWN_ARRAY_SIZE) /\
  exists mem',
    BlockEncryptionStream.Pad 0 TWN_ARRAY_SIZE 4 s
    = Ret 12 (BlockEncryptionStream.set_m_buffer mem' s) /\
    load mem' 4 12 = Some (replicate 11 x00 ++ [x0c]).
Proof.
  intros s. split; [by_computation|].
  pose proof (Pad_appends_padding s TWN_ARRAY_SIZE 4) as Hw.
  feed_computed Hw. destruct Hw as (_ & _ & mem' & Hrun & _ & Hload & _).
  exists mem'. split; [exact Hrun|exact Hload].
Defined.


(** A pass on a span of three blocks. *)
Lemma Decrypt_pass_withholds_witness :
  let s := decryptor 16 [replicate 48 x01] in
  (0 < BlockDecryptionStream.m_blockSize s /\
   0 <= BlockDecryptionStream.m_writePos s <= TWN_ARRAY_SIZE) /\
  exists s',
    BlockDecryptionStream.Decrypt_pass (replicate 48 x01) s = Ret 48 s' /\
    BlockDecryptionStream.GetUsedWrite s' < 2 * 16 /\
    16 <= BlockDecryptionStream.GetUsedWrite s'.
Proof.
  intros s. split; [by_computation|].
  pose proof (Decrypt_pass_withholds s (replicate 48 x01)
                (ChainCipher_length_preserving _)) as Hw.
  feed_computed Hw. destruct Hw as (s' & Hrun & Hlt & _ & Hge).
  feed_computed Hge. destruct Hge as (_ & Hge & _).
  exists s'. split; [exact Hrun|]. split; [exact Hlt|exact Hge].
Defined.

(** [Flush] on a final block that decrypts to zeroes. *)
Lemma Flush_accepts_zero_padding_byte_witness :
  let s := final (BlockDecryptionStream.Decrypt
                    (decryptor 16 [replicate 16 x00])) in
  (BlockDecryptionStream.m_writePos s mod BlockDecryptionStream.m_blockSize s = 0 /\
   uint8_val x00 = 0) /\
  exists s',
    BlockDecryptionStream.Flush s = Ret tt s' /\
    BlockDecryptionStream.m_readEnd s' = 16 /\
    load (BlockDecryptionStream.m_buffer s') 0 16 = Some (replicate 16 x00).
Proof.
  intros s. split; [by_computation|].
  pose proof (Flush_accepts_zero_padding_byte (W:=list uint8_t) s
                (fst (crypto_Cipher (BlockDecryptionStream.m_crypto s)
                        (take 16 (BlockDecryptionStream.m_encrypedBuffer s))))
                (snd (crypto_Cipher (BlockDecryptionStream.m_crypto s)
                        (take 16 (BlockDecryptionStream.m_encrypedBuffer s))))
                x00) as Hw.
  feed_computed Hw. destruct Hw as [(s' & Hrun & He & Hload & _) _].
  exists s'. split; [exact Hrun|]. split; [exact He|exact Hload].
Defined.

(** [AdvanceRead] inside and outside the window, in a build whose
    assertions report. *)
Lemma AdvanceRead_bounds_witness :
  let s := DecryptionStream.set_m_readEnd 5
             (DecryptionStream.new [] (replicate 4096 x00)) in
  let t := BlockDecryptionStream.set_m_readEnd 5 (decryptor 16 []) in
  (3 <= DecryptionStream.GetAvailableRead s /\
   DecryptionStream.AdvanceRead (H:=reporting_build) 3 s
   = Ret true (DecryptionStream.set_m_readPos 3 s)) /\
  (BlockDecryptionStream.GetAvailableRead t < 6 /\
   BlockDecryptionStream.AdvanceRead (H:=reporting_build) 6 t = Ret false t).
Proof.
  intros s t.
  destruct (AdvanceRead_bounds (H:=reporting_build) s t 3) as (Hin & _).
  destruct (AdvanceRead_bounds (H:=reporting_build) s t 6) as (_ & _ & _ & Hout).
  split; (split; [by_computation|]).
  - apply Hin. by_computation.
  - apply Hout. by_computation.
Defined.

(** [Init] with a key of 16 bytes. *)
Lemma Init_blockSize_is_keySize_witness :
  0 <= 16 < 2 ^ 31 /\
  BlockEncryptionStream.m_blockSize (encryptor 16) = 16 /\
  BlockDecryptionStream.m_blockSize (decryptor 16 []) = 16.
Proof.
  split; [by_computation|].
  destruct (Init_blockSize_is_keySize (W:=list uint8_t) 0 [] 16 [] 0
              (BlockEncryptionStream.new [] (replicate 4096 xff)
                 (replicate 4096 xff))
              (BlockDecryptionStream.new [] (replicate 4096 x00)
                 (replicate 4096 x00)))
    as ((ok & e' & He & _ & HBe) & (ok' & d' & Hd & _ & HBd) & _).
  unfold encryptor, decryptor. rewrite He, Hd. simpl.
  split; [apply HBe|apply HBd]; by_computation.
Defined.

(** The block decryptor after a call of [Decrypt] that withheld one
    block: [Flush] stays inside the window.  The streaming decryptor
    over a span of twenty bytes: [Decrypt] stays inside the window. *)
Lemma window_bound_witness :
  let s := final (BlockDecryptionStream.Decrypt
                    (decryptor 16 [replicate 15 x00 ++ [x0c]])) in
  let t := stream_decryptor [twenty_bytes] in
  (Invariant.BlockDecryptionStream s /\ Invariant.DecryptionStream t /\
   spans_fit_int (DecryptionStream.m_source t)) /\
  in_bounds Invariant.BlockDecryptionStream (BlockDecryptionStream.Flush s) /\
  returns_with Invariant.DecryptionStream (DecryptionStream.Decrypt t).
Proof.
  intros s t.
  assert (Invariant.BlockDecryptionStream s) as HI by by_computation.
  assert (Invariant.DecryptionStream t) as HIt by by_computation.
  assert (spans_fit_int (DecryptionStream.m_source t)) as Hfit
    by (apply Forall_cons; split; [by_computation|constructor]).
  split; [auto|].
  destruct (window_bound (W:=list uint8_t))
    as (_ & _ & _ & _ & _ & _ & Hstream & Hblock).
  split.
  - destruct (Hblock 16 ltac:(by_computation) (ChainCipher_length_preserving 16))
      as [_ Hdec].
    destruct (Hdec s 0 ltac:(by_computation) HI) as (_ & _ & _ & HF).
    apply HF. left. reflexivity.
  - destruct (Hstream (ChainCipher_length_preserving 1) t 0 HIt) as (HD & _).
    exact (HD Hfit).
Defined.

(** Twenty bytes written as 7 and 13, read back from a source that
    returns the ciphertext as 5 bytes and the rest. *)
Lemma round_trip_witness :
  let chunks := [take 7 twenty_bytes; drop 7 twenty_bytes] in
  (0 < 16 <= 255 /\ within_spans 16 0 chunks) /\
  exists e',
    Client.encrypt chunks keyed_encryptor = Ret true e' /\
    Z.of_nat (length (BlockEncryptionStream.m_dest e')) mod 16 = 0 /\
    exists d',
      Client.decrypt
        (keyed_decryptor [take 5 (BlockEncryptionStream.m_dest e');
                          drop 5 (BlockEncryptionStream.m_dest e')])
      = Ret twenty_bytes d'.
Proof.
  intros chunks.
  assert (0 < 16 <= 255 /\ within_spans 16 0 chunks) as Hhyp by by_computation.
  split; [exact Hhyp|]. destruct Hhyp as [HB Hfit].
  destruct (round_trip (W:=list uint8_t) 16 (fun w => w) chunks keyed_encryptor
              {| ChainCipher.encrypting := false; ChainCipher.key := 42;
                 ChainCipher.chain := 7 |}
              HB (ChainCipher_length_preserving 16)
              (ChainCipher_chunking_independent 16)
              (ChainCipher_inverse_sessions 16 42 7)
              memory_sink_delivers
              ltac:(by_computation) ltac:(by_computation) ltac:(by_computation)
              Hfit)
    as (e' & ct & Hrun & Hcont & Hal & _ & Hback).
  change (BlockEncryptionStream.m_dest e' = ct) in Hcont. subst ct.
  exists e'. split; [exact Hrun|]. split; [exact Hal|].
  apply Hback.
  - unfold Invariant.BlockDecryptionStream. cbn -[Z.of_nat length]. by_computation.
  - reflexivity.
  - reflexivity.
  - reflexivity.
  - reflexivity.
  - unfold ReadStream.pending. cbn. rewrite app_nil_r. apply take_drop.
Defined.

(** Twenty bytes written in one call, with 16-byte blocks. *)
Lemma AdvanceWrite_aligns_witness :
  let e := encryptor 16 in
  (length twenty_bytes = 20%nat /\ BlockEncryptionStream.m_blockSize e = 16) /\
  exists e1 e2,
    Client.write twenty_bytes e = Ret true e1 /\
    BlockEncryptionStream.m_writePos e1 = 4 /\
    BlockEncryptionStream.Flush e1 = Ret tt e2 /\
    load (BlockEncryptionStream.m_buffer e2) 4 12
    = Some (replicate 11 x00 ++ [x0c]) /\
    length (BlockEncryptionStream.m_dest e2) = 32%nat.
Proof.
  intros e. split; [by_computation|].
  destruct (AdvanceWrite_aligns (W:=list uint8_t)) as (_ & _ & Hscenario).
  destruct (Hscenario twenty_bytes e ltac:(by_computation)
              ltac:(by_computation) ltac:(by_computation)
              ltac:(by_computation) (ChainCipher_length_preserving 16))
    as (c1 & out1 & e1 & c2 & out2 & e2 & _ & _ & Hw & _ & Hpos & _ & _ & _
        & _ & Hf & Hpad & Hdest & Hlen).
  exists e1, e2. split; [exact Hw|]. split; [exact Hpos|].
  split; [exact Hf|]. split; [exact Hpad|].
  rewrite Hdest. exact Hlen.
Defined.

End Witnesses.
(** ** The block encryptor at its edges *)

Section EncryptorEdges.
Context `{Build} `{Crypto} {W : Type} `{WriteStream W}.
Import BlockEncryptionStream.

Lemma Flush_Pad_halts (s : state W) (f : fault) (s1 : state W) :
  Pad 0 TWN_ARRAY_SIZE (m_writePos s) s = Halt f s1 ->
  Flush s = Halt f s1.
Proof.
  intros Hpad. unfold Flush. unfold bind at 1. unfold gets at 1.
  unfold bind at 1. unfold GetAvailableRead at 1. rewrite Z.sub_0_r, Hpad.
  reflexivity.
Qed.

(** [Flush] needs room for the padding, strictly inside the buffer.
    With [used] bytes accumulated it pads to
    [used + padLen], the next multiple of the block size above [used];
    if that reaches the capacity of 4096 bytes, [Pad] stops in
    [TWN_BUG] and the object is as it was: nothing is padded,
    transformed or forwarded.  A block size of 4096 or more therefore
    makes every [Flush] fail, although a single block would fit the
    buffer exactly. *)
Theorem Flush_without_room (s : state W) :
  0 < m_blockSize s -> 0 <= m_writePos s ->
  (TWN_ARRAY_SIZE
   <= m_writePos s + padLen (m_blockSize s) (m_writePos s) ->
   Flush s
   = Halt (Bug "BlockEncryptionStream: Padding failed due to insufficient buffer space") s) /\
  (TWN_ARRAY_SIZE <= m_blockSize s ->
   Flush s
   = Halt (Bug "BlockEncryptionStream: Padding failed due to insufficient buffer space") s).
Proof.
  intros HB Hw.
  assert (TWN_ARRAY_SIZE
          <= m_writePos s + padLen (m_blockSize s) (m_writePos s) ->
          Flush s
          = Halt (Bug "BlockEncryptionStream: Padding failed due to insufficient buffer space") s)
    as Hmain.
  { intros Hroom. apply Flush_Pad_halts.
    apply Pad_does_not_fit; assumption. }
  split; [exact Hmain|].
  intros Hbig. apply Hmain.
  destruct (padded_total (m_blockSize s) (m_writePos s) HB Hw) as [Hge _].
  lia.
Qed.

(** When the padding fits, [Flush] transforms the accumulated bytes
    and the padding in one call, a whole number of blocks, hands the
    output to [Stream::Copy], and returns with an empty accumulation
    buffer.  It returns normally whatever [Stream::Copy] answers: the
    result of the [AdvanceWrite] call inside [Flush] is dropped. *)
Theorem Flush_ignores_sink_answer (s : state W) :
  0 < m_blockSize s -> Invariant.BlockEncryptionStream s ->
  length_preserving (m_blockSize s) ->
  m_writePos s + padLen (m_blockSize s) (m_writePos s) < TWN_ARRAY_SIZE ->
  exists c out s',
    crypto_Cipher (m_crypto s)
      (take (Z.to_nat (m_writePos s)) (m_buffer s)
       ++ padding (padLen (m_blockSize s) (m_writePos s))) = (c, out) /\
    Z.of_nat (length out)
    = m_writePos s + padLen (m_blockSize s) (m_writePos s) /\
    Z.of_nat (length out) mod m_blockSize s = 0 /\
    Flush s = Ret tt s' /\
    m_dest s' = snd (Stream_Copy out (m_dest s)) /\
    m_crypto s' = c /\
    m_writePos s' = 0.
Proof.
  intros HB (Hlb & Hle & Hw) Hlp Hroom.
  set (p := padLen (m_blockSize s) (m_writePos s)) in *.
  pose proof (padLen_range (m_blockSize s) (m_writePos s) HB) as Hp. fold p in Hp.
  pose proof (padding_length p ltac:(lia)) as Hpl.
  destruct (padded_total (m_blockSize s) (m_writePos s) HB ltac:(lia))
    as [_ Hal]. fold p in Hal.
  destruct (store (m_buffer s) (m_writePos s) (padding p)) as [mem|] eqn:Hs.
  2:{ rewrite store_Some in Hs by (unfold TWN_ARRAY_SIZE in *; lia).
      discriminate. }
  set (tail := take (Z.to_nat (m_writePos s)) (m_buffer s) ++ padding p).
  assert (Z.of_nat (length tail) = m_writePos s + p) as Hlt.
  { unfold tail. rewrite length_app, length_take.
    unfold TWN_ARRAY_SIZE in *. lia. }
  destruct (crypto_Cipher (m_crypto s) tail) as [c out] eqn:Hc.
  assert (length out = length tail) as Hlo.
  { pose proof (Hlp (m_crypto s) tail) as Hl. rewrite Hc in Hl.
    apply Hl. rewrite Hlt, Z.add_comm. exact Hal. }
  pose proof (Flush_pads s c out mem) as Hrun. cbv zeta in Hrun.
  fold p in Hrun. fold tail in Hrun.
  rewrite Hrun; [|lia|lia|lia|exact Hs|exact Hc|unfold TWN_ARRAY_SIZE in *; lia].
  exists c, out. eexists. split; [reflexivity|].
  split; [lia|]. split; [rewrite Hlo, Hlt, Z.add_comm; exact Hal|].
  split; [reflexivity|]. simpl. auto.
Qed.

(** Without a block size the encryptor cannot be used.  The
    constructor sets [m_blockSize] to 0 and only [Init] changes it (to
    the key size, so an [Init] with a key of size 0 leaves it 0); with
    it, [AdvanceWrite] of any number of bytes that does not make the
    total negative, and [Flush], divide by zero. *)
Theorem encryptor_without_block_size (s : state W) (n : Z) :
  m_blockSize s = 0 ->
  (0 <= n + GetAvailableRead s ->
   AdvanceWrite n s = Halt (Undefined DivideByZero) s) /\
  Flush s = Halt (Undefined DivideByZero) s.
Proof.
  intros HB. split.
  - intros Hn. unfold AdvanceWrite. run_monad. rewrite HB.
    destruct (Z.geb_spec (n + GetAvailableRead s) 0) as [_|?]; [|lia].
    reflexivity.
  - apply Flush_Pad_halts. unfold Pad. run_monad. rewrite HB. reflexivity.
Qed.

(** After [AdvanceWrite] fewer than a block is accumulated, so the span
    [NextWrite] offers next, which always ends at the end of the
    buffer, is longer than [4096 - B] bytes: with a block size up to
    the capacity a writer is never offered an empty span. *)
Theorem NextWrite_after_AdvanceWrite (s : state W) (n : Z) :
  0 < m_blockSize s <= TWN_ARRAY_SIZE ->
  Invariant.BlockEncryptionStream s ->
  length_preserving (m_blockSize s) ->
  0 <= n <= TWN_ARRAY_SIZE - GetAvailableRead s ->
  exists ok s',
    AdvanceWrite n s = Ret ok s' /\
    0 <= m_writePos s' < m_blockSize s /\
    NextWrite s'
    = Ret (Some {| GetData := m_writePos s';
                   GetDataLen := TWN_ARRAY_SIZE - m_writePos s' |}) s' /\
    TWN_ARRAY_SIZE - m_blockSize s < TWN_ARRAY_SIZE - m_writePos s'.
Proof.
  intros [HB HBcap] (Hlb & Hle & Hw) Hlp Hn.
  unfold GetAvailableRead in Hn. rewrite Z.sub_0_r in Hn.
  assert (forall s' : state W,
            NextWrite s'
            = Ret (Some {| GetData := m_writePos s';
                           GetDataLen := TWN_ARRAY_SIZE - m_writePos s' |}) s')
    as Hnext.
  { intros s'. unfold NextWrite. run_monad. unfold GetAvailableRead.
    rewrite Z.sub_0_r. reflexivity. }
  destruct (Z_lt_le_dec (n + m_writePos s) (m_blockSize s)) as [Hlt|Hge].
  - rewrite (AdvanceWrite_buffers s n Hlt).
    eexists _, _. split; [reflexivity|]. simpl.
    split; [lia|]. split; [apply Hnext|]. simpl. lia.
  - set (total := n + m_writePos s) in *.
    pose proof (Z.mod_pos_bound total (m_blockSize s) HB) as Hr.
    pose proof (Z.mod_le total (m_blockSize s) ltac:(lia) HB) as Hrle.
    set (aligned := total - total mod m_blockSize s).
    destruct (crypto_Cipher (m_crypto s) (take (Z.to_nat aligned) (m_buffer s)))
      as [c out] eqn:Hc.
    assert (length out = Z.to_nat aligned) as Hout.
    { pose proof (Hlp (m_crypto s) (take (Z.to_nat aligned) (m_buffer s)))
        as Hlen.
      rewrite Hc, length_take in Hlen. simpl in Hlen.
      rewrite Hlen; [unfold aligned; lia|].
      replace (Z.of_nat (Z.to_nat aligned `min` length (m_buffer s)))
        with aligned by (unfold aligned; lia).
      unfold aligned. rewrite Zminus_mod_idemp_r, Z.sub_diag.
      apply Z.mod_0_l. lia. }
    pose proof (AdvanceWrite_transforms s n c out HB Hge ltac:(fold total; lia) Hc
                  ltac:(unfold aligned in *; lia)) as Hrun.
    cbv zeta in Hrun. rewrite Hrun.
    eexists _, _. split; [reflexivity|]. simpl. fold total.
    split; [lia|]. split; [apply Hnext|]. simpl. lia.
Qed.

End EncryptorEdges.
(** ** The block decryptor at its edges *)

Section DecryptorEdges.
Context `{Build} `{Crypto}.
Import BlockDecryptionStream.

(** [Decrypt] when the condition of its loop fails at once. *)
Lemma Decrypt_idle (s : state) :
  continues (set_m_readPos 0 (set_m_readEnd 0 s)) = false ->
  Decrypt s = Ret false (set_m_readPos 0 (set_m_readEnd 0 s)).
Proof.
  intros Hc. unfold Decrypt. run_monad.
  unfold continues, GetAvailableWrite, GetUsedWrite, GetAvailableRead in Hc.
  simpl in Hc. unfold GetAvailableWrite, GetUsedWrite, GetAvailableRead.
  run_monad. rewrite Hc. reflexivity.
Qed.

(** Without a block size the decryptor reads nothing.  The constructor
    sets [m_blockSize] to 0 and only [Init] changes it; with a block
    size of 0 (or a negative one) the loop of [Decrypt] is not entered,
    so [Decrypt] returns non-success and [NextRead] on an empty window
    fails, whatever the source holds, and the source is not touched. *)
Theorem decryptor_without_block_size (s : state) :
  m_blockSize s <= 0 ->
  Decrypt s = Ret false (set_m_readPos 0 (set_m_readEnd 0 s)) /\
  (GetAvailableRead s = 0 ->
   NextRead s = Ret None (set_m_readPos 0 (set_m_readEnd 0 s))) /\
  m_source (set_m_readPos 0 (set_m_readEnd 0 s)) = m_source s.
Proof.
  intros HB.
  assert (Decrypt s = Ret false (set_m_readPos 0 (set_m_readEnd 0 s))) as Hd.
  { apply Decrypt_idle. unfold continues, GetAvailableRead.
    apply andb_false_iff. right. apply Z.ltb_ge. simpl. lia. }
  split; [exact Hd|]. split; [|reflexivity].
  intros Hav. rewrite (NextRead_empty s Hav), Hd. reflexivity.
Qed.

(** A pass that cannot transform keeps the decryptor gathering. *)
Lemma gathering_pass (B : Z) (s : state) (buffer : list uint8_t)
    (rest : ReadStream.t) :
  0 < B -> gathering B s -> continues s = true -> m_source s = buffer :: rest ->
  exists s', Decrypt_pass buffer s = Ret (pulled s buffer) s' /\
             (gathering B s' /\ m_crypto s' = m_crypto s /\
              m_writePos s' + Z.of_nat (length (ReadStream.pending (m_source s')))
              = m_writePos s + Z.of_nat (length (ReadStream.pending (m_source s))) /\
              held s' ++ ReadStream.pending (m_source s')
              = held s ++ ReadStream.pending (m_source s)) /\
             m_source s'
             = ReadStream.AdvanceRead (pulled s buffer) (m_source s) /\
             0 <= pulled s buffer <= Z.of_nat (length buffer).
Proof.
  intros HB ((Hlb & Hle & Hr & Hw & Hsum) & HBs & Hpos & Hend & Hfew) Hc Hsrc.
  assert (0 <= m_writePos s <= TWN_ARRAY_SIZE) as Hw' by lia.
  destruct (pulled_range s buffer Hw') as (Hp & Hpw & Hpl).
  rewrite Hsrc in Hfew. unfold ReadStream.pending in Hfew. simpl in Hfew.
  rewrite length_app in Hfew.
  assert (m_writePos s + pulled s buffer < 2 * B) as Hused by lia.
  pose proof (Decrypt_pass_accumulates s buffer) as Hrun. cbv zeta in Hrun.
  rewrite HBs in Hrun.
  rewrite Hrun; [|lia|lia|lia|].
  2:{ destruct (Z_le_gt_dec (decryptable (m_writePos s + pulled s buffer) B) 0)
        as [?|Hgt]; [assumption|].
      apply Z.gt_lt, decryptable_pos in Hgt; lia. }
  eexists. split; [reflexivity|].
  cbn [m_source m_crypto m_writePos]. rewrite Hsrc.
  rewrite AdvanceRead_pending, length_app, length_drop.
  split; [|split; [reflexivity|lia]].
  split; [|split; [reflexivity|split]].
  - unfold gathering, Invariant.BlockDecryptionStream.
    cbn [m_source m_crypto m_writePos m_readPos m_readEnd m_blockSize
         m_buffer m_encrypedBuffer].
    rewrite AdvanceRead_pending, length_app, length_drop.
    assert (Z.of_nat (length (appended s buffer)) = TWN_ARRAY_SIZE) as Hla.
    { unfold appended. rewrite !length_app, length_take, length_drop.
      rewrite length_take. lia. }
    unfold ReadStream.pending.
    repeat apply conj; try lia; auto.
  - unfold ReadStream.pending. simpl. rewrite length_app. lia.
  - unfold held at 1. cbn [m_writePos m_encrypedBuffer].
    rewrite (held_appended s buffer Hw' Hle), <- app_assoc. f_equal.
    unfold ReadStream.pending. simpl. rewrite app_assoc, take_drop.
    reflexivity.
Qed.

(** A call of [Decrypt] that only gathers: the window stays empty, the
    session is not used, and no byte is lost between the source and the
    accumulation buffer. *)
Lemma Decrypt_gathers (B : Z) (s : state) :
  0 < B -> gathering B s ->
  exists b s',
    Decrypt s = Ret b s' /\ gathering B s' /\ m_crypto s' = m_crypto s /\
    m_writePos s' + Z.of_nat (length (ReadStream.pending (m_source s')))
    = m_writePos s + Z.of_nat (length (ReadStream.pending (m_source s))) /\
    held s' ++ ReadStream.pending (m_source s')
    = held s ++ ReadStream.pending (m_source s) /\
    (m_writePos s' = TWN_ARRAY_SIZE \/ m_source s' = []) /\
    (b = true <->
     (length (ReadStream.pending (m_source s'))
      < length (ReadStream.pending (m_source s)))%nat) /\
    (length (m_source s') <= length (m_source s))%nat.
Proof.
  intros HB Hg.
  set (I := fun s' : state =>
              gathering B s' /\ m_crypto s' = m_crypto s /\
              m_writePos s' + Z.of_nat (length (ReadStream.pending (m_source s')))
              = m_writePos s + Z.of_nat (length (ReadStream.pending (m_source s))) /\
              held s' ++ ReadStream.pending (m_source s')
              = held s ++ ReadStream.pending (m_source s)).
  assert (set_m_readPos 0 (set_m_readEnd 0 s) = s) as Hsame.
  { destruct Hg as (_ & _ & Hpos & Hend & _). destruct s. simpl in *.
    subst. reflexivity. }
  unfold Decrypt, bind, modify, gets, ret. cbv beta iota.
  rewrite Hsame.
  assert (I s) as HI by (unfold I; auto).
  destruct (Decrypt_loop_rule I) with (fuel := S (ReadStream.size (m_source s)))
      (bytesRead := 0) (s := s)
    as (s' & n & Hloop & (Hg' & Hc' & Hcons & Hheld) & Hexit & Hn & Hcount
        & Hspans);
    [|exact HI|lia|].
  { intros s1 buffer rest (Hg1 & Hc1 & Hcons1 & Hheld1) Hcont Hsrc.
    destruct (gathering_pass B s1 buffer rest HB Hg1 Hcont Hsrc)
      as (s2 & Hrun & (Hg2 & Hc2 & Hcons2 & Hheld2) & Hsrc2 & Hp).
    exists s2. split; [exact Hrun|]. split; [|split; assumption].
    unfold I. split; [exact Hg2|]. repeat split; congruence. }
  rewrite Hloop. simpl.
  exists (0 <? n), s'. split; [reflexivity|]. split; [exact Hg'|].
  split; [exact Hc'|]. split; [exact Hcons|]. split; [exact Hheld|].
  split; [|split].
  - destruct Hexit as [Hstop|Hnil]; [left|right; exact Hnil].
    destruct Hg' as ((Hlb & Hle & Hr & Hw & Hsum) & HBs & Hpos & Hend & _).
    unfold continues, GetAvailableWrite, GetUsedWrite, GetAvailableRead in Hstop.
    rewrite Hpos, Hend, HBs in Hstop.
    apply andb_false_iff in Hstop as [Hf|Hf]; apply Z.ltb_ge in Hf; lia.
  - split.
    + intros Hb. apply Z.ltb_lt in Hb. lia.
    + intros Hlt. apply Z.ltb_lt. lia.
  - exact Hspans.
Qed.

(** Reading to exhaustion while the decryptor only gathers yields
    nothing. *)
Lemma drain_gathers (B : Z) (fuel : nat) : forall (s : state) (acc : list uint8_t),
  0 < B -> gathering B s ->
  (ReadStream.size (m_source s) < fuel)%nat ->
  exists s',
    Client.drain fuel acc s = Ret acc s' /\
    gathering B s' /\ m_crypto s' = m_crypto s /\
    m_writePos s' + Z.of_nat (length (ReadStream.pending (m_source s')))
    = m_writePos s + Z.of_nat (length (ReadStream.pending (m_source s))) /\
    held s' ++ ReadStream.pending (m_source s')
    = held s ++ ReadStream.pending (m_source s) /\
    (m_writePos s' = TWN_ARRAY_SIZE \/ m_source s' = []).
Proof.
  induction fuel as [|fuel IH]; intros s acc HB Hg Hfuel; [lia|].
  assert (GetAvailableRead s = 0) as Hav.
  { destruct Hg as (_ & _ & Hpos & Hend & _). unfold GetAvailableRead. lia. }
  destruct (Decrypt_gathers B s HB Hg)
    as (b & s1 & Hrun & Hg1 & Hc1 & Hcons1 & Hheld1 & Hexit1 & Hb & Hspans).
  simpl. unfold bind at 1. rewrite (NextRead_empty s Hav), Hrun.
  destruct b.
  - pose proof Hg1 as ((Hlb & Hle & Hr & Hw & Hsum) & HBs & Hpos & Hend & Hfew).
    rewrite Hpos, Hend. run_monad.
    rewrite load_Some by lia. simpl.
    rewrite block_AdvanceRead_run. unfold GetAvailableRead.
    rewrite Hpos, Hend. simpl.
    assert (set_m_readPos 0 s1 = s1) as Hsame
      by (destruct s1; simpl in *; subst; reflexivity).
    change (0 + (0 - 0)) with 0. change (Z.to_nat (0 - 0)) with 0%nat.
    rewrite Hsame, take_0, app_nil_r.
    destruct (IH s1 acc HB Hg1)
      as (s2 & Hd & Hg2 & Hc2 & Hcons2 & Hheld2 & Hexit2).
    { assert (ReadStream.size (m_source s1) < ReadStream.size (m_source s))%nat
        by (apply source_smaller; [apply Hb; reflexivity|exact Hspans]).
      lia. }
    exists s2. split; [exact Hd|]. split; [exact Hg2|].
    split; [congruence|]. split; [lia|]. split; [congruence|exact Hexit2].
  - exists s1. split; [reflexivity|]. auto.
Qed.


(** With a block size above half the capacity the decryptor cannot
    work, although such a block fits the buffers.  A pass transforms
    only when two blocks are accumulated, and the accumulation buffer
    holds fewer: reading to exhaustion yields no plaintext at all, every
    byte pulled stays in the accumulation buffer, and when the source
    holds more than the buffer can take, [NextRead] reports the end of
    the data while bytes remain in the source. *)
Theorem large_blocks_never_decrypt (s : state) (acc : list uint8_t) :
  TWN_ARRAY_SIZE < 2 * m_blockSize s ->
  Invariant.BlockDecryptionStream s -> m_readPos s = 0 -> m_readEnd s = 0 ->
  exists s',
    Client.drain (S (ReadStream.size (m_source s))) acc s = Ret acc s' /\
    GetAvailableRead s' = 0 /\
    m_crypto s' = m_crypto s /\
    m_writePos s' + Z.of_nat (length (ReadStream.pending (m_source s')))
    = m_writePos s + Z.of_nat (length (ReadStream.pending (m_source s))) /\
    (m_writePos s' = TWN_ARRAY_SIZE \/ m_source s' = []) /\
    (TWN_ARRAY_SIZE
     < m_writePos s + Z.of_nat (length (ReadStream.pending (m_source s))) ->
     ReadStream.pending (m_source s') <> []).
Proof.
  intros Hbig HI Hpos Hend.
  assert (gathering (m_blockSize s) s) as Hg.
  { unfold gathering. split; [exact HI|]. repeat apply conj; auto. lia. }
  destruct (drain_gathers (m_blockSize s) (S (ReadStream.size (m_source s)))
              s acc ltac:(unfold TWN_ARRAY_SIZE in *; lia) Hg ltac:(lia))
    as (s' & Hrun & Hg' & Hc & Hcons & _ & Hexit).
  exists s'. split; [exact Hrun|].
  destruct Hg' as ((Hlb & Hle & Hr & Hw & Hsum) & HBs & Hpos' & Hend' & _).
  split; [unfold GetAvailableRead; lia|]. split; [exact Hc|].
  split; [exact Hcons|]. split; [exact Hexit|].
  intros Hmore Hnil. rewrite Hnil in Hcons. simpl in Hcons. lia.
Qed.

(** An empty ciphertext is accepted as the encryption of the empty
    plaintext, although the encryptor never produces it (its output
    holds at least one block of padding).  Over a source without data,
    reading to exhaustion, [Flush] and reading again return no bytes and
    no error: [Flush] transforms zero bytes and checks no padding. *)
Theorem decrypt_empty_source (s : state) :
  0 < m_blockSize s -> length_preserving (m_blockSize s) ->
  Invariant.BlockDecryptionStream s ->
  m_source s = [] -> m_writePos s = 0 -> GetAvailableRead s = 0 ->
  exists s', Client.decrypt s = Ret [] s'.
Proof.
  intros HB Hlp (Hlb & Hle & Hr & Hw & Hsum) Hsrc Hw0 Hav.
  unfold Client.decrypt. unfold bind at 1. unfold gets at 1.
  rewrite Hsrc. unfold bind at 1.
  change (S (ReadStream.size [])) with 1%nat.
  simpl Client.drain. unfold bind at 1.
  rewrite (NextRead_empty s Hav), (Decrypt_exhausted s Hsrc).
  set (s0 := set_m_readPos 0 (set_m_readEnd 0 s)).
  unfold ret at 1.
  destruct (crypto_Cipher (m_crypto s0)
              (take (Z.to_nat (m_writePos s0)) (m_encrypedBuffer s0)))
    as [c out] eqn:Hc.
  assert (out = []) as ->.
  { pose proof (Hlp (m_crypto s0)
                  (take (Z.to_nat (m_writePos s0)) (m_encrypedBuffer s0))) as Hl.
    rewrite Hc in Hl. simpl in Hl. rewrite Hw0 in Hl. simpl in Hl.
    assert (0 mod m_blockSize s = 0) as Hz by (apply Z.mod_0_l; lia).
    specialize (Hl Hz).
    destruct out; [reflexivity|discriminate]. }
  destruct (store (m_buffer s0) (m_readEnd s0) []) as [mem|] eqn:Hs.
  2:{ rewrite store_Some in Hs by (simpl; lia). discriminate. }
  unfold bind at 1.
  assert (asserts_fatal = true ->
          m_writePos s0 mod m_blockSize s0 = 0 /\
          m_writePos s0 <= TWN_ARRAY_SIZE + m_readEnd s0) as Hfat.
  { intros _. simpl. rewrite Hw0. split; [apply Z.mod_0_l; lia|].
    unfold TWN_ARRAY_SIZE. lia. }
  rewrite (Flush_nothing s0 c mem HB ltac:(simpl; lia) Hfat Hc Hs).
  unfold bind at 1. unfold gets at 1. simpl m_source. rewrite Hsrc.
  change (S (S (ReadStream.size []))) with 2%nat.
  set (s1 := set_m_writePos 0 (flushed s0 c mem 0)).
  destruct (drain_exhausted [] s1) as (s2 & Hd).
  { exact Hsrc. }
  { simpl. lia. }
  { apply store_length in Hs. simpl in *. lia. }
  exists s2. exact Hd.
Qed.

End DecryptorEdges.
(** ** What the reader gets before [Flush] *)

Section BeforeFlush.
Context `{Build} `{Crypto}.
Import BlockDecryptionStream.

(** A fresh decryptor over the ciphertext [ct] of at least one block. *)
Lemma reading_fresh (B : Z) (ct : list uint8_t) (s : state) :
  0 < B -> Invariant.BlockDecryptionStream s -> m_blockSize s = B ->
  m_writePos s = 0 -> ReadStream.pending (m_source s) = ct ->
  B <= Z.of_nat (length ct) ->
  reading B (m_crypto s) ct 0 s.
Proof.
  intros HB HI HBs Hw0 Hpend Hone.
  unfold reading, held. rewrite Hw0. simpl.
  split; [exact HI|]. split; [exact HBs|].
  split; [apply Z.mod_0_l; lia|]. split; [lia|]. split; [lia|].
  split; [exact Hpend|reflexivity].
Qed.

(** What [reading] says once the source is exhausted. *)
Lemma reading_exhausted (B : Z) (d0 : session) (ct : list uint8_t) (t : nat)
    (s : state) :
  0 < B -> reading B d0 ct t s -> m_source s = [] ->
  held s = drop t ct /\
  m_writePos s = Z.of_nat (length ct) - Z.of_nat t /\
  B <= m_writePos s < 2 * B /\
  m_writePos s mod B = Z.of_nat (length ct) mod B.
Proof.
  intros HB ((Hlb & Hle & Hr & Hw & Hsum) & HBs & Ht & Hleft & Hused
             & Hheld & Hsess) Hsrc.
  rewrite Hsrc in Hheld. simpl in Hheld. rewrite app_nil_r in Hheld.
  assert (m_writePos s = Z.of_nat (length ct) - Z.of_nat t) as Hu.
  { apply (f_equal length) in Hheld. unfold held in Hheld.
    rewrite length_take, length_drop in Hheld. lia. }
  split; [exact Hheld|]. split; [exact Hu|]. split; [lia|].
  rewrite Hu, Zminus_mod, Ht, Z.sub_0_r, Z.mod_mod by lia. reflexivity.
Qed.

(** Before [Flush] the reader never sees the last block, for a block
    size of which two blocks fit the window, [2 B <= 4096].  Reading a
    ciphertext of at least one block to exhaustion yields the transform
    of its first [t] bytes, a whole number of blocks; the last whole
    block, and the partial block behind it if the ciphertext is not
    aligned, between [B] and [2 B - 1] bytes, stay in the accumulation
    buffer until [Flush]. *)
Theorem drain_withholds_last_block (B : Z) (ct : list uint8_t) (s : state) :
  0 < B -> 2 * B <= TWN_ARRAY_SIZE ->
  length_preserving B -> chunking_independent B ->
  Invariant.BlockDecryptionStream s -> m_blockSize s = B ->
  m_writePos s = 0 -> GetAvailableRead s = 0 ->
  ReadStream.pending (m_source s) = ct -> B <= Z.of_nat (length ct) ->
  exists (s' : state) (t : nat),
    Client.drain (S (ReadStream.size (m_source s))) [] s
    = Ret (snd (ciphered (m_crypto s) (take t ct))) s' /\
    Z.of_nat (length (snd (ciphered (m_crypto s) (take t ct)))) = Z.of_nat t /\
    Z.of_nat t mod B = 0 /\
    B <= Z.of_nat (length ct) - Z.of_nat t < 2 * B /\
    m_source s' = [] /\ GetAvailableRead s' = 0 /\
    held s' = drop t ct.
Proof.
  intros HB Hcap Hlength Hchunks HI HBs Hw0 Hav Hpend Hone.
  pose proof (reading_fresh B ct s HB HI HBs Hw0 Hpend Hone) as Hread.
  destruct (drain_reading B (m_crypto s) ct HB Hlength Hchunks
              (S (ReadStream.size (m_source s))) s 0 Hcap Hread Hav ltac:(lia))
    as (s1 & t & Hdrain & Hread1 & Hsrc1 & Hpos1 & Hend1).
  change (snd (ciphered (m_crypto s) (take 0 ct))) with (@nil uint8_t) in Hdrain.
  destruct (reading_exhausted B _ ct t s1 HB Hread1 Hsrc1)
    as (Hheld & Hu & Hrange & _).
  pose proof Hread1 as (_ & _ & Ht & _).
  exists s1, t. split; [exact Hdrain|]. split.
  { assert (length (take t ct) = t) as Hlt by (rewrite length_take; lia).
    destruct (take t ct) as [|b l] eqn:E; [simpl in *; lia|].
    unfold ciphered. rewrite Hlength; [lia|]. rewrite Hlt. exact Ht. }
  split; [exact Ht|]. split; [lia|]. split; [exact Hsrc1|].
  split; [unfold GetAvailableRead; lia|exact Hheld].
Qed.

(** A truncated ciphertext is detected by [Flush], and only there.  In
    a build whose assertions are fatal, decrypting a ciphertext whose
    length is not a multiple of the block size stops in the
    [TWN_REQUIRE] of [Flush], after everything but the withheld tail has
    been handed to the reader; the source has been read to its end. *)
Theorem decrypt_truncated (B : Z) (ct : list uint8_t) (s : state) :
  asserts_fatal = true ->
  0 < B -> 2 * B <= TWN_ARRAY_SIZE ->
  length_preserving B -> chunking_independent B ->
  Invariant.BlockDecryptionStream s -> m_blockSize s = B ->
  m_writePos s = 0 -> m_readPos s = 0 -> m_readEnd s = 0 ->
  ReadStream.pending (m_source s) = ct ->
  Z.of_nat (length ct) mod B <> 0 ->
  exists s',
    Client.decrypt s = Halt RequireFailed s' /\
    m_source s' = [] /\
    m_writePos s' mod B = Z.of_nat (length ct) mod B.
Proof.
  intros Hfatal HB Hcap Hlength Hchunks HI HBs Hw0 Hpos Hend Hpend Hodd.
  assert (GetAvailableRead s = 0) as Hav by (unfold GetAvailableRead; lia).
  unfold Client.decrypt. unfold bind at 1. unfold gets at 1.
  unfold bind at 1.
  destruct (Z_le_gt_dec B (Z.of_nat (length ct))) as [Hone|Hshort].
  - pose proof (reading_fresh B ct s HB HI HBs Hw0 Hpend Hone) as Hread.
    destruct (drain_reading B (m_crypto s) ct HB Hlength Hchunks
                (S (ReadStream.size (m_source s))) s 0 Hcap Hread Hav ltac:(lia))
      as (s1 & t & Hdrain & Hread1 & Hsrc1 & Hpos1 & Hend1).
    change (snd (ciphered (m_crypto s) (take 0 ct))) with (@nil uint8_t)
      in Hdrain.
    rewrite Hdrain.
    destruct (reading_exhausted B _ ct t s1 HB Hread1 Hsrc1)
      as (Hheld & Hu & Hrange & Hmod).
    pose proof Hread1 as (_ & HBs1 & _).
    assert (Flush s1 = Halt RequireFailed s1) as Hfl
      by (apply (Flush_unaligned_fatal s1 Hfatal); rewrite ?HBs1; lia).
    unfold bind at 1. rewrite Hfl.
    exists s1. split; [reflexivity|]. split; [exact Hsrc1|exact Hmod].
  - assert (gathering B s) as Hg.
    { unfold gathering. split; [exact HI|]. rewrite Hpend, Hw0.
      repeat apply conj; auto. lia. }
    destruct (drain_gathers B (S (ReadStream.size (m_source s))) s []
                HB Hg ltac:(lia))
      as (s1 & Hdrain & Hg1 & Hc1 & Hcons & _ & Hexit).
    rewrite Hdrain.
    destruct Hg1 as ((Hlb & Hle & Hr & Hw & Hsum) & HBs1 & Hpos1 & Hend1 & _).
    rewrite Hpend, Hw0 in Hcons.
    assert (m_source s1 = []) as Hsrc1.
    { destruct Hexit as [Hfull|Hnil]; [|exact Hnil].
      unfold TWN_ARRAY_SIZE in *. lia. }
    rewrite Hsrc1 in Hcons. simpl in Hcons.
    assert (m_writePos s1 = Z.of_nat (length ct)) as Hu by lia.
    assert (Flush s1 = Halt RequireFailed s1) as Hfl
      by (apply (Flush_unaligned_fatal s1 Hfatal); rewrite ?HBs1, ?Hu; lia).
    unfold bind at 1. rewrite Hfl.
    exists s1. split; [reflexivity|]. split; [exact Hsrc1|].
    rewrite Hu. reflexivity.
Qed.

End BeforeFlush.
(** ** How much ciphertext the encryptor delivers *)

Section CiphertextLength.
Context `{Build} `{Crypto} {W : Type} `{WriteStream W}.
Import BlockEncryptionStream.

Lemma ciphered_length (B : Z) (c : session) (x : list uint8_t) :
  length_preserving B -> Z.of_nat (length x) mod B = 0 ->
  length (snd (ciphered c x)) = length x.
Proof.
  intros Hlp Hal. destruct x as [|b x]; [reflexivity|].
  unfold ciphered. apply Hlp. exact Hal.
Qed.

(** The sink only ever receives whole blocks.  After a plaintext of
    [L] bytes has been written, in whatever chunks, the sink holds
    [L - L mod B] bytes of ciphertext and [L mod B] bytes wait in the
    accumulation buffer; [Flush] brings the total to
    [L - L mod B + B]: the ciphertext is the plaintext rounded up to
    the next multiple of the block size, a whole block longer when the
    plaintext is aligned.  This holds for every block size below the
    capacity. *)
Theorem ciphertext_is_whole_blocks (B : Z) (contents : W -> list uint8_t)
    (chunks : list (list uint8_t)) (e : state W) :
  0 < B < TWN_ARRAY_SIZE ->
  length_preserving B -> chunking_independent B -> delivers contents ->
  Invariant.BlockEncryptionStream e -> m_blockSize e = B -> m_writePos e = 0 ->
  within_spans B 0 chunks ->
  let L := Z.of_nat (length (concat chunks)) in
  (exists e1 ct1,
     Client.write_all chunks e = Ret true e1 /\
     contents (m_dest e1) = contents (m_dest e) ++ ct1 /\
     Z.of_nat (length ct1) = L - L mod B /\
     m_writePos e1 = L mod B) /\
  (exists e2 ct,
     Client.encrypt chunks e = Ret true e2 /\
     contents (m_dest e2) = contents (m_dest e) ++ ct /\
     Z.of_nat (length ct) = L - L mod B + B).
Proof.
  intros [HB Hcap] Hlength Hchunks Hsink HI HBs Hpos Hfit L.
  set (P := concat chunks) in *.
  assert (written B contents (m_crypto e) (m_dest e) [] e) as Hw.
  { split; [exact HI|]. split; [exact HBs|]. exists 0%nat. simpl.
    rewrite app_nil_r, Hpos.
    repeat apply conj; auto; lia. }
  split.
  - rewrite <- Hpos in Hfit.
    destruct (write_all_written B contents _ _ HB Hlength Hchunks Hsink
                chunks [] e Hw Hfit)
      as (e1 & Hrun & _ & _ & a & Ha & Hal & Hpos1 & Hlt & _ & _ & Hout).
    simpl in Hout, Hpos1. fold P in Hout, Hpos1, Ha.
    assert (L mod B = Z.of_nat (length P - a)) as Hmod.
    { simpl in Ha. unfold L. replace (Z.of_nat (length P))
        with (Z.of_nat (length P - a) + Z.of_nat a) by lia.
      rewrite Z.add_mod, Hal, Z.add_0_r, Z.mod_mod by lia.
      apply Z.mod_small. lia. }
    exists e1, (snd (ciphered (m_crypto e) (take a P))).
    split; [exact Hrun|]. split; [exact Hout|]. split; [|lia].
    simpl in Ha. rewrite (ciphered_length B) by
      (auto; rewrite length_take; replace (a `min` length P)%nat with a by lia;
       exact Hal).
    rewrite length_take. unfold L in *. lia.
  - destruct (encrypt_delivers B contents _ _ HB Hlength Hchunks Hsink chunks e
                Hw Hfit Hcap)
      as (e2 & Hrun & Hcont).
    fold P in Hcont.
    set (p := padLen B (Z.of_nat (length P))) in *.
    pose proof (padLen_range B (Z.of_nat (length P)) HB) as Hp. fold p in Hp.
    pose proof (padLen_aligned B (Z.of_nat (length P)) HB) as Hal. fold p in Hal.
    pose proof (padding_length p ltac:(lia)) as Hpl.
    eexists e2, _. split; [exact Hrun|]. split; [exact Hcont|].
    rewrite Hlength by (rewrite length_app, Nat2Z.inj_add, Hpl; exact Hal).
    rewrite length_app, Nat2Z.inj_add, Hpl. unfold p, padLen, L. lia.
Qed.

End CiphertextLength.
(** ** The streaming decryptor *)

Lemma AdvanceRead_fits (n : Z) (span : list uint8_t) (rest : ReadStream.t) :
  Z.of_nat (length span) < 2 ^ 31 -> spans_fit_int rest ->
  spans_fit_int (ReadStream.AdvanceRead n (span :: rest)).
Proof.
  intros Hsmall Hrest. unfold ReadStream.AdvanceRead.
  destruct (drop (Z.to_nat n) span) as [|b l] eqn:E; [exact Hrest|].
  apply Forall_cons. split; [|exact Hrest].
  rewrite <- E, length_drop. lia.
Qed.

Section StreamReaderFacts.
Context `{Build} `{Crypto}.
Import DecryptionStream.

Hypothesis Hlength : length_preserving 1.
Hypothesis Hchunks : chunking_independent 1.
Hypothesis Hnothing : transforms_nothing.

Lemma stream_length (c : session) (x : list uint8_t) :
  length (snd (crypto_Cipher c x)) = length x.
Proof. apply Hlength. apply Z.mod_1_r. Qed.

Lemma stream_app (c : session) (x y : list uint8_t) :
  crypto_Cipher c (x ++ y)
  = (fst (crypto_Cipher (fst (crypto_Cipher c x)) y),
     snd (crypto_Cipher c x)
     ++ snd (crypto_Cipher (fst (crypto_Cipher c x)) y)).
Proof. apply Hchunks; apply Z.mod_1_r. Qed.

(** [Decrypt] with a source that has data. *)
Lemma stream_Decrypt_run (s : state) (span : list uint8_t)
    (rest : ReadStream.t) :
  Z.of_nat (length (m_buffer s)) = TWN_ARRAY_SIZE ->
  m_source s = span :: rest ->
  Z.of_nat (length span) < 2 ^ 31 ->
  let len := Z.min TWN_ARRAY_SIZE (Z.of_nat (length span)) in
  let r := crypto_Cipher (m_crypto s) (take (Z.to_nat len) span) in
  Decrypt s
  = Ret true
      {| m_source := ReadStream.AdvanceRead len (span :: rest);
         m_crypto := fst r;
         m_buffer := snd r ++ drop (Z.to_nat len) (m_buffer s);
         m_readPos := 0; m_readEnd := len |}.
Proof.
  intros Hlb Hsrc Hsmall len r.
  assert (0 <= len <= TWN_ARRAY_SIZE /\ len <= Z.of_nat (length span))
    as [Hlen Hlen'] by (unfold len, TWN_ARRAY_SIZE; lia).
  assert (length (take (Z.to_nat len) span) = Z.to_nat len) as Hlt
    by (rewrite length_take; unfold len; lia).
  assert (length (snd r) = Z.to_nat len) as Hlr
    by (unfold r; rewrite stream_length; exact Hlt).
  match goal with |- _ = ?rhs => set (target := rhs) end.
  unfold Decrypt. run_monad. rewrite Hsrc.
  change (ReadStream.NextRead (span :: rest)) with (Some span).
  cbv beta iota. rewrite static_cast_int_small by lia. fold len.
  rewrite load_prefix by lia. simpl.
  rewrite store_Some by (simpl; lia). simpl.
  rewrite Hlt.
  set (mem := take (Z.to_nat len) span ++ drop (Z.to_nat len) (m_buffer s)).
  assert (length mem = length (m_buffer s)) as Hlm.
  { unfold mem. rewrite length_app, Hlt, length_drop. lia. }
  rewrite load_prefix by lia. simpl.
  assert (take (Z.to_nat len) mem = take (Z.to_nat len) span) as Htm.
  { unfold mem. rewrite take_app_length'; [reflexivity|symmetry; exact Hlt]. }
  rewrite Htm. fold r.
  rewrite store_Some by lia. simpl.
  rewrite Hlr.
  assert (drop (Z.to_nat len) mem = drop (Z.to_nat len) (m_buffer s)) as Hdm.
  { unfold mem. rewrite drop_app_length'; [reflexivity|symmetry; exact Hlt]. }
  rewrite Hdm, Z2Nat.id by lia. reflexivity.
Qed.


Lemma stream_Decrypt_exhausted (s : state) :
  m_source s = [] ->
  Decrypt s = Ret false (set_m_readPos 0 (set_m_readEnd 0 s)).
Proof.
  intros Hsrc. unfold Decrypt. run_monad. rewrite Hsrc. reflexivity.
Qed.

Lemma stream_NextRead_empty (s : state) :
  GetAvailableRead s = 0 ->
  NextRead s
  = match Decrypt s with
    | Ret true s' =>
        Ret (Some {| GetData := m_readPos s';
                     GetDataLen := m_readEnd s' - m_readPos s' |}) s'
    | Ret false s' => Ret None s'
    | Halt f s' => Halt f s'
    end.
Proof.
  intros Hav. unfold NextRead. unfold bind at 1. unfold gets at 1.
  unfold bind at 1. rewrite Hav. simpl.
  destruct (Decrypt s) as [[|] s'|f s']; reflexivity.
Qed.

(** Reading to exhaustion: everything the source holds goes through
    the cipher, in order, and is handed to the reader. *)
Lemma stream_drain (fuel : nat) : forall (s : state) (acc : list uint8_t),
  Z.of_nat (length (m_buffer s)) = TWN_ARRAY_SIZE ->
  GetAvailableRead s = 0 ->
  spans_fit_int (m_source s) ->
  (ReadStream.size (m_source s) < fuel)%nat ->
  exists s',
    StreamClient.drain fuel acc s
    = Ret (acc ++ snd (crypto_Cipher (m_crypto s)
                         (ReadStream.pending (m_source s)))) s' /\
    m_crypto s'
    = fst (crypto_Cipher (m_crypto s) (ReadStream.pending (m_source s))) /\
    m_source s' = [] /\
    Z.of_nat (length (m_buffer s')) = TWN_ARRAY_SIZE /\
    GetAvailableRead s' = 0.
Proof.
  induction fuel as [|fuel IH]; intros s acc Hlb Hav Hfit Hfuel; [lia|].
  simpl StreamClient.drain. unfold bind at 1.
  rewrite (stream_NextRead_empty s Hav).
  destruct (m_source s) as [|span rest] eqn:Hsrc.
  - rewrite (stream_Decrypt_exhausted s Hsrc). unfold ret.
    eexists. split; [|split; [|split; [|split]]].
    + simpl. rewrite Hnothing. simpl. rewrite app_nil_r. reflexivity.
    + simpl. rewrite Hnothing. reflexivity.
    + exact Hsrc.
    + exact Hlb.
    + reflexivity.
  - apply Forall_cons in Hfit as [Hsmall Hrest].
    rewrite (stream_Decrypt_run s span rest Hlb Hsrc Hsmall). cbv zeta.
    set (len := Z.min TWN_ARRAY_SIZE (Z.of_nat (length span))).
    assert (0 <= len <= TWN_ARRAY_SIZE) as Hlen
      by (unfold len, TWN_ARRAY_SIZE; lia).
    assert (length (take (Z.to_nat len) span) = Z.to_nat len) as Hlt
      by (rewrite length_take; unfold len; lia).
    set (r := crypto_Cipher (m_crypto s) (take (Z.to_nat len) span)).
    assert (length (snd r) = Z.to_nat len) as Hlr
      by (unfold r; rewrite stream_length; exact Hlt).
    set (s1 := {| m_source := ReadStream.AdvanceRead len (span :: rest);
                  m_crypto := fst r;
                  m_buffer := snd r ++ drop (Z.to_nat len) (m_buffer s);
                  m_readPos := 0; m_readEnd := len |}).
    assert (Z.of_nat (length (m_buffer s1)) = TWN_ARRAY_SIZE) as Hlb1.
    { simpl. rewrite length_app, Hlr, length_drop. lia. }
    cbn [m_readPos m_readEnd]. fold s1.
    unfold bind at 1. unfold gets at 1. unfold bind at 1.
    rewrite Z.sub_0_r. cbn [GetData GetDataLen].
    change (m_readPos s1) with 0. change (m_readEnd s1) with len.
    rewrite load_prefix by lia. unfold checked, ret. cbn [m_buffer s1].
    rewrite <- Hlr, take_app_length.
    unfold bind at 1.
    rewrite stream_AdvanceRead_run. unfold GetAvailableRead.
    cbn [m_readPos m_readEnd s1]. rewrite Z.sub_0_r, Z.leb_refl.
    set (s2 := set_m_readPos (0 + len) s1).
    destruct (IH s2 (acc ++ snd r)) as (s' & Hrun & Hc & Hsrc' & Hlb' & Hav').
    { exact Hlb1. }
    { unfold GetAvailableRead. simpl. lia. }
    { apply (AdvanceRead_fits len span rest); [exact Hsmall|exact Hrest]. }
    { assert (ReadStream.size (m_source s2)
              < ReadStream.size (span :: rest))%nat; [|lia].
      apply AdvanceRead_size.
      destruct span; [right; reflexivity|left].
      unfold len, TWN_ARRAY_SIZE. simpl length. lia. }
    assert (ReadStream.pending (span :: rest)
            = take (Z.to_nat len) span
              ++ ReadStream.pending (ReadStream.AdvanceRead len (span :: rest)))
      as Hsplit.
    { rewrite AdvanceRead_pending. unfold ReadStream.pending. simpl.
      rewrite app_assoc, take_drop. reflexivity. }
    change (m_crypto s2) with (fst r) in Hrun, Hc.
    change (m_source s2) with (ReadStream.AdvanceRead len (span :: rest))
      in Hrun, Hc.
    exists s'. rewrite Hsplit, stream_app. fold r. simpl fst. simpl snd.
    split; [|split; [|auto]].
    + rewrite Hrun, <- app_assoc. reflexivity.
    + exact Hc.
Qed.

End StreamReaderFacts.
(** ** The streaming encryptor *)

Lemma store_store_same (buf : list uint8_t) (off : Z)
    (d1 d2 buf1 : list uint8_t) :
  store buf off d1 = Some buf1 -> length d2 = length d1 ->
  store buf1 off d2 = store buf off d2.
Proof.
  intros Hs Hl.
  pose proof (store_length _ _ _ _ Hs) as Hlen.
  pose proof Hs as (Hlo & Hhi & _)%store_inv.
  rewrite !store_Some by lia. f_equal.
  rewrite (take_store_before _ _ _ _ _ Hs) by lia.
  rewrite (drop_store_after _ _ _ _ _ Hs) by lia. reflexivity.
Qed.

Section StreamWriterFacts.
Context `{Crypto} {D : Type} `{SpanWriteStream D}.
Import EncryptionStream.

(** [AdvanceWrite] when the bytes to commit lie in the sink's memory
    and the cipher yields as many. *)
Lemma stream_AdvanceWrite_run (s : state D) (bytes : Z)
    (plain mem : list uint8_t) :
  let off := GetData (m_lastBuffer s) in
  let r := crypto_Cipher (m_crypto s) plain in
  load (dest_memory (m_dest s)) off bytes = Some plain ->
  store (dest_memory (m_dest s)) off (snd r) = Some mem ->
  AdvanceWrite bytes s
  = let a := dest_AdvanceWrite (static_cast_int (Z.of_nat (length (snd r))))
               (set_dest_memory mem (m_dest s)) in
    Ret (fst a)
      {| m_lastBuffer := m_lastBuffer s; m_dest := snd a; m_crypto := fst r |}.
Proof.
  intros off r Hload Hstore. unfold AdvanceWrite. run_monad.
  fold off. rewrite Hload. simpl. fold r. rewrite Hstore. reflexivity.
Qed.

Lemma stream_NextWrite_run (s : state D) :
  NextWrite s
  = let r := dest_NextWrite (m_lastBuffer s) (m_dest s) in
    Ret (fst (fst r),
         {| GetData := GetData (snd (fst r));
            GetDataLen := GetDataLen (snd (fst r)) |})
      {| m_lastBuffer := snd (fst r); m_dest := snd r;
         m_crypto := m_crypto s |}.
Proof. reflexivity. Qed.

Variable contents : D -> list uint8_t.
Hypothesis Hsink : accepts contents.
Hypothesis Hlength : length_preserving 1.
Hypothesis Hchunks : chunking_independent 1.
Hypothesis Hnothing : transforms_nothing.

Lemma stream_write (chunk : list uint8_t) (s : state D) :
  Z.of_nat (length chunk) < 2 ^ 31 ->
  exists ok s',
    StreamClient.write chunk s = Ret ok s' /\
    (ok = true ->
     contents (m_dest s')
     = contents (m_dest s) ++ snd (crypto_Cipher (m_crypto s) chunk) /\
     m_crypto s' = fst (crypto_Cipher (m_crypto s) chunk)).
Proof.
  intros Hsmall. destruct Hsink as (Hget & Hset & Hspan).
  unfold StreamClient.write. unfold bind at 1.
  rewrite stream_NextWrite_run. cbv zeta.
  specialize (Hspan (m_lastBuffer s) (m_dest s)). cbv zeta in Hspan.
  destruct (dest_NextWrite (m_lastBuffer s) (m_dest s)) as [[ok b] d'] eqn:Hn.
  cbn [fst snd GetData GetDataLen] in *.
  destruct ok; cbn [andb];
    [|eexists _, _; split; [reflexivity|discriminate]].
  destruct (Z.leb_spec (Z.of_nat (length chunk)) (GetDataLen b)) as [Hfit|Hbig];
    [|eexists _, _; split; [reflexivity|discriminate]].
  destruct (Hspan eq_refl) as (Hlo & Hlen & Hhi & Hcommit).
  destruct (store (dest_memory d') (GetData b) chunk) as [mem1|] eqn:Hs1.
  2:{ rewrite store_Some in Hs1 by lia. discriminate. }
  unfold bind at 1. unfold gets at 1. cbn [m_dest].
  unfold bind at 1. rewrite Hs1. unfold checked at 1. unfold ret at 1.
  unfold bind at 1. unfold modify at 1.
  set (s1 := set_m_dest (set_dest_memory mem1 d') _).
  set (r := crypto_Cipher (m_crypto s) chunk).
  assert (length (snd r) = length chunk) as Hlr
    by (apply Hlength; apply Z.mod_1_r).
  destruct (store (dest_memory d') (GetData b) (snd r)) as [mem2|] eqn:Hs2.
  2:{ rewrite store_Some in Hs2 by lia. discriminate. }
  pose proof (stream_AdvanceWrite_run s1 (Z.of_nat (length chunk)) chunk mem2)
    as Hrun.
  cbv zeta in Hrun. cbn [m_lastBuffer m_dest m_crypto s1 set_m_dest] in Hrun.
  rewrite Hget in Hrun. fold r in Hrun.
  rewrite Hrun; clear Hrun.
  2:{ apply (load_store_same _ _ _ _ Hs1). }
  2:{ rewrite (store_store_same _ _ _ _ _ Hs1 Hlr). exact Hs2. }
  rewrite Hset, static_cast_int_small by lia.
  destruct (Hcommit (snd r) mem2 ltac:(lia) Hs2) as [Hok Hcont].
  cbv zeta in Hok, Hcont. rewrite Hlr in Hok, Hcont.
  cbv zeta. rewrite Hlr, Hok.
  eexists _, _. split; [reflexivity|]. intros _. cbn [m_dest m_crypto].
  split; [exact Hcont|reflexivity].
Qed.

Lemma stream_write_all (chunks : list (list uint8_t)) : forall s : state D,
  Forall (fun chunk => Z.of_nat (length chunk) < 2 ^ 31) chunks ->
  exists ok s',
    StreamClient.write_all chunks s = Ret ok s' /\
    (ok = true ->
     contents (m_dest s')
     = contents (m_dest s) ++ snd (crypto_Cipher (m_crypto s) (concat chunks)) /\
     m_crypto s' = fst (crypto_Cipher (m_crypto s) (concat chunks))).
Proof.
  induction chunks as [|chunk rest IH]; intros s Hsmall.
  - exists true, s. split; [reflexivity|]. intros _. simpl.
    rewrite Hnothing. simpl. rewrite app_nil_r. auto.
  - apply Forall_cons in Hsmall as [Hc Hrest].
    destruct (stream_write chunk s Hc) as (ok & s1 & Hrun & Hok).
    simpl StreamClient.write_all. unfold bind at 1. rewrite Hrun.
    destruct ok; [|exists false, s1; split; [reflexivity|discriminate]].
    destruct (Hok eq_refl) as [Hcont Hsess].
    destruct (IH s1 Hrest) as (ok2 & s2 & Hrun2 & Hok2).
    exists ok2, s2. split; [exact Hrun2|]. intros Htrue.
    destruct (Hok2 Htrue) as [Hcont2 Hsess2].
    simpl concat.
    rewrite (Hchunks (m_crypto s) chunk (concat rest))
      by apply Z.mod_1_r.
    simpl. rewrite Hcont2, Hcont, Hsess2, Hsess, <- app_assoc. auto.
Qed.

End StreamWriterFacts.
(** ** The streaming pair *)

Section StreamClaims.
Context `{Build} `{Crypto}.

(** Reading a streaming decryptor to exhaustion hands the reader the
    transform of everything the source holds, in order, however the
    source cuts its data into spans, as long as every span is shorter
    than 2^31 bytes (the length of a span is converted to an [int]): a
    span longer than the window is taken in pieces of 4096 bytes, and
    nothing is lost or repeated between the pieces.  The result is as
    long as the data of the source, and the source is left empty. *)
Theorem stream_read_all (s : DecryptionStream.state) :
  length_preserving 1 -> chunking_independent 1 -> transforms_nothing ->
  Invariant.DecryptionStream s -> DecryptionStream.GetAvailableRead s = 0 ->
  spans_fit_int (DecryptionStream.m_source s) ->
  let data := ReadStream.pending (DecryptionStream.m_source s) in
  let r := crypto_Cipher (DecryptionStream.m_crypto s) data in
  exists s',
    StreamClient.read_all s = Ret (snd r) s' /\
    length (snd r) = length data /\
    DecryptionStream.m_source s' = [] /\
    DecryptionStream.m_crypto s' = fst r /\
    DecryptionStream.GetAvailableRead s' = 0.
Proof.
  intros Hlength Hchunks Hnothing (Hlb & _) Hav Hfit data r.
  destruct (stream_drain Hlength Hchunks Hnothing
              (S (ReadStream.size (DecryptionStream.m_source s))) s []
              Hlb Hav Hfit ltac:(lia))
    as (s' & Hrun & Hc & Hsrc & _ & Hav').
  exists s'. split; [exact Hrun|].
  split; [apply (stream_length Hlength)|]. auto.
Qed.

(** [SetSource] in the middle of a stream: a streaming decryptor that
    has read one source to its end and is given the next goes on with
    the same cipher session, so the reader gets the transform of the
    data of both sources, as if they were one.  The spans of both
    sources are shorter than 2^31 bytes. *)
Theorem stream_read_both (s : DecryptionStream.state) (next : ReadStream.t) :
  length_preserving 1 -> chunking_independent 1 -> transforms_nothing ->
  Invariant.DecryptionStream s -> DecryptionStream.GetAvailableRead s = 0 ->
  spans_fit_int (DecryptionStream.m_source s) -> spans_fit_int next ->
  exists s',
    StreamClient.read_both next s
    = Ret (snd (crypto_Cipher (DecryptionStream.m_crypto s)
                  (ReadStream.pending (DecryptionStream.m_source s)
                   ++ ReadStream.pending next))) s' /\
    DecryptionStream.m_source s' = [].
Proof.
  intros Hlength Hchunks Hnothing (Hlb & _) Hav Hfit Hfit'.
  destruct (stream_drain Hlength Hchunks Hnothing
              (S (ReadStream.size (DecryptionStream.m_source s))) s []
              Hlb Hav Hfit ltac:(lia))
    as (s1 & Hrun & Hc & Hsrc & Hlb1 & Hav1).
  rewrite app_nil_l in Hrun.
  unfold StreamClient.read_both. unfold bind at 1.
  unfold StreamClient.read_all. unfold bind at 1. unfold gets at 1.
  rewrite Hrun. unfold bind at 1.
  unfold DecryptionStream.SetSource, modify.
  set (s2 := DecryptionStream.set_m_source next s1).
  destruct (stream_drain Hlength Hchunks Hnothing
              (S (ReadStream.size next)) s2
              (snd (crypto_Cipher (DecryptionStream.m_crypto s)
                      (ReadStream.pending (DecryptionStream.m_source s))))
              Hlb1 Hav1 Hfit' ltac:(simpl; lia))
    as (s3 & Hrun3 & _ & Hsrc3 & _).
  exists s3. split; [|exact Hsrc3].
  rewrite Hrun3. f_equal. simpl. rewrite Hc.
  rewrite (stream_app Hchunks). reflexivity.
Qed.

End StreamClaims.

Section StreamWriterClaims.
Context `{Build} `{Crypto} {D : Type} `{SpanWriteStream D}.

(** [EncryptionStream::AdvanceWrite] works in place on the sink's
    memory.  The [bytes] bytes at the start of the view that
    [NextWrite] stored last are replaced by their transform, every
    other byte of the memory is as it was, and exactly [bytes] bytes are
    committed to the sink, whose answer is the result.  The length of
    the view is not looked at: [bytes] is only limited by the memory. *)
Theorem stream_AdvanceWrite_in_place (s : EncryptionStream.state D)
    (bytes : Z) :
  length_preserving 1 ->
  let off := GetData (EncryptionStream.m_lastBuffer s) in
  let mem := dest_memory (EncryptionStream.m_dest s) in
  0 <= off -> 0 <= bytes < 2 ^ 31 -> off + bytes <= Z.of_nat (length mem) ->
  exists plain mem' s',
    load mem off bytes = Some plain /\
    let r := crypto_Cipher (EncryptionStream.m_crypto s) plain in
    let a := dest_AdvanceWrite bytes
               (set_dest_memory mem' (EncryptionStream.m_dest s)) in
    EncryptionStream.AdvanceWrite bytes s = Ret (fst a) s' /\
    EncryptionStream.m_dest s' = snd a /\
    EncryptionStream.m_crypto s' = fst r /\
    EncryptionStream.m_lastBuffer s' = EncryptionStream.m_lastBuffer s /\
    load mem' off bytes = Some (snd r) /\
    take (Z.to_nat off) mem' = take (Z.to_nat off) mem /\
    drop (Z.to_nat (off + bytes)) mem' = drop (Z.to_nat (off + bytes)) mem /\
    length mem' = length mem.
Proof.
  intros Hlength off mem Hoff Hbytes Hfit.
  set (plain := take (Z.to_nat bytes) (drop (Z.to_nat off) mem)).
  assert (load mem off bytes = Some plain) as Hload
    by (apply load_Some; lia).
  assert (Z.of_nat (length plain) = bytes) as Hlp
    by (apply (load_length _ _ _ _ Hload)).
  set (r := crypto_Cipher (EncryptionStream.m_crypto s) plain).
  assert (length (snd r) = length plain) as Hlr
    by (apply Hlength; apply Z.mod_1_r).
  destruct (store mem off (snd r)) as [mem'|] eqn:Hs.
  2:{ rewrite store_Some in Hs by lia. discriminate. }
  exists plain, mem'. eexists. split; [exact Hload|]. cbv zeta.
  rewrite (stream_AdvanceWrite_run s bytes plain mem' Hload Hs).
  cbv zeta. fold r. rewrite Hlr, Hlp, static_cast_int_small by lia.
  split; [reflexivity|]. cbn [EncryptionStream.m_dest
    EncryptionStream.m_crypto EncryptionStream.m_lastBuffer].
  split; [reflexivity|]. split; [reflexivity|]. split; [reflexivity|].
  split; [|split; [|split]].
  - rewrite <- Hlp, <- Hlr. apply (load_store_same _ _ _ _ Hs).
  - apply (take_store_before _ _ _ _ _ Hs). lia.
  - apply (drop_store_after _ _ _ _ _ Hs). lia.
  - apply (store_length _ _ _ _ Hs).
Qed.

(** Round trip of the streaming pair.  Whatever a writer commits
    through an [EncryptionStream], in chunks of less than 2^31 bytes,
    the sink receives the transform of the concatenation, as long as
    the plaintext; and a [DecryptionStream] whose session inverts the
    writer's, over a source that holds this ciphertext in spans of less
    than 2^31 bytes, hands the reader exactly the plaintext. *)
Theorem stream_reads_back_plaintext (contents : D -> list uint8_t)
    (chunks : list (list uint8_t)) (e : EncryptionStream.state D)
    (d0 : session) :
  length_preserving 1 -> chunking_independent 1 -> transforms_nothing ->
  inverse_sessions 1 (EncryptionStream.m_crypto e) d0 ->
  accepts contents ->
  Forall (fun chunk => Z.of_nat (length chunk) < 2 ^ 31) chunks ->
  exists ok e',
    StreamClient.write_all chunks e = Ret ok e' /\
    (ok = true ->
     exists ct,
       contents (EncryptionStream.m_dest e')
       = contents (EncryptionStream.m_dest e) ++ ct /\
       length ct = length (concat chunks) /\
       forall d : DecryptionStream.state,
         Invariant.DecryptionStream d ->
         DecryptionStream.GetAvailableRead d = 0 ->
         DecryptionStream.m_crypto d = d0 ->
         spans_fit_int (DecryptionStream.m_source d) ->
         ReadStream.pending (DecryptionStream.m_source d) = ct ->
         exists d', StreamClient.read_all d = Ret (concat chunks) d').
Proof.
  intros Hlength Hchunks Hnothing Hinverse Hsink Hsmall.
  destruct (stream_write_all contents Hsink Hlength Hchunks Hnothing
              chunks e Hsmall)
    as (ok & e' & Hrun & Hok).
  exists ok, e'. split; [exact Hrun|]. intros Htrue.
  destruct (Hok Htrue) as [Hcont _].
  eexists. split; [exact Hcont|].
  split; [apply Hlength; apply Z.mod_1_r|].
  intros d (Hlb & _) Hav Hsess Hfit Hpend.
  destruct (stream_drain Hlength Hchunks Hnothing
              (S (ReadStream.size (DecryptionStream.m_source d))) d []
              Hlb Hav Hfit ltac:(lia))
    as (d' & Hread & _).
  exists d'. unfold StreamClient.read_all. unfold bind at 1.
  unfold gets at 1. rewrite Hread, Hpend, Hsess. simpl.
  rewrite Hinverse by apply Z.mod_1_r. reflexivity.
Qed.

End StreamWriterClaims.

(** The fixed sink keeps the contract of a sink. *)
Lemma fixed_sink_accepts : accepts (H:=fixed_sink) sink_contents.
Proof.
  split; [|split].
  - intros mem d. reflexivity.
  - intros mem mem' d. reflexivity.
  - intros last d. cbv zeta. simpl.
    destruct (Z.ltb_spec 0 (Z.of_nat (length (sink_memory d))
                            - Z.of_nat (sink_pos d))) as [Hroom|Hfull];
      simpl; [|discriminate].
    intros _. split; [lia|]. split; [lia|]. split; [lia|].
    intros data mem Hfit Hs.
    destruct (Z.leb_spec 0 (Z.of_nat (length data))) as [_|?]; [|lia].
    pose proof (store_length _ _ _ _ Hs) as Hl. rewrite Hl.
    destruct (Z.leb_spec (Z.of_nat (sink_pos d) + Z.of_nat (length data))
                (Z.of_nat (length (sink_memory d)))) as [_|?]; [|lia].
    simpl. split; [reflexivity|]. unfold sink_contents. simpl.
    rewrite Nat2Z.id.
    pose proof (take_store_append _ _ _ _ Hs) as Ht.
    rewrite Nat2Z.id in Ht. exact Ht.
Qed.

Lemma ChainCipher_transforms_nothing :
  transforms_nothing (H:=ChainCipher.crypto).
Proof. intros c. reflexivity. Qed.
(** ** A block decryptor that is given a second source *)

Section SourceSwitchFacts.
Context `{Build} `{Crypto}.
Import BlockDecryptionStream.

Variable B : Z.
Variable d0 : session.
Variable ct : list uint8_t.
Hypothesis HB : 0 < B.
Hypothesis Hlength : length_preserving B.
Hypothesis Hchunks : chunking_independent B.

(** [Flush] and the last read, once the source is exhausted: the
    reader has [acc], and gets the rest of the plaintext. *)
Lemma Flush_releases (P : list uint8_t) (p : Z) (t : nat) (s1 : state) :
  B <= 255 -> 1 <= p <= B ->
  Z.of_nat (length ct) mod B = 0 ->
  Z.of_nat (length ct) = Z.of_nat (length P) + p ->
  snd (crypto_Cipher d0 ct) = P ++ padding p ->
  reading B d0 ct t s1 -> m_source s1 = [] ->
  m_readPos s1 = 0 -> m_readEnd s1 = 0 ->
  exists s',
    (let! _ := Flush in
     let! source := gets m_source in
     Client.drain (S (S (ReadStream.size source)))
       (snd (ciphered d0 (take t ct)))) s1
    = Ret P s'.
Proof.
  intros HB255 Hp Hal Hlen Hinv Hread1 Hsrc1 Hpos1 Hend1.
  assert (B <= Z.of_nat (length ct)) as Hone.
  { apply Z.mod_divide in Hal; [|lia]. destruct Hal as [q Hq].
    assert (0 < q) by nia. nia. }
  destruct Hread1 as ((Hlb & Hle & Hr & Hw & Hsum) & HBs1 & Ht & Hleft & Hused
                      & Hheld & Hsess1).
  rewrite Hsrc1 in Hheld. simpl in Hheld. rewrite app_nil_r in Hheld.
  assert (m_writePos s1 = B) as Hused1.
  { apply (f_equal length) in Hheld. unfold held in Hheld.
    rewrite length_take, length_drop in Hheld.
    assert (m_writePos s1 = Z.of_nat (length ct) - Z.of_nat t) as Hu by lia.
    assert (m_writePos s1 mod B = 0) as Hm.
    { rewrite Hu, Zminus_mod, Hal, Ht. apply Z.mod_0_l. lia. }
    apply Z.mod_divide in Hm; [|lia]. destruct Hm as [q Hq].
    assert (q = 1) by nia. lia. }
  set (k := Z.to_nat B).
  assert (take k (drop t ct) = held s1) as Hblock.
  { rewrite <- Hheld. unfold held, k. rewrite Hused1, take_take.
    f_equal. lia. }
  destruct (crypto_Cipher (m_crypto s1) (held s1)) as [c out] eqn:Hc.
  assert (length (held s1) = k) as Hlh.
  { unfold held. rewrite length_take. unfold k. lia. }
  assert (length out = k) as Hlo.
  { pose proof (Hlength (m_crypto s1) (held s1)) as Hl. rewrite Hc in Hl.
    simpl in Hl. rewrite Hl; [exact Hlh|].
    rewrite Hlh. unfold k. rewrite Z2Nat.id by lia. apply Z.mod_same. lia. }
  assert ((t + k = length ct)%nat) as Hall.
  { apply (f_equal length) in Hheld. rewrite Hlh, length_drop in Hheld.
    unfold k in *. lia. }
  pose proof (ciphered_step B Hchunks d0 ct t k c out Ht
                ltac:(unfold k; rewrite Z2Nat.id by lia; apply Z.mod_same; lia)
                ltac:(unfold k; lia) ltac:(lia)) as Hstep.
  rewrite <- Hsess1, Hblock in Hstep. specialize (Hstep Hc).
  rewrite Hall, take_ge in Hstep by lia.
  assert (ciphered d0 ct = crypto_Cipher d0 ct) as Hci.
  { destruct ct; [simpl in Hone; lia|reflexivity]. }
  rewrite Hci in Hstep.
  assert (snd (ciphered d0 (take t ct)) ++ out = P ++ padding p) as Hsplit
    by (rewrite <- Hinv, Hstep; reflexivity).
  set (acc := snd (ciphered d0 (take t ct))) in *.
  assert (last out = Some (static_cast_uint8 p)) as Hlast.
  { assert (out <> []) as Hne
      by (intros Hnil; rewrite Hnil in Hlo; unfold k in Hlo; simpl in Hlo; lia).
    pose proof (last_app acc out) as Hla.
    destruct (last out) as [b|] eqn:El; [|apply last_None in El; contradiction].
    rewrite Hsplit in Hla. unfold padding in Hla.
    rewrite app_assoc, last_snoc in Hla. congruence. }
  assert (uint8_val (static_cast_uint8 p) = p) as Hval
    by (rewrite uint8_val_cast; apply Z.mod_small; lia).
  destruct (store (m_buffer s1) (m_readEnd s1) out) as [mem|] eqn:Hs.
  2:{ rewrite store_Some in Hs by (unfold k in *; lia). discriminate. }
  pose proof (Flush_run s1 c out mem (static_cast_uint8 p)) as Hflush.
  rewrite HBs1, Hval in Hflush. cbv zeta in Hflush.
  rewrite (proj2 (Z.leb_le p B)) in Hflush by lia.
  unfold bind at 1.
  rewrite Hflush;
    [|lia|lia|unfold TWN_ARRAY_SIZE; lia|rewrite Hused1; apply Z.mod_same; lia
     |lia|exact Hc|exact Hs|exact Hlast].
  clear Hflush. unfold bind at 1. unfold gets at 1. cbv beta iota.
  set (s2 := set_m_writePos 0 _).
  assert (m_source s2 = []) as Hsrc2 by exact Hsrc1.
  rewrite Hsrc2.
  change (S (S (ReadStream.size []))) with 2%nat.
  pose proof (store_length _ _ _ _ Hs) as Hlm.
  destruct (drain_exhausted acc s2 Hsrc2) as (s' & Hfin).
  { simpl. unfold k in *. lia. }
  { simpl. unfold k in *. lia. }
  exists s'. rewrite Hfin. f_equal. simpl.
  rewrite Hpos1, Hend1. change (Z.to_nat 0) with 0%nat. rewrite drop_0.
  apply store_inv in Hs as (_ & _ & ->). rewrite Hend1. simpl.
  rewrite take_app_le by (unfold k in *; lia).
  replace (Z.to_nat (0 + Z.of_nat (length out) - p - 0))
    with (length out - Z.to_nat p)%nat by lia.
  assert (length acc + length out = length P + Z.to_nat p)%nat as Hlens.
  { apply (f_equal length) in Hsplit. rewrite !length_app in Hsplit.
    pose proof (padding_length p ltac:(lia)). lia. }
  assert (take (length P) (acc ++ out) = P) as Htake
    by (rewrite Hsplit; apply take_app_length).
  rewrite take_app_ge in Htake by (unfold k in *; lia).
  replace (length P - length acc)%nat with (length out - Z.to_nat p)%nat
    in Htake by (unfold k in *; lia).
  exact Htake.
Qed.

(** The first source read to its end, and the second put in its
    place: the decryptor is in the middle of the whole ciphertext. *)
Lemma reading_next_source (ctA : list uint8_t) (next : ReadStream.t)
    (s : state) :
  2 * B <= TWN_ARRAY_SIZE ->
  ct = ctA ++ ReadStream.pending next ->
  B <= Z.of_nat (length ct) ->
  Invariant.BlockDecryptionStream s -> m_blockSize s = B ->
  m_crypto s = d0 -> m_writePos s = 0 ->
  m_readPos s = 0 -> m_readEnd s = 0 ->
  ReadStream.pending (m_source s) = ctA ->
  exists (s1 : state) (t : nat),
    Client.drain (S (ReadStream.size (m_source s))) [] s
    = Ret (snd (ciphered d0 (take t ct))) s1 /\
    reading B d0 ct t (set_m_source next s1) /\
    GetAvailableRead s1 = 0.
Proof.
  intros Hcap Hct Hone HI HBs Hsess Hw0 Hpos Hend Hpend.
  assert (GetAvailableRead s = 0) as Hav by (unfold GetAvailableRead; lia).
  destruct (Z_le_gt_dec B (Z.of_nat (length ctA))) as [HoneA|Hshort].
  - pose proof (reading_fresh B ctA s HB HI HBs Hw0 Hpend HoneA) as Hread.
    rewrite Hsess in Hread.
    destruct (drain_reading B d0 ctA HB Hlength Hchunks
                (S (ReadStream.size (m_source s))) s 0 Hcap Hread Hav ltac:(lia))
      as (s1 & t & Hdrain & Hread1 & Hsrc1 & Hpos1 & Hend1).
    change (snd (ciphered d0 (take 0 ctA))) with (@nil uint8_t) in Hdrain.
    destruct Hread1 as (HI1 & HBs1 & Ht & Hleft & Hused & Hheld & Hsess1).
    rewrite Hsrc1 in Hheld. simpl in Hheld. rewrite app_nil_r in Hheld.
    assert (take t ct = take t ctA) as Htake
      by (rewrite Hct; apply take_app_le; lia).
    exists s1, t. rewrite Htake. split; [exact Hdrain|].
    split; [|unfold GetAvailableRead; lia].
    unfold reading. cbn [m_source m_blockSize m_writePos m_crypto].
    split; [exact HI1|]. split; [exact HBs1|]. split; [exact Ht|].
    split; [rewrite Hct, length_app; lia|]. split; [exact Hused|].
    split; [|rewrite Htake; exact Hsess1].
    change (held (set_m_source next s1)) with (held s1).
    rewrite Hheld, Hct, drop_app_le by lia. reflexivity.
  - assert (gathering B s) as Hg.
    { unfold gathering. split; [exact HI|]. rewrite Hpend, Hw0.
      repeat apply conj; auto. lia. }
    destruct (drain_gathers B (S (ReadStream.size (m_source s))) s []
                HB Hg ltac:(lia))
      as (s1 & Hdrain & Hg1 & Hc1 & Hcons & Hheld & Hexit).
    pose proof Hg1 as (HI1 & HBs1 & Hpos1 & Hend1 & _).
    pose proof HI1 as (Hlb & Hle & Hr & Hw & Hsum).
    rewrite Hpend, Hw0 in Hcons.
    assert (m_source s1 = []) as Hsrc1.
    { destruct Hexit as [Hfull|Hnil]; [|exact Hnil].
      unfold TWN_ARRAY_SIZE in *. lia. }
    rewrite Hsrc1 in Hcons, Hheld. simpl in Hcons, Hheld.
    rewrite app_nil_r, Hpend in Hheld.
    assert (held s = []) as Hh0 by (unfold held; rewrite Hw0; reflexivity).
    rewrite Hh0 in Hheld. simpl in Hheld.
    exists s1, 0%nat. split; [exact Hdrain|].
    split; [|unfold GetAvailableRead; lia].
    unfold reading. cbn [m_source m_blockSize m_writePos m_crypto].
    split; [exact HI1|]. split; [exact HBs1|].
    split; [apply Z.mod_0_l; lia|]. split; [lia|]. split; [simpl; lia|].
    split; [|simpl; congruence].
    change (held (set_m_source next s1)) with (held s1).
    rewrite Hheld, Hct. reflexivity.
Qed.

End SourceSwitchFacts.

Section SourceSwitchClaim.
Context `{Build} `{Crypto}.
Import BlockDecryptionStream.

(** [SetSource] in the middle of a ciphertext.  The ciphertext of a
    padded plaintext may arrive from two sources, cut at any byte: the
    block decryptor reads the first to its end, is given the second
    with [SetSource], reads that, and [Flush] releases the rest; the
    reader gets exactly the plaintext.  The blocks withheld and the
    bytes accumulated from the first source are kept across the
    switch. *)
Theorem decrypt_across_sources (B : Z) (e0 d0 : session)
    (P : list uint8_t) (next : ReadStream.t) (s : state) :
  0 < B <= 255 ->
  length_preserving B -> chunking_independent B ->
  inverse_sessions B e0 d0 ->
  Invariant.BlockDecryptionStream s -> m_blockSize s = B ->
  m_crypto s = d0 -> m_writePos s = 0 ->
  m_readPos s = 0 -> m_readEnd s = 0 ->
  ReadStream.pending (m_source s) ++ ReadStream.pending next
  = snd (crypto_Cipher e0 (P ++ padding (padLen B (Z.of_nat (length P))))) ->
  exists s', SourceSwitch.decrypt next s = Ret P s'.
Proof.
  intros [HB HB255] Hlength Hchunks Hinverse HI HBs Hsess Hw0 Hpos Hend Hct.
  set (p := padLen B (Z.of_nat (length P))) in *.
  pose proof (padLen_range B (Z.of_nat (length P)) HB) as Hp. fold p in Hp.
  pose proof (padLen_aligned B (Z.of_nat (length P)) HB) as Hal. fold p in Hal.
  pose proof (padding_length p ltac:(lia)) as Hpl.
  set (ct := snd (crypto_Cipher e0 (P ++ padding p))) in *.
  assert (Z.of_nat (length (P ++ padding p)) mod B = 0) as Hpad
    by (rewrite length_app, Nat2Z.inj_add, Hpl; exact Hal).
  assert (length ct = length (P ++ padding p)) as Hlct
    by (apply Hlength; exact Hpad).
  assert (Z.of_nat (length ct) = Z.of_nat (length P) + p) as Hlen
    by (rewrite Hlct, length_app; lia).
  assert (B <= Z.of_nat (length ct)) as Hone.
  { rewrite Hlct. apply Z.mod_divide in Hpad; [|lia]. destruct Hpad as [q Hq].
    rewrite length_app in *. assert (0 < q) by nia. nia. }
  destruct (reading_next_source B d0 ct HB Hlength Hchunks
              (ReadStream.pending (m_source s)) next s
              ltac:(unfold TWN_ARRAY_SIZE; lia) (eq_sym Hct) Hone
              HI HBs Hsess Hw0 Hpos Hend eq_refl)
    as (s1 & t & Hdrain & Hread & Hav1).
  unfold SourceSwitch.decrypt. unfold bind at 1. unfold gets at 1.
  unfold bind at 1. rewrite Hdrain.
  unfold bind at 1. unfold SetSource, modify.
  destruct (drain_reading B d0 ct HB Hlength Hchunks
              (S (ReadStream.size next)) (set_m_source next s1) t
              ltac:(unfold TWN_ARRAY_SIZE; lia) Hread Hav1
              ltac:(simpl; lia))
    as (s2 & t' & Hdrain2 & Hread2 & Hsrc2 & Hpos2 & Hend2).
  unfold bind at 1. rewrite Hdrain2.
  apply (Flush_releases B d0 ct HB Hlength Hchunks P p t' s2); auto.
  - rewrite Hlct. exact Hpad.
  - apply Hinverse. exact Hpad.
Qed.

End SourceSwitchClaim.
(** ** Reading a span in parts *)

Section PartialReads.
Context `{Build} `{Crypto}.

Lemma stream_NextRead_window (s : DecryptionStream.state) :
  DecryptionStream.GetAvailableRead s <> 0 ->
  DecryptionStream.NextRead s
  = Ret (Some {| GetData := DecryptionStream.m_readPos s;
                 GetDataLen := DecryptionStream.m_readEnd s
                               - DecryptionStream.m_readPos s |}) s.
Proof.
  intros Hav. unfold DecryptionStream.NextRead. unfold bind at 1.
  unfold gets at 1. unfold bind at 1.
  destruct (Z.eqb_spec (DecryptionStream.GetAvailableRead s) 0) as [?|_];
    [contradiction|].
  reflexivity.
Qed.

(** A reader may consume a span in parts.  After [AdvanceRead n] with
    [n] below the number of available bytes, the next [NextRead]
    returns the rest of the same span, [n] bytes further on, and
    neither call touches the source, the window or the cipher session:
    nothing is pulled or transformed until the window is used up.  No
    lower bound is checked: a negative [n] moves the read position
    backwards. *)
Theorem NextRead_after_partial_AdvanceRead (s : DecryptionStream.state)
    (t : BlockDecryptionStream.state) (n : Z) :
  (n < DecryptionStream.GetAvailableRead s ->
   exists s',
     DecryptionStream.AdvanceRead n s = Ret true s' /\
     DecryptionStream.NextRead s'
     = Ret (Some {| GetData := DecryptionStream.m_readPos s + n;
                    GetDataLen := DecryptionStream.GetAvailableRead s - n |}) s' /\
     DecryptionStream.m_source s' = DecryptionStream.m_source s /\
     DecryptionStream.m_buffer s' = DecryptionStream.m_buffer s /\
     DecryptionStream.m_crypto s' = DecryptionStream.m_crypto s /\
     DecryptionStream.m_readEnd s' = DecryptionStream.m_readEnd s) /\
  (n < BlockDecryptionStream.GetAvailableRead t ->
   exists t',
     BlockDecryptionStream.AdvanceRead n t = Ret true t' /\
     BlockDecryptionStream.NextRead t'
     = Ret (Some {| GetData := BlockDecryptionStream.m_readPos t + n;
                    GetDataLen := BlockDecryptionStream.GetAvailableRead t - n |})
         t' /\
     BlockDecryptionStream.m_source t' = BlockDecryptionStream.m_source t /\
     BlockDecryptionStream.m_buffer t' = BlockDecryptionStream.m_buffer t /\
     BlockDecryptionStream.m_encrypedBuffer t'
     = BlockDecryptionStream.m_encrypedBuffer t /\
     BlockDecryptionStream.m_crypto t' = BlockDecryptionStream.m_crypto t /\
     BlockDecryptionStream.m_readEnd t' = BlockDecryptionStream.m_readEnd t /\
     BlockDecryptionStream.m_writePos t' = BlockDecryptionStream.m_writePos t).
Proof.
  split; intros Hn.
  - rewrite stream_AdvanceRead_run, (proj2 (Z.leb_le _ _)) by lia.
    eexists. split; [reflexivity|].
    rewrite stream_NextRead_window
      by (unfold DecryptionStream.GetAvailableRead in *; simpl; lia).
    split; [|simpl; auto].
    unfold DecryptionStream.GetAvailableRead. simpl. do 3 f_equal. lia.
  - rewrite block_AdvanceRead_run, (proj2 (Z.leb_le _ _)) by lia.
    eexists. split; [reflexivity|].
    rewrite NextRead_window
      by (unfold BlockDecryptionStream.GetAvailableRead in *; simpl; lia).
    split; [|simpl; repeat split; reflexivity].
    unfold BlockDecryptionStream.GetAvailableRead. simpl. do 3 f_equal. lia.
Qed.

End PartialReads.
(** ** Checks that are missing *)

Section MissingChecks.
Context `{Build} `{Crypto} {W : Type} `{WriteStream W}.

(** The second [TWN_REQUIRE] of [BlockDecryptionStream::Flush] never
    fires.  It compares the withheld bytes with
    [capacity - (m_buffer - m_readEnd)], that is with the capacity plus
    the distance of read-end from the start of the window, not minus
    it.  In an object where the withheld bytes do not fit behind
    read-end, both assertions pass, in every build, and the transform
    is written past the end of the window.  (The other member
    functions never leave the object in such a state.) *)
Theorem Flush_capacity_check_never_fires (s : BlockDecryptionStream.state) :
  0 < BlockDecryptionStream.m_blockSize s ->
  length_preserving (BlockDecryptionStream.m_blockSize s) ->
  Z.of_nat (length (BlockDecryptionStream.m_buffer s)) = TWN_ARRAY_SIZE ->
  Z.of_nat (length (BlockDecryptionStream.m_encrypedBuffer s)) = TWN_ARRAY_SIZE ->
  0 <= BlockDecryptionStream.m_readEnd s <= TWN_ARRAY_SIZE ->
  0 <= BlockDecryptionStream.m_writePos s <= TWN_ARRAY_SIZE ->
  BlockDecryptionStream.m_writePos s mod BlockDecryptionStream.m_blockSize s = 0 ->
  TWN_ARRAY_SIZE
  < BlockDecryptionStream.m_readEnd s + BlockDecryptionStream.m_writePos s ->
  (BlockDecryptionStream.m_writePos s
   <=? TWN_ARRAY_SIZE - (0 - BlockDecryptionStream.m_readEnd s)) = true /\
  exists s',
    BlockDecryptionStream.Flush s = Halt (Undefined OutOfBounds) s' /\
    BlockDecryptionStream.m_buffer s' = BlockDecryptionStream.m_buffer s /\
    BlockDecryptionStream.m_readEnd s' = BlockDecryptionStream.m_readEnd s.
Proof.
  intros HB Hlp Hlb Hle He Hw Hal Hover.
  split; [apply Z.leb_le; lia|].
  unfold BlockDecryptionStream.Flush. run_monad.
  unfold BlockDecryptionStream.GetUsedWrite. rewrite Z.sub_0_r.
  destruct (Z.eqb_spec (BlockDecryptionStream.m_blockSize s) 0) as [?|_];
    [lia|].
  simpl. rewrite rem_block, Hal by lia. simpl.
  rewrite (proj2 (Z.leb_le _ _)) by lia. simpl.
  rewrite load_prefix by lia. simpl.
  set (r := crypto_Cipher _ _).
  assert (length (snd r)
          = Z.to_nat (BlockDecryptionStream.m_writePos s)) as Hlr.
  { unfold r. rewrite Hlp; rewrite length_take; [lia|].
    replace (Z.of_nat (Z.to_nat (BlockDecryptionStream.m_writePos s)
                       `min` length (BlockDecryptionStream.m_encrypedBuffer s)))
      with (BlockDecryptionStream.m_writePos s) by lia.
    exact Hal. }
  assert (store (BlockDecryptionStream.m_buffer s)
            (BlockDecryptionStream.m_readEnd s) (snd r) = None) as Hs.
  { unfold store.
    destruct (in_array _ _ _) eqn:E; [|reflexivity].
    apply in_array_true in E. lia. }
  rewrite Hs. eexists. split; [reflexivity|]. simpl. auto.
Qed.

(** [BlockEncryptionStream::AdvanceWrite] does not compare [bytes]
    with the span that [NextWrite] offered.  When the committed bytes
    and the accumulated ones come to more whole blocks than the buffer
    holds, the transform reads past the end of the buffer; the object
    has not been changed at that point. *)
Theorem AdvanceWrite_unchecked (s : BlockEncryptionStream.state W) (n : Z) :
  let total := n + BlockEncryptionStream.GetAvailableRead s in
  0 < BlockEncryptionStream.m_blockSize s ->
  0 <= BlockEncryptionStream.m_writePos s ->
  Z.of_nat (length (BlockEncryptionStream.m_buffer s)) = TWN_ARRAY_SIZE ->
  TWN_ARRAY_SIZE < total - total mod BlockEncryptionStream.m_blockSize s ->
  TWN_ARRAY_SIZE - BlockEncryptionStream.GetAvailableRead s < n /\
  BlockEncryptionStream.AdvanceWrite n s = Halt (Undefined OutOfBounds) s.
Proof.
  intros total HB Hw Hlb Hover.
  assert (total = n + BlockEncryptionStream.m_writePos s) as Htot
    by (unfold total, BlockEncryptionStream.GetAvailableRead; lia).
  clearbody total. subst total.
  unfold BlockEncryptionStream.GetAvailableRead. rewrite Z.sub_0_r.
  set (total := n + BlockEncryptionStream.m_writePos s) in *.
  pose proof (Z.mod_pos_bound total (BlockEncryptionStream.m_blockSize s) HB)
    as Hr.
  assert (TWN_ARRAY_SIZE < total /\ TWN_ARRAY_SIZE < n + BlockEncryptionStream.m_writePos s)
    as [Hbig Hbig'].
  { revert Hr Hover.
    generalize (total mod BlockEncryptionStream.m_blockSize s).
    unfold total. intros m Hr Hover. lia. }
  split; [lia|].
  assert (BlockEncryptionStream.m_blockSize s <= total) as Hge.
  { destruct (Z_lt_le_dec total (BlockEncryptionStream.m_blockSize s))
      as [Hlt|?]; [|assumption].
    rewrite Z.mod_small in Hover by (unfold TWN_ARRAY_SIZE in *; lia). lia. }
  unfold BlockEncryptionStream.AdvanceWrite,
    BlockEncryptionStream.GetAvailableRead. run_monad.
  rewrite Z.sub_0_r.
  change (n + BlockEncryptionStream.m_writePos s) with total.
  replace (total >=? BlockEncryptionStream.m_blockSize s) with true
    by (symmetry; rewrite Z.geb_leb; apply Z.leb_le; lia).
  destruct (Z.eqb_spec (BlockEncryptionStream.m_blockSize s) 0) as [?|_];
    [lia|].
  run_monad. rewrite rem_block by (unfold TWN_ARRAY_SIZE in *; lia).
  assert (load (BlockEncryptionStream.m_buffer s) 0
            (total - total mod BlockEncryptionStream.m_blockSize s) = None)
    as Hl.
  { unfold load. destruct (in_array _ _ _) eqn:E; [|reflexivity].
    apply in_array_true in E. lia. }
  rewrite Hl. reflexivity.
Qed.

End MissingChecks.
(** ** The further statements at concrete inputs *)

Section MoreWitnesses.
#[local] Existing Instance ChainCipher.crypto.
#[local] Existing Instance memory_sink.
#[local] Existing Instance closed_sink.
#[local] Existing Instance fixed_sink.
#[local] Existing Instance fatal_build.

(** An encryptor whose block size is the capacity cannot flush. *)
Lemma Flush_without_room_witness :
  let s := encryptor 4096 in
  (0 < BlockEncryptionStream.m_blockSize s /\
   0 <= BlockEncryptionStream.m_writePos s /\
   TWN_ARRAY_SIZE <= BlockEncryptionStream.m_blockSize s) /\
  BlockEncryptionStream.Flush s
  = Halt (Bug "BlockEncryptionStream: Padding failed due to insufficient buffer space") s.
Proof.
  intros s.
  assert (0 < BlockEncryptionStream.m_blockSize s /\
          0 <= BlockEncryptionStream.m_writePos s /\
          TWN_ARRAY_SIZE <= BlockEncryptionStream.m_blockSize s) as Hh
    by by_computation.
  split; [exact Hh|]. destruct Hh as (HB & Hw & Hbig).
  exact (proj2 (Flush_without_room s HB Hw) Hbig).
Defined.

(** [Flush] into a sink that refuses every byte returns normally. *)
Lemma Flush_ignores_sink_answer_witness :
  let s := refused_encryptor in
  (0 < BlockEncryptionStream.m_blockSize s /\
   BlockEncryptionStream.m_writePos s
   + padLen (BlockEncryptionStream.m_blockSize s)
       (BlockEncryptionStream.m_writePos s) < TWN_ARRAY_SIZE) /\
  exists out s',
    BlockEncryptionStream.Flush s = Ret tt s' /\
    length out = 16%nat /\
    fst (Stream_Copy out (BlockEncryptionStream.m_dest s)) = false /\
    BlockEncryptionStream.m_writePos s' = 0.
Proof.
  intros s.
  assert (0 < BlockEncryptionStream.m_blockSize s /\
          BlockEncryptionStream.m_writePos s
          + padLen (BlockEncryptionStream.m_blockSize s)
              (BlockEncryptionStream.m_writePos s) < TWN_ARRAY_SIZE) as Hh
    by by_computation.
  split; [exact Hh|]. destruct Hh as (HB & Hroom).
  destruct (Flush_ignores_sink_answer s HB ltac:(by_computation)
              (ChainCipher_length_preserving _) Hroom)
    as (c & out & s' & _ & Hlen & _ & Hrun & _ & _ & Hpos).
  exists out, s'. split; [exact Hrun|]. split; [|split; [reflexivity|exact Hpos]].
  apply Nat2Z.inj. rewrite Hlen. reflexivity.
Defined.

(** A block encryptor that has been constructed and not initialised. *)
Lemma encryptor_without_block_size_witness :
  let s := BlockEncryptionStream.new (W:=list uint8_t) []
             (replicate 4096 xff) (replicate 4096 xff) in
  (BlockEncryptionStream.m_blockSize s = 0 /\
   0 <= 5 + BlockEncryptionStream.GetAvailableRead s) /\
  BlockEncryptionStream.AdvanceWrite 5 s = Halt (Undefined DivideByZero) s /\
  BlockEncryptionStream.Flush s = Halt (Undefined DivideByZero) s.
Proof.
  intros s.
  assert (BlockEncryptionStream.m_blockSize s = 0 /\
          0 <= 5 + BlockEncryptionStream.GetAvailableRead s) as Hh
    by by_computation.
  split; [exact Hh|]. destruct Hh as (HB & Hn).
  destruct (encryptor_without_block_size s 5 HB) as [Hw Hf].
  split; [exact (Hw Hn)|exact Hf].
Defined.

(** Twenty bytes written to the encryptor for 16-byte blocks: four are
    kept, and the next span is 4092 bytes long. *)
Lemma NextWrite_after_AdvanceWrite_witness :
  let s := final (Client.write twenty_bytes keyed_encryptor) in
  (0 < BlockEncryptionStream.m_blockSize s <= TWN_ARRAY_SIZE /\
   0 <= 30 <= TWN_ARRAY_SIZE - BlockEncryptionStream.GetAvailableRead s) /\
  exists ok s',
    BlockEncryptionStream.AdvanceWrite 30 s = Ret ok s' /\
    BlockEncryptionStream.m_writePos s' = 2 /\
    BlockEncryptionStream.NextWrite s'
    = Ret (Some {| GetData := 2; GetDataLen := 4094 |}) s'.
Proof.
  intros s.
  assert (0 < BlockEncryptionStream.m_blockSize s <= TWN_ARRAY_SIZE /\
          0 <= 30 <= TWN_ARRAY_SIZE - BlockEncryptionStream.GetAvailableRead s)
    as Hh by by_computation.
  split; [exact Hh|]. destruct Hh as (HB & Hn).
  destruct (NextWrite_after_AdvanceWrite s 30 HB ltac:(by_computation)
              (ChainCipher_length_preserving _) Hn)
    as (ok & s' & Hrun & _ & Hnext & _).
  assert (BlockEncryptionStream.m_writePos s' = 2) as Hpos.
  { assert (BlockEncryptionStream.m_writePos
              (final (BlockEncryptionStream.AdvanceWrite 30 s)) = 2) as Hc
      by (vm_compute; reflexivity).
    rewrite Hrun in Hc. exact Hc. }
  exists ok, s'. split; [exact Hrun|]. split; [exact Hpos|].
  rewrite Hnext, Hpos. reflexivity.
Defined.

(** A block decryptor that has been constructed and not initialised,
    over a source with data. *)
Lemma decryptor_without_block_size_witness :
  let s := BlockDecryptionStream.new [[x01; x02]]
             (replicate 4096 x00) (replicate 4096 x00) in
  (BlockDecryptionStream.m_blockSize s <= 0 /\
   BlockDecryptionStream.GetAvailableRead s = 0) /\
  exists s',
    BlockDecryptionStream.NextRead s = Ret None s' /\
    BlockDecryptionStream.m_source s' = [[x01; x02]].
Proof.
  intros s.
  assert (BlockDecryptionStream.m_blockSize s <= 0 /\
          BlockDecryptionStream.GetAvailableRead s = 0) as Hh
    by by_computation.
  split; [exact Hh|]. destruct Hh as (HB & Hav).
  destruct (decryptor_without_block_size s HB) as (_ & Hnext & Hsrc).
  eexists. split; [exact (Hnext Hav)|exact Hsrc].
Defined.

(** A decryptor for blocks of 4096 bytes over 5000 bytes of data. *)
Lemma large_blocks_never_decrypt_witness :
  let s := decryptor 4096 [replicate 5000 x01] in
  (TWN_ARRAY_SIZE < 2 * BlockDecryptionStream.m_blockSize s /\
   BlockDecryptionStream.m_readPos s = 0 /\
   BlockDecryptionStream.m_readEnd s = 0) /\
  exists s',
    Client.drain (S (ReadStream.size (BlockDecryptionStream.m_source s))) [] s
    = Ret [] s' /\
    ReadStream.pending (BlockDecryptionStream.m_source s') <> [].
Proof.
  intros s.
  assert (TWN_ARRAY_SIZE < 2 * BlockDecryptionStream.m_blockSize s /\
          BlockDecryptionStream.m_readPos s = 0 /\
          BlockDecryptionStream.m_readEnd s = 0) as Hh by by_computation.
  split; [exact Hh|]. destruct Hh as (HB & Hpos & Hend).
  destruct (large_blocks_never_decrypt s [] HB ltac:(by_computation) Hpos Hend)
    as (s' & Hrun & _ & _ & _ & _ & Hleft).
  exists s'. split; [exact Hrun|]. apply Hleft. by_computation.
Defined.

(** A decryptor over a source without data. *)
Lemma decrypt_empty_source_witness :
  let s := decryptor 16 [] in
  (0 < BlockDecryptionStream.m_blockSize s /\
   BlockDecryptionStream.m_source s = [] /\
   BlockDecryptionStream.m_writePos s = 0 /\
   BlockDecryptionStream.GetAvailableRead s = 0) /\
  exists s', Client.decrypt s = Ret [] s'.
Proof.
  intros s.
  assert (0 < BlockDecryptionStream.m_blockSize s /\
          BlockDecryptionStream.m_source s = [] /\
          BlockDecryptionStream.m_writePos s = 0 /\
          BlockDecryptionStream.GetAvailableRead s = 0) as Hh
    by by_computation.
  split; [exact Hh|]. destruct Hh as (HB & Hsrc & Hw & Hav).
  exact (decrypt_empty_source s HB (ChainCipher_length_preserving _)
           ltac:(by_computation) Hsrc Hw Hav).
Defined.

(** Forty bytes of ciphertext in spans of 7 and 33 bytes: one block is
    handed out, 24 bytes are withheld. *)
Lemma drain_withholds_last_block_witness :
  let ct := replicate 40 x01 in
  let s := keyed_decryptor [take 7 ct; drop 7 ct] in
  (0 < 16 /\ 2 * 16 <= TWN_ARRAY_SIZE /\
   16 <= Z.of_nat (length ct)) /\
  exists s' (t : nat),
    Client.drain (S (ReadStream.size (BlockDecryptionStream.m_source s))) [] s
    = Ret (snd (ciphered (BlockDecryptionStream.m_crypto s) (take t ct))) s' /\
    16 <= Z.of_nat (length ct) - Z.of_nat t < 2 * 16 /\
    held s' = drop t ct.
Proof.
  intros ct s.
  assert (0 < 16 /\ 2 * 16 <= TWN_ARRAY_SIZE /\
          16 <= Z.of_nat (length ct)) as Hh by by_computation.
  split; [exact Hh|]. destruct Hh as (HB & Hcap & Hone).
  destruct (drain_withholds_last_block 16 ct s HB Hcap
              (ChainCipher_length_preserving _)
              (ChainCipher_chunking_independent _)
              ltac:(by_computation) ltac:(by_computation)
              ltac:(by_computation) ltac:(by_computation)
              ltac:(by_computation) Hone)
    as (s' & t & Hrun & _ & _ & Hrange & _ & _ & Hheld).
  exists s', t. auto.
Defined.

(** Twenty bytes of ciphertext for 16-byte blocks, in a build whose
    assertions are fatal. *)
Lemma decrypt_truncated_witness :
  let ct := replicate 20 x01 in
  let s := keyed_decryptor [take 7 ct; drop 7 ct] in
  (asserts_fatal = true /\ 0 < 16 /\ 2 * 16 <= TWN_ARRAY_SIZE /\
   Z.of_nat (length ct) mod 16 <> 0) /\
  exists s', Client.decrypt s = Halt RequireFailed s'.
Proof.
  intros ct s.
  assert (asserts_fatal = true /\ 0 < 16 /\ 2 * 16 <= TWN_ARRAY_SIZE /\
          Z.of_nat (length ct) mod 16 <> 0) as Hh by by_computation.
  split; [exact Hh|]. destruct Hh as (Hfatal & HB & Hcap & Hodd).
  destruct (decrypt_truncated 16 ct s Hfatal HB Hcap
              (ChainCipher_length_preserving _)
              (ChainCipher_chunking_independent _)
              ltac:(by_computation) ltac:(by_computation)
              ltac:(by_computation) ltac:(by_computation)
              ltac:(by_computation) ltac:(by_computation) Hodd)
    as (s' & Hrun & _).
  exists s'. exact Hrun.
Defined.

(** Twenty bytes written as 7 and 13 for 16-byte blocks: 16 bytes
    reach the sink before [Flush], 32 in all. *)
Lemma ciphertext_is_whole_blocks_witness :
  let chunks := [take 7 twenty_bytes; drop 7 twenty_bytes] in
  (0 < 16 < TWN_ARRAY_SIZE /\ within_spans 16 0 chunks) /\
  (exists e1, Client.write_all chunks keyed_encryptor = Ret true e1 /\
              length (BlockEncryptionStream.m_dest e1) = 16%nat /\
              BlockEncryptionStream.m_writePos e1 = 4) /\
  (exists e2, Client.encrypt chunks keyed_encryptor = Ret true e2 /\
              length (BlockEncryptionStream.m_dest e2) = 32%nat).
Proof.
  intros chunks.
  assert (0 < 16 < TWN_ARRAY_SIZE /\ within_spans 16 0 chunks) as Hh
    by by_computation.
  split; [exact Hh|]. destruct Hh as (HB & Hfit).
  destruct (ciphertext_is_whole_blocks 16 (fun w => w) chunks keyed_encryptor
              HB (ChainCipher_length_preserving _)
              (ChainCipher_chunking_independent _) memory_sink_delivers
              ltac:(by_computation) ltac:(by_computation)
              ltac:(by_computation) Hfit)
    as [(e1 & ct1 & Hrun1 & Hcont1 & Hlen1 & Hpos1)
        (e2 & ct & Hrun2 & Hcont2 & Hlen2)].
  change (BlockEncryptionStream.m_dest e1 = ct1) in Hcont1.
  change (BlockEncryptionStream.m_dest e2 = ct) in Hcont2.
  subst ct1 ct. split.
  - exists e1. split; [exact Hrun1|]. split; [|exact Hpos1].
    apply Nat2Z.inj. rewrite Hlen1. reflexivity.
  - exists e2. split; [exact Hrun2|].
    apply Nat2Z.inj. rewrite Hlen2. reflexivity.
Defined.

(** A streaming decryptor over 23 bytes in three spans, one of them
    empty. *)
Lemma stream_read_all_witness :
  let s := stream_decryptor [twenty_bytes; []; take 3 twenty_bytes] in
  DecryptionStream.GetAvailableRead s = 0 /\
  exists s',
    StreamClient.read_all s
    = Ret (snd (ChainCipher.Cipher (DecryptionStream.m_crypto s)
                  (twenty_bytes ++ take 3 twenty_bytes))) s' /\
    DecryptionStream.m_source s' = [].
Proof.
  intros s.
  assert (DecryptionStream.GetAvailableRead s = 0) as Hav by by_computation.
  split; [exact Hav|].
  assert (spans_fit_int (DecryptionStream.m_source s)) as Hfit
    by (repeat (apply Forall_cons; split; [by_computation|]); constructor).
  destruct (stream_read_all s (ChainCipher_length_preserving _)
              (ChainCipher_chunking_independent _)
              ChainCipher_transforms_nothing ltac:(by_computation) Hav Hfit)
    as (s' & Hrun & _ & Hsrc & _).
  assert (snd (crypto_Cipher (DecryptionStream.m_crypto s)
                 (ReadStream.pending (DecryptionStream.m_source s)))
          = snd (ChainCipher.Cipher (DecryptionStream.m_crypto s)
                   (twenty_bytes ++ take 3 twenty_bytes))) as Heq
    by (vm_compute; reflexivity).
  exists s'. rewrite <- Heq. split; [exact Hrun|exact Hsrc].
Defined.

(** The same data from two sources. *)
Lemma stream_read_both_witness :
  let s := stream_decryptor [twenty_bytes; []] in
  DecryptionStream.GetAvailableRead s = 0 /\
  exists s',
    StreamClient.read_both [take 3 twenty_bytes] s
    = Ret (snd (ChainCipher.Cipher (DecryptionStream.m_crypto s)
                  (twenty_bytes ++ take 3 twenty_bytes))) s'.
Proof.
  intros s.
  assert (DecryptionStream.GetAvailableRead s = 0) as Hav by by_computation.
  split; [exact Hav|].
  assert (spans_fit_int (DecryptionStream.m_source s)) as Hfit
    by (repeat (apply Forall_cons; split; [by_computation|]); constructor).
  assert (spans_fit_int [take 3 twenty_bytes]) as Hfit'
    by (repeat (apply Forall_cons; split; [by_computation|]); constructor).
  destruct (stream_read_both s [take 3 twenty_bytes]
              (ChainCipher_length_preserving _)
              (ChainCipher_chunking_independent _)
              ChainCipher_transforms_nothing ltac:(by_computation) Hav
              Hfit Hfit')
    as (s' & Hrun & _).
  assert (snd (crypto_Cipher (DecryptionStream.m_crypto s)
                 (ReadStream.pending (DecryptionStream.m_source s)
                  ++ ReadStream.pending [take 3 twenty_bytes]))
          = snd (ChainCipher.Cipher (DecryptionStream.m_crypto s)
                   (twenty_bytes ++ take 3 twenty_bytes))) as Heq
    by (vm_compute; reflexivity).
  exists s'. rewrite <- Heq. exact Hrun.
Defined.

(** Five bytes committed at offset 2 of a memory of twenty bytes. *)
Lemma stream_AdvanceWrite_in_place_witness :
  let s := {| EncryptionStream.m_lastBuffer :=
                {| GetData := 2; GetDataLen := 18 |};
              EncryptionStream.m_dest :=
                {| sink_memory := twenty_bytes; sink_pos := 2 |};
              EncryptionStream.m_crypto :=
                {| ChainCipher.encrypting := true; ChainCipher.key := 42;
                   ChainCipher.chain := 7 |} |} in
  (0 <= 2 /\ 0 <= 5 < 2 ^ 31 /\ 2 + 5 <= Z.of_nat (length twenty_bytes)) /\
  exists s',
    EncryptionStream.AdvanceWrite 5 s = Ret true s' /\
    sink_pos (EncryptionStream.m_dest s') = 7%nat /\
    take 2 (sink_memory (EncryptionStream.m_dest s')) = take 2 twenty_bytes /\
    drop 7 (sink_memory (EncryptionStream.m_dest s')) = drop 7 twenty_bytes.
Proof.
  intros s.
  assert (0 <= 2 /\ 0 <= 5 < 2 ^ 31 /\ 2 + 5 <= Z.of_nat (length twenty_bytes))
    as Hh by by_computation.
  split; [exact Hh|]. destruct Hh as (Hoff & Hbytes & Hfit).
  destruct (stream_AdvanceWrite_in_place (H1:=fixed_sink) s 5
              (ChainCipher_length_preserving _) Hoff Hbytes Hfit)
    as (plain & mem' & s' & _ & Hrun & Hdest & _ & _ & _ & Htake & Hdrop & Hlen).
  assert (length mem' = 20%nat) as Hlen' by exact Hlen.
  exists s'. cbv zeta in Hrun, Hdest. simpl in Hrun, Hdest.
  rewrite Hlen' in Hrun, Hdest. simpl in Hrun, Hdest.
  split; [exact Hrun|]. rewrite Hdest. simpl.
  split; [reflexivity|]. split; [exact Htake|exact Hdrop].
Defined.

(** Twenty bytes written as 7 and 13 through the streaming encryptor,
    read back from spans of 5 and 15 bytes. *)
Lemma stream_reads_back_plaintext_witness :
  let chunks := [take 7 twenty_bytes; drop 7 twenty_bytes] in
  Forall (fun chunk => Z.of_nat (length chunk) < 2 ^ 31) chunks /\
  exists e',
    StreamClient.write_all chunks stream_encryptor = Ret true e' /\
    length (sink_contents (EncryptionStream.m_dest e')) = 20%nat /\
    exists d',
      StreamClient.read_all
        (stream_decryptor
           [take 5 (sink_contents (EncryptionStream.m_dest e'));
            drop 5 (sink_contents (EncryptionStream.m_dest e'))])
      = Ret twenty_bytes d'.
Proof.
  intros chunks.
  assert (Forall (fun chunk => Z.of_nat (length chunk) < 2 ^ 31) chunks)
    as Hsmall by (repeat constructor).
  split; [exact Hsmall|].
  destruct (stream_reads_back_plaintext sink_contents chunks stream_encryptor
              {| ChainCipher.encrypting := false; ChainCipher.key := 42;
                 ChainCipher.chain := 7 |}
              (ChainCipher_length_preserving _)
              (ChainCipher_chunking_independent _)
              ChainCipher_transforms_nothing
              (ChainCipher_inverse_sessions 1 42 7)
              fixed_sink_accepts Hsmall)
    as (ok & e' & Hrun & Hok).
  assert (ok = true) as ->.
  { assert (exists e1, StreamClient.write_all chunks stream_encryptor
                       = Ret true e1) as (e1 & Hc)
      by (eexists; vm_compute; reflexivity).
    rewrite Hc in Hrun. congruence. }
  destruct (Hok eq_refl) as (ct & Hcont & Hlen & Hback).
  change (sink_contents (EncryptionStream.m_dest e') = ct) in Hcont.
  subst ct.
  exists e'. split; [exact Hrun|]. split; [exact Hlen|].
  apply Hback.
  - unfold Invariant.DecryptionStream. cbn -[Z.of_nat length]. by_computation.
  - reflexivity.
  - reflexivity.
  - change (DecryptionStream.m_source (stream_decryptor ?src)) with src.
    repeat (apply Forall_cons; split;
            [rewrite ?length_take, ?length_drop, Hlen; by_computation|]).
    constructor.
  - unfold ReadStream.pending. cbn. rewrite app_nil_r. apply take_drop.
Defined.

(** The two blocks of ciphertext of the twenty bytes, 5 bytes from the
    first source and 27 from the second. *)
Lemma decrypt_across_sources_witness :
  let s := keyed_decryptor [take 5 two_blocks] in
  let next := [drop 5 two_blocks] in
  0 < 16 <= 255 /\
  exists s', SourceSwitch.decrypt next s = Ret twenty_bytes s'.
Proof.
  intros s next.
  assert (0 < 16 <= 255) as HB by lia.
  split; [exact HB|].
  exact (decrypt_across_sources 16
           {| ChainCipher.encrypting := true; ChainCipher.key := 42;
              ChainCipher.chain := 7 |}
           {| ChainCipher.encrypting := false; ChainCipher.key := 42;
              ChainCipher.chain := 7 |}
           twenty_bytes next s HB
           (ChainCipher_length_preserving _)
           (ChainCipher_chunking_independent _)
           (ChainCipher_inverse_sessions 16 42 7)
           ltac:(by_computation) ltac:(by_computation)
           ltac:(by_computation) ltac:(by_computation)
           ltac:(by_computation) ltac:(by_computation)
           ltac:(by_computation)).
Defined.

(** Five of twenty available bytes consumed from the streaming
    decryptor, and five of 32 from the block decryptor. *)
Lemma NextRead_after_partial_AdvanceRead_witness :
  let s := final (DecryptionStream.Decrypt (stream_decryptor [twenty_bytes])) in
  let t := final (BlockDecryptionStream.Decrypt
                    (keyed_decryptor [replicate 48 x01])) in
  (5 < DecryptionStream.GetAvailableRead s /\
   5 < BlockDecryptionStream.GetAvailableRead t) /\
  (exists s',
     DecryptionStream.AdvanceRead 5 s = Ret true s' /\
     DecryptionStream.NextRead s'
     = Ret (Some {| GetData := 5; GetDataLen := 15 |}) s') /\
  (exists t',
     BlockDecryptionStream.AdvanceRead 5 t = Ret true t' /\
     BlockDecryptionStream.NextRead t'
     = Ret (Some {| GetData := 5; GetDataLen := 27 |}) t').
Proof.
  intros s t.
  assert (5 < DecryptionStream.GetAvailableRead s /\
          5 < BlockDecryptionStream.GetAvailableRead t) as Hh
    by by_computation.
  split; [exact Hh|]. destruct Hh as (Hs & Ht).
  destruct (NextRead_after_partial_AdvanceRead s t 5) as [Hstream Hblock].
  destruct (Hstream Hs) as (s' & Hrun & Hnext & _).
  destruct (Hblock Ht) as (t' & Hrun' & Hnext' & _).
  split; [exists s'|exists t']; (split; [assumption|]).
  - exact Hnext.
  - exact Hnext'.
Defined.

(** A block decryptor with 16 bytes withheld and read-end 6 bytes
    before the end of the window. *)
Lemma Flush_capacity_check_never_fires_witness :
  let s := BlockDecryptionStream.set_m_readEnd 4090
             (BlockDecryptionStream.set_m_writePos 16 (decryptor 16 [])) in
  (0 < BlockDecryptionStream.m_blockSize s /\
   TWN_ARRAY_SIZE
   < BlockDecryptionStream.m_readEnd s + BlockDecryptionStream.m_writePos s) /\
  exists s', BlockDecryptionStream.Flush s = Halt (Undefined OutOfBounds) s'.
Proof.
  intros s.
  assert (0 < BlockDecryptionStream.m_blockSize s /\
          TWN_ARRAY_SIZE
          < BlockDecryptionStream.m_readEnd s
            + BlockDecryptionStream.m_writePos s) as Hh by by_computation.
  split; [exact Hh|]. destruct Hh as (HB & Hover).
  destruct (Flush_capacity_check_never_fires s HB
              (ChainCipher_length_preserving _)
              ltac:(by_computation) ltac:(by_computation)
              ltac:(by_computation) ltac:(by_computation)
              ltac:(by_computation) Hover)
    as (_ & s' & Hrun & _).
  exists s'. exact Hrun.
Defined.

(** 5000 bytes committed to an encryptor for 16-byte blocks. *)
Lemma AdvanceWrite_unchecked_witness :
  let s := keyed_encryptor in
  (0 < BlockEncryptionStream.m_blockSize s /\
   TWN_ARRAY_SIZE
   < 5000 + BlockEncryptionStream.GetAvailableRead s
     - (5000 + BlockEncryptionStream.GetAvailableRead s)
       mod BlockEncryptionStream.m_blockSize s) /\
  BlockEncryptionStream.AdvanceWrite 5000 s = Halt (Undefined OutOfBounds) s.
Proof.
  intros s.
  assert (0 < BlockEncryptionStream.m_blockSize s /\
          TWN_ARRAY_SIZE
          < 5000 + BlockEncryptionStream.GetAvailableRead s
            - (5000 + BlockEncryptionStream.GetAvailableRead s)
              mod BlockEncryptionStream.m_blockSize s) as Hh
    by by_computation.
  split; [exact Hh|]. destruct Hh as (HB & Hover).
  exact (proj2 (AdvanceWrite_unchecked s 5000 HB ltac:(by_computation)
                  ltac:(by_computation) Hover)).
Defined.

End MoreWitnesses.
